(** * SeLoger scraper: field normaliser, extractors, orchestrator, delta
    engine, exporter and command line

    A shallow embedding of [src/extractors/html_cleaner.py],
    [src/extractors/seloger_parser.py], [src/outputs/exporter.py] and
    [src/runner.py], followed by the properties of the specification that
    were checked against it and by further properties of the code.

    Conventions of the embedding:
    - a Python [str] is the list of its Unicode code points;
    - [None] is [None] of an [option]; a raised exception is [Raise];
    - the tables of the Python runtime that the code consults (decimal
      digits, case folding, lower-casing) are fields of [unicode]: every
      theorem holds for whatever tables the runtime ships;
    - a document is handed to the parser functions as the tree that
      [BeautifulSoup] builds with the lxml parser, next to its raw markup. *)

From Stdlib Require Import ZArith QArith DecimalString.
From stdpp Require Import base tactics option numbers list strings gmap sorting.

Local Open Scope N_scope.

(** ** Text *)

Abbreviation char := N (only parsing).
Abbreviation str := (list N) (only parsing).

(** An ASCII literal of the source as a Python string. *)
Definition lit (s : string) : str :=
  (λ a, Ascii.N_of_ascii a) <$> String.list_ascii_of_string s.

Definition NBSP : char := 0xA0.
Definition EURO : char := 0x20AC.
Definition BULLET : char := 0x2022.
Definition E_ACUTE : char := 0xE9.
Definition SUPER_TWO : char := 0xB2.

(** [Py_UNICODE_ISSPACE]: the one table behind [\s] of [re] on [str]
    patterns, [str.strip()], [str.split()] and the trimming of [int()]. *)
Definition isspace (c : char) : bool :=
  ((0x09 <=? c) && (c <=? 0x0D)) || ((0x1C <=? c) && (c <=? 0x20))
  || (c =? 0x85) || (c =? 0xA0) || (c =? 0x1680)
  || ((0x2000 <=? c) && (c <=? 0x200A))
  || (c =? 0x2028) || (c =? 0x2029) || (c =? 0x202F) || (c =? 0x205F)
  || (c =? 0x3000).

(** The decimal digits of ASCII. *)
Definition ascii_decimal (c : char) : option Z :=
  if (48 <=? c) && (c <=? 57) then Some (Z.of_N (c - 48)) else None.

(** The tables of the runtime's Unicode database. [decimal] is
    [Py_UNICODE_TODECIMAL] (the class [\d] and the digit values of
    [int()] and [float()]), [ieq p x] tells whether the pattern character
    [p] matches the text character [x] under [re.IGNORECASE], [lower] is
    [str.lower()]. The three laws hold in every version of the Unicode
    database. *)
Record unicode := {
  decimal : char → option Z;
  decimal_ascii : ∀ c, c < 128 → decimal c = ascii_decimal c;
  decimal_range : ∀ c v, decimal c = Some v → (0 ≤ v ≤ 9)%Z;
  decimal_not_space : ∀ c v, decimal c = Some v → isspace c = false;
  ieq : char → char → bool;
  lower : str → str
}.

Definition isdecimal (U : unicode) (c : char) : bool :=
  match decimal U c with Some _ => true | None => false end.

(** [s.lstrip()], [s.rstrip()], [s.strip()] without argument. *)
Fixpoint lstrip (s : str) : str :=
  match s with
  | c :: s' => if isspace c then lstrip s' else s
  | [] => []
  end.

Definition rstrip (s : str) : str := reverse (lstrip (reverse s)).

Definition strip (s : str) : str := rstrip (lstrip s).

(** [s.split()] without argument: the maximal runs of non-whitespace.
    [cur] is the run being read, in reverse. *)
Fixpoint split_go (cur : str) (s : str) : list str :=
  match s with
  | [] => if cur is [] then [] else [reverse cur]
  | c :: s' =>
      if isspace c
      then (if cur is [] then split_go [] s' else reverse cur :: split_go [] s')
      else split_go (c :: cur) s'
  end.

Definition split (s : str) : list str := split_go [] s.

(** [s.replace(c, e)] for a one-character [c] and the empty string [e]. *)
Definition remove_char (c : char) (s : str) : str :=
  filter (λ x, x ≠ c) s.

(** [s.replace(a, b)] for one-character [a] and [b]. *)
Definition replace_char (a b : char) (s : str) : str :=
  (λ x, if x =? a then b else x) <$> s.

(** [needle in s]. *)
Fixpoint starts_with (p s : str) : bool :=
  match p, s with
  | [], _ => true
  | a :: p', b :: s' => (a =? b) && starts_with p' s'
  | _ :: _, [] => false
  end.

Fixpoint contains (needle s : str) : bool :=
  starts_with needle s ||
  match s with
  | [] => false
  | _ :: s' => contains needle s'
  end.

(** [sep.join(parts)]. *)
Fixpoint join (sep : str) (parts : list str) : str :=
  match parts with
  | [] => []
  | [p] => p
  | p :: ps => p ++ sep ++ join sep ps
  end.

(** ** Regular expressions

    The patterns of the source use character classes, literals,
    concatenation, alternation, greedy options and greedy repetition of a
    single character class; [run] is the backtracking matcher of [re] on
    that fragment, in continuation-passing style: alternatives are tried
    in priority order and the first one whose continuation succeeds
    wins. *)

Inductive cls :=
  | Ch (c : char)            (* a literal character *)
  | Digit                    (* \d *)
  | Space                    (* \s *)
  | AnyChar                  (* . *)
  | Range (lo hi : char)     (* [lo-hi] *)
  | Or (a b : cls).          (* [ab] *)

Inductive regex :=
  | Eps
  | One (c : cls)
  | Seq (r1 r2 : regex)
  | Alt (r1 r2 : regex)      (* r1|r2 *)
  | Opt (r : regex)          (* (r)? *)
  | Star (c : cls).          (* c* *)

Definition Plus (c : cls) : regex := Seq (One c) (Star c).

Fixpoint Rep (n : nat) (c : cls) : regex :=
  match n with
  | O => Eps
  | S n' => Seq (One c) (Rep n' c)
  end.

Definition AtLeast (n : nat) (c : cls) : regex := Seq (Rep n c) (Star c).

Definition Word (w : str) : regex := foldr (λ c r, Seq (One (Ch c)) r) Eps w.

(** A compiled pattern: [re.compile(r)] or [re.compile(r, re.I)]. *)
Record pattern := { re : regex; ignorecase : bool }.

Definition compile (r : regex) : pattern := {| re := r; ignorecase := false |}.
Definition compile_I (r : regex) : pattern := {| re := r; ignorecase := true |}.

Definition char_range (lo hi : char) : list char :=
  (λ i, lo + N.of_nat i) <$> seq 0 (N.to_nat (hi + 1 - lo)).

Section Matcher.
Context (U : unicode) (icase : bool).

Fixpoint cls_matches (k : cls) (x : char) : bool :=
  match k with
  | Ch c => if icase then ieq U c x else (c =? x)
  | Digit => isdecimal U x
  | Space => isspace x
  | AnyChar => negb (x =? 10)
  | Range lo hi =>
      if icase then existsb (λ c, ieq U c x) (char_range lo hi)
      else (lo <=? x) && (x <=? hi)
  | Or a b => cls_matches a x || cls_matches b x
  end.

Fixpoint star {A} (c : cls) (k : str → option A) (s : str) : option A :=
  match s with
  | x :: s' =>
      if cls_matches c x
      then (match star c k s' with Some a => Some a | None => k s end)
      else k s
  | [] => k []
  end.

Fixpoint run {A} (r : regex) (k : str → option A) (s : str) : option A :=
  match r with
  | Eps => k s
  | One c =>
      match s with
      | x :: s' => if cls_matches c x then k s' else None
      | [] => None
      end
  | Seq r1 r2 => run r1 (run r2 k) s
  | Alt r1 r2 =>
      match run r1 k s with Some a => Some a | None => run r2 k s end
  | Opt r' => match run r' k s with Some a => Some a | None => k s end
  | Star c => star c k s
  end.
End Matcher.

(** A match object: the text before the match, [group(0)], and the text
    after it. *)
Record match_obj := { before : str; group0 : str; after : str }.

(** [p.match(s)]: a match at the start of [s]. *)
Definition re_match (U : unicode) (p : pattern) (s : str) : option match_obj :=
  match run U (ignorecase p) (re p) Some s with
  | Some rest =>
      Some {| before := []; group0 := take (length s - length rest) s; after := rest |}
  | None => None
  end.

(** [p.search(s)]: the leftmost match. *)
Fixpoint re_search (U : unicode) (p : pattern) (s : str) : option match_obj :=
  match re_match U p s with
  | Some m => Some m
  | None =>
      match s with
      | [] => None
      | x :: s' =>
          match re_search U p s' with
          | Some m => Some {| before := x :: before m; group0 := group0 m; after := after m |}
          | None => None
          end
      end
  end.

Definition re_test (U : unicode) (p : pattern) (s : str) : bool :=
  match re_search U p s with Some _ => true | None => false end.

(** [p.sub(repl, s)]: every non-overlapping match, leftmost first, is
    replaced by [repl]. [skip] counts the characters of the current match
    still to be dropped. *)
Fixpoint re_sub_go (U : unicode) (p : pattern) (repl : str) (skip : nat) (s : str) : str :=
  match s with
  | [] => if re_match U p [] is Some _ then repl else []
  | x :: s' =>
      match skip with
      | S n => re_sub_go U p repl n s'
      | O =>
          match re_match U p s with
          | Some m =>
              match length (group0 m) with
              | O => repl ++ x :: re_sub_go U p repl 0 s'
              | S n => repl ++ re_sub_go U p repl n s'
              end
          | None => x :: re_sub_go U p repl 0 s'
          end
      end
  end.

Definition re_sub (U : unicode) (p : pattern) (repl s : str) : str :=
  re_sub_go U p repl 0 s.

(** ** Field normaliser ([html_cleaner.py]) *)

Definition _WHITESPACE_RE : pattern := compile (Plus Space).

(** The pattern [-?\d[\d\s]*], as one group. *)
Definition _INT_RE : pattern :=
  compile (Seq (Opt (One (Ch 45))) (Seq (One Digit) (Star (Or Digit Space)))).

(** The pattern [-?\d+(?:[.,]\d+)?], as one group. *)
Definition _FLOAT_RE : pattern :=
  compile (Seq (Opt (One (Ch 45)))
            (Seq (Plus Digit) (Opt (Seq (One (Or (Ch 46) (Ch 44))) (Plus Digit))))).

(** The white space [int()] and [float()] trim: the runtime maps every
    non-ASCII white space to a blank and then skips the white space of the
    C locale, so the separators U+001C..U+001F are not trimmed. *)
Definition num_isspace (c : char) : bool :=
  if c <? 127 then ((0x09 <=? c) && (c <=? 0x0D)) || (c =? 0x20) else isspace c.

Fixpoint num_lstrip (s : str) : str :=
  match s with
  | c :: s' => if num_isspace c then num_lstrip s' else s
  | [] => []
  end.

Definition num_strip (s : str) : str :=
  reverse (num_lstrip (reverse (num_lstrip s))).

Inductive digits_state := NeedDigit | AfterDigit.

(** The digits of an integer literal, single underscores allowed between
    digits. *)
Fixpoint int_digits (U : unicode) (st : digits_state) (acc : Z) (s : str) : option Z :=
  match s with
  | [] => if st is AfterDigit then Some acc else None
  | c :: s' =>
      match decimal U c with
      | Some v => int_digits U AfterDigit (acc * 10 + v) s'
      | None =>
          if (c =? 95) && (if st is AfterDigit then true else false)
          then int_digits U NeedDigit acc s'
          else None
      end
  end.

(** [sys.get_int_max_str_digits()], at its default: [int] refuses a
    literal with more digits. *)
Definition INT_MAX_STR_DIGITS : nat := 4300.

(** [int(s)] in base ten; [None] stands for [ValueError]. *)
Definition py_int (U : unicode) (s : str) : option Z :=
  match num_strip s with
  | [] => None
  | c :: r =>
      if (INT_MAX_STR_DIGITS <? length (filter (λ x, isdecimal U x = true) (c :: r)))%nat
      then None
      else if c =? 45 then Z.opp <$> int_digits U NeedDigit 0 r
      else if c =? 43 then int_digits U NeedDigit 0 r
      else int_digits U NeedDigit 0 (c :: r)
  end.

(** [extract_int]: [value] is [None] for [None]. The function is modelled
    by its result: the debug record that the logger of [html_cleaner]
    emits in the handler of [ValueError] is not part of the traces below,
    which hold the records of the loggers of the parser and of the
    runner. The same holds for [extract_float]. *)
Definition extract_int (U : unicode) (value : option str) : option Z :=
  match value with
  | None | Some [] => None
  | Some v =>
      match re_search U _INT_RE v with
      | None => None
      | Some m => py_int U (remove_char NBSP (remove_char 32 (group0 m)))
      end
  end.

(** A decimal number [mantissa / 10 ^ scale]. *)
Record decimal_number := { mantissa : Z; scale : nat }.

Definition dec_value (d : decimal_number) : Q :=
  Qmake (mantissa d) (Pos.of_nat (10 ^ scale d)).

(** The digits of the fractional part of a float literal. *)
Fixpoint frac_digits (U : unicode) (acc : Z) (n : nat) (s : str) : option decimal_number :=
  match s with
  | [] => if n is O then None else Some {| mantissa := acc; scale := n |}
  | c :: s' =>
      match decimal U c with
      | Some v => frac_digits U (acc * 10 + v) (S n) s'
      | None => None
      end
  end.

(** The digits of a float literal [digits] or [digits.digits]. *)
Fixpoint float_digits (U : unicode) (st : digits_state) (acc : Z) (s : str) : option decimal_number :=
  match s with
  | [] => if st is AfterDigit then Some {| mantissa := acc; scale := 0 |} else None
  | c :: s' =>
      match decimal U c with
      | Some v => float_digits U AfterDigit (acc * 10 + v) s'
      | None =>
          if (c =? 46) && (if st is AfterDigit then true else false)
          then frac_digits U acc 0 s'
          else None
      end
  end.

(** [float(s)] on the literals a match of [_FLOAT_RE] can produce, an
    optional sign, digits and an optional fractional part; [None] stands
    for [ValueError]. The result is the decimal number the literal denotes;
    the rounding to binary64 that [float] then applies is not modelled. *)
Definition py_float (U : unicode) (s : str) : option decimal_number :=
  match num_strip s with
  | [] => None
  | c :: r =>
      if c =? 45
      then (λ d, {| mantissa := - mantissa d; scale := scale d |}) <$> float_digits U NeedDigit 0 r
      else float_digits U NeedDigit 0 (c :: r)
  end.

(** The value of the variable [num] of [extract_float], when the function
    gets as far as assigning it. *)
Definition float_num (U : unicode) (value : option str) : option str :=
  match value with
  | None | Some [] => None
  | Some v =>
      match re_search U _FLOAT_RE v with
      | None => None
      | Some m => Some (replace_char 44 46 (remove_char NBSP (remove_char 32 (group0 m))))
      end
  end.

Definition extract_float (U : unicode) (value : option str) : option decimal_number :=
  match float_num U value with
  | None => None
  | Some num => py_float U num
  end.

(** [clean_text]: [value] is [None] for [None]. *)
Definition clean_text (U : unicode) (value : option str) : str :=
  match value with
  | None => []
  | Some text => strip (re_sub U _WHITESPACE_RE (lit " ") text)
  end.

(** ** The ASCII tables

    An instance of [unicode] that knows the ASCII digits and letters only;
    it serves to evaluate the functions on concrete texts. *)

Definition ascii_lower (c : char) : char :=
  if (65 <=? c) && (c <=? 90) then c + 32 else c.

Definition ascii_tables : unicode.
Proof.
  refine {| decimal := ascii_decimal;
            ieq := λ p x, ascii_lower p =? ascii_lower x;
            lower := fmap ascii_lower |}.
  - done.
  - intros c v. unfold ascii_decimal.
    destruct (_ && _) eqn:E; [|done]. intros [= <-].
    apply andb_true_iff in E as [?%N.leb_le ?%N.leb_le]. lia.
  - intros c v. unfold ascii_decimal.
    destruct (_ && _) eqn:E; [|done]. intros _.
    apply andb_true_iff in E as [E1%N.leb_le E2%N.leb_le].
    unfold isspace.
    repeat (apply orb_false_iff; split);
      rewrite ?andb_false_iff, ?N.leb_gt, ?N.eqb_neq; lia.
Defined.

(** ** Documents ([bs4])

    The tree [BeautifulSoup] builds: tags with their attributes and
    children, strings, and comments. The root is the [BeautifulSoup] object
    itself, a tag named [[document]]. *)

#[warnings="-register-all"]
Inductive node :=
  | Element (name : string) (attrs : list (string * str)) (children : list node)
  | Text (s : str)
  | Comment (s : str).

(** [tag.get(key)]. *)
Definition get (n : node) (key : string) : option str :=
  match n with
  | Element _ attrs _ => snd <$> List.find (λ kv, bool_decide (kv.1 = key)) attrs
  | _ => None
  end.

(** The tags and strings below [n], in document order. *)
Fixpoint descendants (n : node) : list node :=
  match n with
  | Element _ _ cs => flat_map (λ c, c :: descendants c) cs
  | _ => []
  end.

(** The strings below [n] (comments included), each with its [.parent],
    in document order. *)
Fixpoint strings_of (n : node) : list (str * node) :=
  match n with
  | Element _ _ cs =>
      flat_map (λ c, match c with
                     | Text s | Comment s => [(s, n)]
                     | Element _ _ _ => strings_of c
                     end) cs
  | _ => []
  end.

(** [tag.get_text()]: the strings below the tag that are not comments,
    concatenated. *)
Fixpoint get_text (n : node) : str :=
  match n with
  | Element _ _ cs => flat_map get_text cs
  | Text s => s
  | Comment _ => []
  end.

(** The strings [get_text] walks through, in document order. *)
Fixpoint text_strings (n : node) : list str :=
  match n with
  | Element _ _ cs => flat_map text_strings cs
  | Text s => [s]
  | Comment _ => []
  end.

(** [tag.get_text(sep, strip=True)]: every string is stripped, the empty
    ones are left out. *)
Definition get_text_stripped (sep : str) (n : node) : str :=
  join sep (filter (λ s, s ≠ []) (strip <$> text_strings n)).

(** What a keyword argument of [find] asks of an attribute: [True], a
    string, or a compiled pattern. *)
Inductive attr_filter :=
  | IsPresent
  | Equals (v : str)
  | Matches (p : pattern).

Definition value_matches (U : unicode) (f : attr_filter) (v : str) : bool :=
  match f with
  | IsPresent => true
  | Equals w => bool_decide (v = w)
  | Matches p => re_test U p v
  end.

(** The attribute [class] is multi-valued: the filter is tried on each
    class, then on the classes joined by blanks. *)
Definition attr_matches (U : unicode) (n : node) (kf : string * attr_filter) : bool :=
  match get n kf.1 with
  | None => false
  | Some v =>
      if bool_decide (kf.1 = "class"%string)
      then existsb (value_matches U kf.2) (split v)
           || value_matches U kf.2 (join (lit " ") (split v))
      else value_matches U kf.2 v
  end.

(** The tag filter of [find] and [find_all]: a list of admitted names
    (empty for any name) and filters on attributes. *)
Definition tag_matches (U : unicode) (names : list string)
    (attrs : list (string * attr_filter)) (n : node) : bool :=
  match n with
  | Element name _ _ =>
      (if names is [] then true else bool_decide (name ∈ names))
      && forallb (attr_matches U n) attrs
  | _ => false
  end.

Definition find_all (U : unicode) (n : node) (names : list string)
    (attrs : list (string * attr_filter)) : list node :=
  filter (λ d, tag_matches U names attrs d = true) (descendants n).

Definition find (U : unicode) (n : node) (names : list string)
    (attrs : list (string * attr_filter)) : option node :=
  head (find_all U n names attrs).

(** [tag.find(string=p)]: the first string below the tag that [p] finds a
    match in, with its parent. *)
Definition find_string (U : unicode) (n : node) (p : pattern) : option (str * node) :=
  List.find (λ sp, re_test U p sp.1) (strings_of n).

(** A compound CSS selector [tag], [tag.class] or [tag[attr='value']], and
    a comma-separated group of them. *)
Record compound := {
  sel_tag : string;
  sel_class : option str;
  sel_attr : option (string * str)
}.

Abbreviation selector := (list compound) (only parsing).

Definition tag_ (t : string) : compound :=
  {| sel_tag := t; sel_class := None; sel_attr := None |}.
Definition tag_class (t : string) (c : string) : compound :=
  {| sel_tag := t; sel_class := Some (lit c); sel_attr := None |}.
Definition tag_attr (t : string) (a : string) (v : string) : compound :=
  {| sel_tag := t; sel_class := None; sel_attr := Some (a, lit v) |}.

Definition compound_matches (c : compound) (n : node) : bool :=
  match n with
  | Element name _ _ =>
      bool_decide (name = sel_tag c)
      && match sel_class c with
         | None => true
         | Some k => match get n "class" with
                     | Some v => bool_decide (k ∈ split v)
                     | None => false
                     end
         end
      && match sel_attr c with
         | None => true
         | Some (a, v) => bool_decide (get n a = Some v)
         end
  | _ => false
  end.

(** [tag.select(sel)] and [tag.select_one(sel)]. *)
Definition select (n : node) (sel : selector) : list node :=
  filter (λ d, existsb (λ c, compound_matches c d) sel = true) (descendants n).

Definition select_one (n : node) (sel : selector) : option node :=
  head (select n sel).

(** ** Effects

    A computation returns or raises, and leaves a trace: the records it
    emitted with the logger of [seloger_parser] (and, for [compute_delta],
    of the runner) and the requests it sent. *)

Inductive exn :=
  | KeyError            (* tag[key] on a missing attribute *)
  | RequestException    (* session.get or raise_for_status *)
  | ParserError         (* BeautifulSoup *)
  | IndexError          (* an index into an empty list *)
  | TypeError.          (* an unhashable dictionary key *)

Inductive level := DEBUG | INFO | WARNING.

Inductive message :=
  | FetchingSearch (url : str)
  | GetUrl (url : str)
  | FoundCards (n : nat) (sel : selector)
  | NoCardsFound
  | SkippingCard
  | CardFailed (e : exn)
  | ParsedSummaries (n : nat)
  | DeepScraping (n : nat)
  | DeepScrapeFailed (url : str) (e : exn)
  | DeltaCounts (new removed : nat).

Inductive event :=
  | LOG (lvl : level) (msg : message)
  | GET (url : str).

Inductive outcome (A : Type) :=
  | Return (a : A)
  | Raise (e : exn).
Arguments Return {A} a.
Arguments Raise {A} e.

Definition M (A : Type) : Type := outcome A * list event.

Definition ret {A} (a : A) : M A := (Return a, []).

Definition bind {A B} (m : M A) (f : A → M B) : M B :=
  match m with
  | (Return a, w) => let '(r, w') := f a in (r, w ++ w')
  | (Raise e, w) => (Raise e, w)
  end.

Definition raise {A} (e : exn) : M A := (Raise e, []).

Definition emit (e : event) : M unit := (Return (), [e]).

Definition log (lvl : level) (msg : message) : M unit := emit (LOG lvl msg).

(** [try: m  except Exception as exc: handler(exc)]. *)
Definition try_except {A} (m : M A) (handler : exn → M A) : M A :=
  match m with
  | (Raise e, w) => let '(r, w') := handler e in (r, w ++ w')
  | _ => m
  end.

Declare Scope M_scope.
Delimit Scope M_scope with M.
Notation "x <- m ;; k" := (bind m (λ x, k))
  (at level 100, m at next level, right associativity) : M_scope.
Notation "m ;; k" := (bind m (λ _, k))
  (at level 100, right associativity) : M_scope.
Local Open Scope M_scope.

(** ** Records *)

(** The values of a record: [None], a string, an integer, a list of
    strings. *)
Inductive val :=
  | VNone
  | VStr (s : str)
  | VInt (n : Z)
  | VList (l : list str).

Global Instance val_eq_dec : EqDecision val.
Proof. solve_decision. Defined.

Global Instance val_countable : Countable val.
Proof.
  refine (inj_countable'
    (λ v, match v with
          | VNone => inl ()
          | VStr s => inr (inl s)
          | VInt n => inr (inr (inl n))
          | VList l => inr (inr (inr l))
          end)
    (λ x, match x with
          | inl () => VNone
          | inr (inl s) => VStr s
          | inr (inr (inl n)) => VInt n
          | inr (inr (inr l)) => VList l
          end) _).
  by intros [].
Defined.

(** A record of the output: a dictionary from field names to values. *)
Abbreviation record := (gmap string val) (only parsing).

Definition of_opt_str (o : option str) : val :=
  match o with Some s => VStr s | None => VNone end.

Definition of_opt_int (o : option Z) : val :=
  match o with Some n => VInt n | None => VNone end.

(** [bool(v)]. *)
Definition truthy (v : val) : bool :=
  match v with
  | VNone => false
  | VStr s => if s is [] then false else true
  | VInt n => negb (n =? 0)%Z
  | VList l => if l is [] then false else true
  end.

Record ListingSummary := {
  title : str;
  url : str;
  location : option str;
  price : option Z;
  photos : list str
}.

(** The reading [datetime.utcnow().isoformat(timespec=seconds)] of the
    clock is an argument [now] of the functions that stamp a record. *)
Definition _summary_to_dict (now : str) (summary : ListingSummary) : record :=
  list_to_map [
    ("title"%string, VStr (title summary));
    ("description"%string, VStr []);
    ("price"%string, of_opt_int (price summary));
    ("location"%string, of_opt_str (location summary));
    ("photos"%string, VList (photos summary));
    ("energy_info"%string, VNone);
    ("construction_date"%string, VNone);
    ("publisher_name"%string, VNone);
    ("publisher_email"%string, VNone);
    ("publisher_phone"%string, VNone);
    ("nearby_transport"%string, VList []);
    ("url"%string, VStr (url summary));
    ("scraped_at"%string, VStr (now ++ lit "Z"))
  ].

(** ** Networking *)

(** A page as the parser functions receive it: the markup [resp.text] and
    what [BeautifulSoup] makes of it with the lxml parser, a tree or
    an exception. *)
Record page := { markup : str; tree : option node }.

(** The world of one run: the answer of the site to the request numbered
    [n] for a URL ([None] when [session.get] or [raise_for_status]
    raises), and the reading of the clock when record [n] is stamped. *)
Record world := {
  session_get : nat → str → option page;
  utcnow : nat → str
}.

Definition _fetch_url (W : world) (request : nat) (url : str) : M page :=
  log DEBUG (GetUrl url);;
  emit (GET url);;
  match session_get W request url with
  | Some resp => ret resp
  | None => raise RequestException
  end.

Definition BeautifulSoup (html : page) : M node :=
  match tree html with
  | Some soup => ret soup
  | None => raise ParserError
  end.

(** [tag[key]]. *)
Definition subscript (n : node) (key : string) : M str :=
  match get n key with
  | Some v => ret v
  | None => raise KeyError
  end.

(** ** Summary extractor ([_parse_search_results]) *)

Definition ORIGIN : str := lit "https://www.seloger.com".
Definition DOMAIN : str := lit "seloger.com".

Definition card_selectors : list selector := [
  [tag_class "div" "c-pa-list"];
  [tag_class "div" "ListingCell"];
  [tag_attr "article" "data-test" "sl-card-result"]
].

Definition title_selector : selector :=
  [tag_ "h2"; tag_ "h3"; tag_ "h4"; tag_attr "a" "data-test" "sl-card-title"].

(** The pattern [\d[\d\s]*€]. *)
Definition PRICE_RE : pattern :=
  compile (Seq (One Digit) (Seq (Star (Or Digit Space)) (One (Ch EURO)))).

(** The pattern [.*location.*]. *)
Definition LOCATION_ATTR_RE : pattern :=
  compile (Seq (Star AnyChar) (Seq (Word (lit "location")) (Star AnyChar))).

(** The pattern [Location], ignoring case. *)
Definition LOCATION_CLASS_RE : pattern := compile_I (Word (lit "Location")).

(** [a or b] on two optional strings. *)
Definition or_str (a b : option str) : option str :=
  match a with
  | Some (_ :: _) => a
  | _ => b
  end.

(** [a or b] on two optional tags; a tag is always true. *)
Definition or_tag (a b : option node) : option node :=
  match a with
  | Some _ => a
  | None => b
  end.

(** The loop over [find_all("img")] that extends [photos]. *)
Fixpoint add_photos (photos : list str) (imgs : list node) : list str :=
  match imgs with
  | [] => photos
  | img :: rest =>
      match or_str (get img "data-src") (get img "src") with
      | Some ((_ :: _) as src) =>
          if contains DOMAIN src && negb (bool_decide (src ∈ photos))
          then add_photos (photos ++ [src]) rest
          else add_photos photos rest
      | _ => add_photos photos rest
      end
  end.

(** The loop over [card_selectors], left at the first selector with a
    match; [cards] keeps the value of the last assignment. *)
Fixpoint select_cards (soup : node) (selectors : list selector) : M (list node) :=
  match selectors with
  | [] => ret []
  | sel :: rest =>
      match select soup sel with
      | [] => select_cards soup rest
      | cards => log DEBUG (FoundCards (length cards) sel);; ret cards
      end
  end.

(** The body of the [try] for one card: the summary to append, or [None]
    after [continue]. *)
Definition parse_card (U : unicode) (card : node) : M (option ListingSummary) :=
  let title_el := select_one card title_selector in
  let title :=
    match title_el with
    | Some el => clean_text U (Some (get_text el))
    | None => lit "Property listing"
    end in
  let link_el := find U card ["a"%string] [("href"%string, IsPresent)] in
  url <- match link_el with
         | Some el => subscript el "href"
         | None => ret []
         end;;
  let url := if (if url is [] then false else true) && starts_with (lit "/") url
             then ORIGIN ++ url else url in
  let loc_el :=
    or_tag (find U card [] [("data-test"%string, Matches LOCATION_ATTR_RE)])
           (find U card ["p"%string] [("class"%string, Matches LOCATION_CLASS_RE)]) in
  let location :=
    match loc_el with
    | Some el => Some (clean_text U (Some (get_text el)))
    | None => None
    end in
  let price_el := find_string U card PRICE_RE in
  let price :=
    match price_el with
    | Some ((_ :: _) as s, _) => extract_int U (Some s)
    | _ => None
    end in
  let photos := add_photos [] (find_all U card ["img"%string] []) in
  if url is [] then
    log DEBUG SkippingCard;; ret None
  else
    ret (Some {| title := title; url := url; location := location;
                 price := price; photos := photos |}).

(** The loop over the cards. *)
Fixpoint parse_cards (U : unicode) (cards : list node)
    (listings : list ListingSummary) : M (list ListingSummary) :=
  match cards with
  | [] => ret listings
  | card :: rest =>
      r <- try_except (parse_card U card)
             (λ exc, log DEBUG (CardFailed exc);; ret None);;
      parse_cards U rest
        (match r with Some s => listings ++ [s] | None => listings end)
  end.

Definition _parse_search_results (U : unicode) (html : page) : M (list ListingSummary) :=
  soup <- BeautifulSoup html;;
  cards <- select_cards soup card_selectors;;
  if cards is [] then
    log WARNING NoCardsFound;; ret []
  else
    parse_cards U cards [].

(** ** Detail extractor ([_parse_listing_page]) *)

Definition description_selectors : list selector := [
  [tag_class "div" "Description"];
  [tag_attr "section" "data-test" "sl-description"];
  [tag_class "div" "c-pa-list-details__text"]
].

Definition agency_selectors : list selector := [
  [tag_attr "div" "data-test" "sl-contact-info"];
  [tag_class "div" "AgencyCard"];
  [tag_attr "div" "data-test" "agency-card"]
].

(** The pattern [Localisation|Adresse], ignoring case. *)
Definition ADDRESS_CLASS_RE : pattern :=
  compile_I (Alt (Word (lit "Localisation")) (Word (lit "Adresse"))).

(** The pattern [Classe\s+[A-G]], ignoring case. *)
Definition ENERGY_CLASS_RE : pattern :=
  compile_I (Seq (Word (lit "Classe")) (Seq (Plus Space) (One (Range 65 71)))).

(** The pattern [diagnostic de performance énergétique], ignoring case. *)
Definition DPE_RE : pattern :=
  compile_I (Word (lit "diagnostic de performance " ++ [E_ACUTE] ++ lit "nerg"
                   ++ [E_ACUTE] ++ lit "tique")).

(** The pattern [(Construction\s+en\s+)?(19|20)\d{2}]. *)
Definition YEAR_RE : pattern :=
  compile (Seq (Opt (Seq (Word (lit "Construction"))
                      (Seq (Plus Space) (Seq (Word (lit "en")) (Plus Space)))))
               (Seq (Alt (Word (lit "19")) (Word (lit "20"))) (Rep 2 Digit))).

(** The pattern [\+?\d[\d\s]{6,}]. *)
Definition PHONE_RE : pattern :=
  compile (Seq (Opt (One (Ch 43))) (Seq (One Digit) (AtLeast 6 (Or Digit Space)))).

(** The patterns [mailto:] and [tel:], ignoring case. *)
Definition MAILTO_RE : pattern := compile_I (Word (lit "mailto:")).
Definition TEL_RE : pattern := compile_I (Word (lit "tel:")).

(** The pattern [Transport|Métro|Bus], ignoring case. *)
Definition TRANSPORT_RE : pattern :=
  compile_I (Alt (Word (lit "Transport"))
              (Alt (Word (lit "M" ++ [E_ACUTE] ++ lit "tro")) (Word (lit "Bus")))).

(** [s.split(":", 1)[-1]]: what follows the first colon, or [s] itself
    when it has none. *)
Fixpoint after_colon_go (s : str) : option str :=
  match s with
  | [] => None
  | c :: s' => if c =? 58 then Some s' else after_colon_go s'
  end.

Definition after_colon (s : str) : str := default s (after_colon_go s).

(** [re.split] on a pattern that is one character class; [cur] is the
    piece being read, in reverse. *)
Fixpoint split_on (U : unicode) (c : cls) (cur : str) (s : str) : list str :=
  match s with
  | [] => [reverse cur]
  | x :: s' =>
      if cls_matches U false c x
      then reverse cur :: split_on U c [] s'
      else split_on U c (x :: cur) s'
  end.

(** The loop over [description_selectors], left at the first hit. *)
Fixpoint first_select_one (soup : node) (selectors : list selector) : option node :=
  match selectors with
  | [] => None
  | sel :: rest =>
      match select_one soup sel with
      | Some el => Some el
      | None => first_select_one soup rest
      end
  end.

(** [not o] for an optional string. *)
Definition falsy (o : option str) : bool :=
  match o with
  | Some (_ :: _) => false
  | _ => true
  end.

(** The block run on the first agency container found: name, phone and
    e-mail, in this order. *)
Definition parse_agency (U : unicode) (agency : node)
    (publisher : option str * option str * option str)
    : M (option str * option str * option str) :=
  let '(publisher_name, publisher_email, publisher_phone) := publisher in
  let publisher_name :=
    if falsy publisher_name then
      match find U agency ["h2"; "h3"]%string [] with
      | Some name_el => Some (clean_text U (Some (get_text name_el)))
      | None => publisher_name
      end
    else publisher_name in
  let publisher_phone :=
    if falsy publisher_phone then
      match find_string U agency PHONE_RE with
      | Some ((_ :: _) as phone_el, _) => Some (clean_text U (Some phone_el))
      | _ => publisher_phone
      end
    else publisher_phone in
  publisher_email <-
    (if falsy publisher_email then
       match find U agency ["a"%string] [("href"%string, Matches MAILTO_RE)] with
       | Some email_el => href <- subscript email_el "href";; ret (Some (after_colon href))
       | None => ret publisher_email
       end
     else ret publisher_email);;
  ret (publisher_name, publisher_email, publisher_phone).

(** The loop over [agency_selectors], left after the first container. *)
Fixpoint parse_agencies (U : unicode) (soup : node) (selectors : list selector)
    (publisher : option str * option str * option str)
    : M (option str * option str * option str) :=
  match selectors with
  | [] => ret publisher
  | sel :: rest =>
      match select_one soup sel with
      | Some agency => parse_agency U agency publisher
      | None => parse_agencies U soup rest publisher
      end
  end.

(** The loop over the pieces of the transport block. *)
Fixpoint add_transport (U : unicode) (nearby : list str) (pieces : list str) : list str :=
  match pieces with
  | [] => nearby
  | p :: rest =>
      let p := clean_text U (Some p) in
      if (if p is [] then false else true)
         && (contains (lit "m" ++ [E_ACUTE] ++ lit "tro") (lower U p)
             || contains (lit "bus") (lower U p))
      then add_transport U (nearby ++ [p]) rest
      else add_transport U nearby rest
  end.

(** The blocks of [_parse_listing_page], one per field, in the order of
    the source. *)

Definition listing_title (U : unicode) (soup : node) (summary : ListingSummary) : str :=
  let title := title summary in
  match find U soup ["h1"%string] [] with
  | Some title_el =>
      match clean_text U (Some (get_text title_el)) with
      | [] => title
      | t => t
      end
  | None => title
  end.

Definition listing_description (U : unicode) (soup : node) : str :=
  let desc_el := find U soup [] [("data-test"%string, Equals (lit "sl-price-description"))] in
  let desc_el :=
    match desc_el with
    | Some _ => desc_el
    | None => first_select_one soup description_selectors
    end in
  match desc_el with
  | Some el => clean_text U (Some (get_text el))
  | None => []
  end.

Definition listing_price (U : unicode) (soup : node) (summary : ListingSummary) : option Z :=
  match find_string U soup PRICE_RE with
  | Some ((_ :: _) as price_el, _) => extract_int U (Some price_el)
  | _ => price summary
  end.

Definition listing_location (U : unicode) (soup : node) (summary : ListingSummary)
    : option str :=
  let loc_el := find U soup [] [("data-test"%string, Matches LOCATION_ATTR_RE)] in
  let loc_el :=
    match loc_el with
    | Some _ => loc_el
    | None => find U soup ["p"%string] [("class"%string, Matches ADDRESS_CLASS_RE)]
    end in
  match loc_el with
  | Some el => Some (clean_text U (Some (get_text el)))
  | None => location summary
  end.

Definition listing_energy_info (U : unicode) (soup : node) : option str :=
  match find_string U soup ENERGY_CLASS_RE with
  | Some ((_ :: _) as energy_block, _) => Some (clean_text U (Some energy_block))
  | _ =>
      match find_string U soup DPE_RE with
      | Some (_ :: _, parent) => Some (clean_text U (Some (get_text parent)))
      | _ => None
      end
  end.

(** The year is searched in the raw markup; [[-1]] on an empty list
    raises [IndexError]. *)
Definition listing_construction_date (U : unicode) (html : str) : M (option str) :=
  match re_search U YEAR_RE html with
  | Some year_match =>
      match last (split (group0 year_match)) with
      | Some year => ret (Some year)
      | None => raise IndexError
      end
  | None => ret None
  end.

(** [(publisher_name, publisher_email, publisher_phone)]: the agency
    container first, then the links of the whole page for the phone and
    the e-mail. *)
Definition listing_publisher (U : unicode) (soup : node)
    : M (option str * option str * option str) :=
  publisher <- parse_agencies U soup agency_selectors (None, None, None);;
  let '(publisher_name, publisher_email, publisher_phone) := publisher in
  publisher_phone <-
    (if falsy publisher_phone then
       match find U soup ["a"%string] [("href"%string, Matches TEL_RE)] with
       | Some phone_el => href <- subscript phone_el "href";; ret (Some (after_colon href))
       | None => ret publisher_phone
       end
     else ret publisher_phone);;
  publisher_email <-
    (if falsy publisher_email then
       match find U soup ["a"%string] [("href"%string, Matches MAILTO_RE)] with
       | Some email_el => href <- subscript email_el "href";; ret (Some (after_colon href))
       | None => ret publisher_email
       end
     else ret publisher_email);;
  ret (publisher_name, publisher_email, publisher_phone).

Definition listing_nearby_transport (U : unicode) (soup : node) : list str :=
  match find_string U soup TRANSPORT_RE with
  | Some (_ :: _, parent) =>
      let text := get_text_stripped (lit " ") parent in
      let pieces := split_on U (Or (Ch BULLET) (Ch 10)) [] text in
      add_transport U [] pieces
  | _ => []
  end.

Definition listing_photos (U : unicode) (soup : node) (summary : ListingSummary)
    : list str :=
  add_photos (photos summary) (find_all U soup ["img"%string] []).

Definition _parse_listing_page (U : unicode) (now : str) (html : page)
    (summary : ListingSummary) : M (gmap string val) :=
  soup <- BeautifulSoup html;;
  let title := listing_title U soup summary in
  let description := listing_description U soup in
  let price := listing_price U soup summary in
  let location := listing_location U soup summary in
  let energy_info := listing_energy_info U soup in
  construction_date <- listing_construction_date U (markup html);;
  publisher <- listing_publisher U soup;;
  let '(publisher_name, publisher_email, publisher_phone) := publisher in
  let nearby_transport := listing_nearby_transport U soup in
  let photos := listing_photos U soup summary in
  ret (list_to_map [
    ("title"%string, VStr title);
    ("description"%string, VStr description);
    ("price"%string, of_opt_int price);
    ("location"%string, of_opt_str location);
    ("photos"%string, VList photos);
    ("energy_info"%string, of_opt_str energy_info);
    ("construction_date"%string, of_opt_str construction_date);
    ("publisher_name"%string, of_opt_str publisher_name);
    ("publisher_email"%string, of_opt_str publisher_email);
    ("publisher_phone"%string, of_opt_str publisher_phone);
    ("nearby_transport"%string, VList nearby_transport);
    ("url"%string, VStr (url summary));
    ("scraped_at"%string, VStr (now ++ lit "Z"))
  ]).

(** ** Enrichment orchestrator ([_deep_scrape_summaries])

    The threads of the pool share nothing but the list of results; the
    model runs the task of each submitted summary to its end, one after
    the other, in the order in which [as_completed] yields the futures.
    That order is the argument [completion], a list of positions in
    [summaries]. The trace lists the events of the tasks in one of the
    orders in which the threads can emit them. The pool is one that can
    be built: [max_workers] is positive (the constructor of the pool
    raises [ValueError] otherwise). *)

(** [worker], for the summary submitted at position [i]. *)
Definition worker (U : unicode) (W : world) (i : nat) (summary : ListingSummary)
    : M (option (gmap string val)) :=
  try_except
    (html <- _fetch_url W (S i) (url summary);;
     detail <- _parse_listing_page U (utcnow W i) html summary;;
     ret (Some detail))
    (λ exc, log WARNING (DeepScrapeFailed (url summary) exc);; ret None).

(** The loop over [as_completed(futures)]. *)
Fixpoint collect (futures : list (M (option (gmap string val))))
    (results : list (gmap string val)) : M (list (gmap string val)) :=
  match futures with
  | [] => ret results
  | f :: rest =>
      result <- f;;
      collect rest
        (match result with
         | Some r => if bool_decide (r = ∅) then results else results ++ [r]
         | None => results
         end)
  end.

Definition _deep_scrape_summaries (U : unicode) (W : world) (completion : list nat)
    (summaries : list ListingSummary) : M (list (gmap string val)) :=
  let futures := imap (worker U W) summaries in
  collect (omap (λ i, futures !! i) completion) [].

(** ** Public entry ([scrape]) *)

(** [l[:n]]. *)
Definition slice_to {A} (n : Z) (l : list A) : list A :=
  if (0 <=? n)%Z then take (Z.to_nat n) l
  else take (length l - Z.to_nat (- n)) l.

Definition scrape (U : unicode) (W : world) (completion : list nat)
    (start_url : str) (deep_scrape : bool) (limit : option Z)
    : M (list (gmap string val)) :=
  log DEBUG (FetchingSearch start_url);;
  html <- _fetch_url W 0 start_url;;
  summaries <- _parse_search_results U html;;
  let summaries :=
    match limit with
    | Some n => slice_to n summaries
    | None => summaries
    end in
  log INFO (ParsedSummaries (length summaries));;
  if negb deep_scrape then
    ret (imap (λ i s, _summary_to_dict (utcnow W i) s) summaries)
  else
    log INFO (DeepScraping (length summaries));;
    _deep_scrape_summaries U W completion summaries.

(** ** Delta engine ([compute_delta]) *)

(** [item.get(key)], [None] when the key is missing. *)
Definition dict_get (item : gmap string val) (key : string) : val :=
  default VNone (item !! key).

(** An unhashable value cannot be a dictionary key. *)
Definition hashable (v : val) : bool :=
  match v with
  | VList _ => false
  | _ => true
  end.

(** The comprehension [{item.get(u): item for item in items if item.get(u)}]
    at [u = url]: a later item replaces an earlier one under the same
    key. *)
Fixpoint index_by_url (items : list (gmap string val))
    (acc : gmap val (gmap string val)) : M (gmap val (gmap string val)) :=
  match items with
  | [] => ret acc
  | item :: rest =>
      let key := dict_get item "url" in
      if truthy key then
        if hashable key then index_by_url rest (<[key := item]> acc)
        else raise TypeError
      else index_by_url rest acc
  end.

Record delta := {
  new : list (gmap string val);
  removed : list (gmap string val);
  current : list (gmap string val)
}.

(** [index[u]]. *)
Definition dict_subscript (index : gmap val (gmap string val)) (u : val)
    : M (gmap string val) :=
  match index !! u with
  | Some item => ret item
  | None => raise KeyError
  end.

Fixpoint mapM {A B} (f : A → M B) (l : list A) : M (list B) :=
  match l with
  | [] => ret []
  | x :: l' => y <- f x;; ys <- mapM f l';; ret (y :: ys)
  end.

(** The comprehension [[index[u] for u in urls]]; the order in which a
    set is walked is that of [elements]. *)
Definition lookup_all (index : gmap val (gmap string val)) (urls : gset val)
    : M (list (gmap string val)) :=
  mapM (dict_subscript index) (elements urls).

Definition compute_delta (previous current : list (gmap string val)) : M delta :=
  prev_by_url <- index_by_url previous ∅;;
  curr_by_url <- index_by_url current ∅;;
  let prev_urls : gset val := dom prev_by_url in
  let curr_urls : gset val := dom curr_by_url in
  let new_urls := curr_urls ∖ prev_urls in
  let removed_urls := prev_urls ∖ curr_urls in
  new_listings <- lookup_all curr_by_url new_urls;;
  removed_listings <- lookup_all prev_by_url removed_urls;;
  log INFO (DeltaCounts (length new_listings) (length removed_listings));;
  ret {| new := new_listings; removed := removed_listings; current := current |}.

(** * The exporter and the command line

    The functions of [src/outputs/exporter.py] and of [src/runner.py].
    Their paths are POSIX paths; the keys of the records are ASCII. *)

(** ** Effects of a run

    Besides what the scraper does, a run of the command line logs with
    the loggers of the runner and of the exporter, creates directories and
    writes files. It ends normally, with an exception, or with
    [SystemExit]. *)

Inductive severity :=
  | Lvl (lvl : level)
  | ERROR.

Inductive failure :=
  | Uncaught (e : exn)    (* an exception of the scraper or of the delta engine *)
  | FileError             (* [OSError], or an error of decoding or of [json.load] *)
  | ValueError            (* an export format that is not supported *)
  | SystemExit (code : Z).

Inductive notice :=
  | LoggingInitialized (lvl : level)
  | LoadedConfiguration (path : str)
  | ConfigurationFailed (f : failure)
  | InputsMissing (path : str)
  | LoadedStartUrls (n : nat) (path : str)
  | NoPreviousOutput (path : str)
  | PreviousNotAList
  | LoadedPrevious (n : nat) (path : str)
  | PreviousFailed
  | NoStartUrl
  | StartingScrape (start_url : str) (deep_scrape delta_mode : bool)
  | ScrapingFailed (f : failure)
  | DeltaSummary (total fresh gone : nat)
  | Exported (n : nat) (fmt path : str)      (* [fmt] is printed in upper case *)
  | ExportFailed (f : failure)
  | ScrapingComplete (n : nat) (path fmt : str).

Inductive action :=
  | Inner (e : event)
  | Notice (lvl : severity) (msg : notice)
  | MakeDirs (dir : str)
  | WriteFile (path content : str).

Inductive ending (A : Type) :=
  | Done (a : A)
  | Failed (f : failure).
Arguments Done {A} a.
Arguments Failed {A} f.

Definition R (A : Type) : Type := ending A * list action.

Definition pure {A} (a : A) : R A := (Done a, []).

Definition and_then {A B} (m : R A) (f : A → R B) : R B :=
  match m with
  | (Done a, w) => let '(r, w') := f a in (r, w ++ w')
  | (Failed e, w) => (Failed e, w)
  end.

Definition fail {A} (f : failure) : R A := (Failed f, []).

Definition act (a : action) : R unit := (Done (), [a]).

Definition notify (lvl : severity) (msg : notice) : R unit := act (Notice lvl msg).

(** A call into the scraper or the delta engine. *)
Definition lift {A} (m : M A) : R A :=
  match m with
  | (Return a, w) => (Done a, Inner <$> w)
  | (Raise e, w) => (Failed (Uncaught e), Inner <$> w)
  end.

(** [try: m  except Exception as exc: handler(exc)]; [SystemExit] is not
    an [Exception]. *)
Definition catch {A} (m : R A) (handler : failure → R A) : R A :=
  match m with
  | (Failed (SystemExit _), _) => m
  | (Failed f, w) => let '(r, w') := handler f in (r, w ++ w')
  | _ => m
  end.

Declare Scope R_scope.
Delimit Scope R_scope with R.
Notation "x <- m ;; k" := (and_then m (λ x, k))
  (at level 100, m at next level, right associativity) : R_scope.
Notation "m ;; k" := (and_then m (λ _, k))
  (at level 100, right associativity) : R_scope.

(** ** What a run reads and calls

    The configuration is a JSON object whose entries have the types that
    the annotations of [main] give them, or are [null]. An entry that is
    [None] is absent or [null]: [config.get] gives [None] for both. The
    two differ for [output_format] only, whose default stands for the
    absent entry and not for [null]. *)
Inductive format_entry :=
  | FormatAbsent
  | FormatNull
  | FormatText (s : str).

Record settings := {
  cfg_start_url : option str;
  cfg_inputs_file : option str;
  cfg_deep_scrape : bool;
  cfg_delta_mode : bool;
  cfg_output_format : format_entry;
  cfg_output_path : option str;
  cfg_previous_output_path : option str;
  cfg_max_results : option Z
}.

(** The result of [parse_args]. *)
Record arguments := {
  arg_config : str;
  arg_output : str;
  arg_verbosity : Z
}.

(** What [read_previous_listings] finds at a path. *)
Inductive previous_file :=
  | NoFile
  | Unreadable                          (* [open] or [json.load] raises *)
  | NotAList
  | Snapshot (listings : list record).

(** What [read_inputs_file] finds at a path: nothing, something that
    [open] or the decoding of the lines refuses (a directory, a file
    without read permission, bytes that are not UTF-8), or a text. *)
Inductive text_file :=
  | NoSuchFile
  | CannotRead
  | TextLines (lines : list str).

(** The files and the library functions of a run. [config_at] is [None]
    when the file is missing or is not JSON, and the entries of a JSON
    object otherwise: a run whose configuration is JSON but not an object,
    or has an entry of another type than [settings] gives it, is not
    described. [lines_at] tells what stands
    at the path of a text file; [clock] is the reading of the clock in
    [main]; [makedirs] and [open_w] tell whether
    [os.makedirs(dir, exist_ok=True)] and [open(path, "w")] succeed;
    [json_dump] and [csv_text] are the texts that [json.dump] and the
    [csv.DictWriter] write. [os.makedirs] fails on the empty path. *)
Record host := {
  config_at : str → option settings;
  lines_at : str → text_file;
  previous_at : str → previous_file;
  clock : str;
  makedirs : str → bool;
  makedirs_empty : makedirs [] = false;
  open_w : str → bool;
  json_dump : list record → str;
  csv_text : list string → list (gmap string str) → str
}.

(** ** The exporter ([outputs/exporter.py]) *)

(** [html.escape(s)]. *)
Definition escape_char (c : char) : str :=
  if c =? 38 then lit "&amp;"
  else if c =? 60 then lit "&lt;"
  else if c =? 62 then lit "&gt;"
  else if c =? 34 then lit "&quot;"
  else if c =? 39 then lit "&#x27;"
  else [c].

Definition escape (s : str) : str := s ≫= escape_char.

(** [str(n)] for an integer. *)
Definition str_of_int (n : Z) : str := lit (NilZero.string_of_int (Z.to_int n)).

(** [flatten_value] of [_export_csv]; [str(v)] of a string is the
    string. *)
Definition flatten_value (value : val) : str :=
  match value with
  | VList l => join (lit "; ") l
  | VNone => []
  | VStr s => s
  | VInt n => str_of_int n
  end.

(** The order of [sorted] on keys. *)
Definition key_le (a b : string) : Prop := Stdlib.Strings.String.leb a b = true.

Global Instance key_le_dec (a b : string) : Decision (key_le a b).
Proof. unfold key_le. apply _. Defined.

(** [sorted({key for item in listings for key in item.keys()})]. *)
Definition fieldnames (listings : list record) : list string :=
  merge_sort key_le (elements (⋃ (dom <$> listings) : gset string)).

(** The comprehension that builds a row of the CSV file. *)
Definition csv_row (names : list string) (item : record) : gmap string str :=
  list_to_map ((λ k, (k, flatten_value (dict_get item k))) <$> names).

(** The variable [display] of [_export_html]. *)
Definition display (value : val) : str :=
  match value with
  | VList l => join (lit "<br>") (escape <$> l)
  | VNone => escape []
  | VStr s => escape s
  | VInt n => escape (str_of_int n)
  end.

(** One element of [rows_html]. *)
Definition html_row (names : list string) (item : record) : str :=
  lit "<tr>"
  ++ mjoin ((λ key, lit "<td>" ++ display (dict_get item key) ++ lit "</td>") <$> names)
  ++ lit "</tr>".

Definition table_html (listings : list record) : str :=
  let names := fieldnames listings in
  let header_cells := mjoin ((λ k, lit "<th>" ++ escape (lit k) ++ lit "</th>") <$> names) in
  lit "<table border='1' cellspacing='0' cellpadding='4'>"
  ++ lit "<thead><tr>" ++ header_cells ++ lit "</tr></thead>"
  ++ lit "<tbody>"
  ++ mjoin (html_row names <$> listings)
  ++ lit "</tbody></table>".

(** The text that [_export_html] writes. *)
Definition html_doc (listings : list record) : str :=
  if listings is [] then lit "<html><body><p>No listings found.</p></body></html>"
  else
    lit "<!DOCTYPE html>" ++ [10]
    ++ lit "<html lang=" ++ [34] ++ lit "en" ++ [34] ++ lit ">" ++ [10]
    ++ lit "  <head>" ++ [10]
    ++ lit "    <meta charset=" ++ [34] ++ lit "utf-8" ++ [34] ++ lit ">" ++ [10]
    ++ lit "    <title>SeLoger Listings Export</title>" ++ [10]
    ++ lit "    <style>" ++ [10]
    ++ lit "      body { font-family: Arial, sans-serif; font-size: 14px; }" ++ [10]
    ++ lit "      table { border-collapse: collapse; width: 100%; }" ++ [10]
    ++ lit "      th, td { padding: 4px 8px; }" ++ [10]
    ++ lit "      th { background-color: #f0f0f0; text-align: left; }" ++ [10]
    ++ lit "      tbody tr:nth-child(even) { background-color: #fafafa; }" ++ [10]
    ++ lit "    </style>" ++ [10]
    ++ lit "  </head>" ++ [10]
    ++ lit "  <body>" ++ [10]
    ++ lit "    <h1>SeLoger Listings Export</h1>" ++ [10]
    ++ lit "    " ++ table_html listings ++ [10]
    ++ lit "  </body>" ++ [10]
    ++ lit "</html>" ++ [10].

(** [os.path.dirname]: [p] up to its last slash, without the slashes at
    the end unless there is nothing else. *)
Fixpoint up_to_last_slash (p : str) : str :=
  match p with
  | [] => []
  | c :: p' =>
      match up_to_last_slash p' with
      | [] => if c =? 47 then [c] else []
      | h => c :: h
      end
  end.

Fixpoint rstrip_slash (s : str) : str :=
  match s with
  | [] => []
  | c :: s' =>
      match rstrip_slash s' with
      | [] => if c =? 47 then [] else [c]
      | r => c :: r
      end
  end.

Definition dirname (p : str) : str :=
  let head := up_to_last_slash p in
  if forallb (λ c, c =? 47) head then head else rstrip_slash head.

Section Runner.
Context (U : unicode) (W : world) (completion : list nat) (H : host).
Local Open Scope R_scope.

(** [with open(path, "w") as f: f.write(content)]. *)
Definition write_text (path content : str) : R unit :=
  if open_w H path then act (WriteFile path content) else fail FileError.

Definition _export_json (listings : list record) (path : str) : R unit :=
  write_text path (json_dump H listings).

Definition _export_csv (listings : list record) (path : str) : R unit :=
  if listings is [] then write_text path []
  else
    let names := fieldnames listings in
    write_text path (csv_text H names (csv_row names <$> listings)).

Definition _export_html (listings : list record) (path : str) : R unit :=
  write_text path (html_doc listings).

Definition export_listings (listings : list record) (path fmt : str) : R unit :=
  let fmt := lower U fmt in
  (if makedirs H (dirname path) then act (MakeDirs (dirname path)) else fail FileError);;
  (if bool_decide (fmt = lit "json") then _export_json listings path
   else if bool_decide (fmt = lit "csv") then _export_csv listings path
   else if bool_decide (fmt = lit "html") then _export_html listings path
   else fail ValueError);;
  notify (Lvl INFO) (Exported (length listings) fmt path).

(** ** The command line ([runner.py]) *)

Definition setup_logging (verbosity : Z) : R unit :=
  let level :=
    if (verbosity =? 1)%Z then INFO
    else if (2 <=? verbosity)%Z then DEBUG
    else WARNING in
  notify (Lvl DEBUG) (LoggingInitialized level).

Definition load_config (path : str) : R settings :=
  match config_at H path with
  | Some cfg => notify (Lvl DEBUG) (LoadedConfiguration path);; pure cfg
  | None => fail FileError
  end.

(** The loop over the lines of the inputs file. *)
Fixpoint read_lines (urls : list str) (lines : list str) : list str :=
  match lines with
  | [] => urls
  | line :: rest =>
      let url := strip line in
      if (if url is [] then false else true) && negb (starts_with (lit "#") url)
      then read_lines (urls ++ [url]) rest
      else read_lines urls rest
  end.

(** The file is opened and read outside any [try]: what [open] or the
    decoding raises leaves the function. *)
Definition read_inputs_file (path : str) : R (list str) :=
  match lines_at H path with
  | NoSuchFile => notify (Lvl WARNING) (InputsMissing path);; pure []
  | CannotRead => fail FileError
  | TextLines lines =>
      let urls := read_lines [] lines in
      notify (Lvl INFO) (LoadedStartUrls (length urls) path);;
      pure urls
  end.

Definition read_previous_listings (path : str) : R (list record) :=
  match previous_at H path with
  | NoFile => notify (Lvl INFO) (NoPreviousOutput path);; pure []
  | Unreadable => notify ERROR PreviousFailed;; pure []
  | NotAList => notify (Lvl WARNING) PreviousNotAList;; pure []
  | Snapshot data => notify (Lvl INFO) (LoadedPrevious (length data) path);; pure data
  end.

(** [a or b] for an optional string and a string. *)
Definition or_else (a : option str) (b : str) : str :=
  match a with
  | Some ((_ :: _) as s) => s
  | _ => b
  end.

(** The loop of [main] that stamps the listings without [scraped_at]. *)
Definition stamp (timestamp : str) (listings : list record) : list record :=
  (λ listing : record,
     match listing !! "scraped_at"%string with
     | Some _ => listing
     | None => <["scraped_at"%string := VStr timestamp]> listing
     end) <$> listings.

(** The blocks of [main], in the order of the source: the start URL,
    taken from the configuration or else from the first line of the inputs
    file that holds a URL; then the scrape, the time stamps, the delta and
    the export. *)

Definition main_start_url (config : settings) : R (option str) :=
  let start_url := cfg_start_url config in
  let inputs_file := cfg_inputs_file config in
  match inputs_file with
  | Some ((_ :: _) as inputs_file) =>
      if falsy start_url then
        potential_urls <- read_inputs_file inputs_file;;
        pure (head potential_urls)
      else pure start_url
  | _ => pure start_url
  end.

Definition main_scrape (config : settings) (args : arguments) (start_url : str) : R unit :=
  let deep_scrape := cfg_deep_scrape config in
  let delta_mode := cfg_delta_mode config in
  let output_format :=
    lower U (match cfg_output_format config with
             | FormatAbsent => lit "json"
             | FormatNull => lit "None"
             | FormatText s => s
             end) in
  let output_path := or_else (cfg_output_path config) (arg_output args) in
  let previous_output_path := or_else (cfg_previous_output_path config) output_path in
  let max_results := cfg_max_results config in
  notify (Lvl INFO) (StartingScrape start_url deep_scrape delta_mode);;
  listings <- catch (lift (scrape U W completion start_url deep_scrape max_results))
                (λ exc, notify ERROR (ScrapingFailed exc);; fail (SystemExit 1));;
  let timestamp := clock H ++ lit "Z" in
  let listings := stamp timestamp listings in
  result_payload <-
    (if delta_mode then
       previous_listings <- read_previous_listings previous_output_path;;
       deltas <- lift (compute_delta previous_listings listings);;
       notify (Lvl INFO)
         (DeltaSummary (length (current deltas)) (length (new deltas))
            (length (removed deltas)));;
       pure (current deltas)
     else pure listings);;
  catch (export_listings result_payload output_path output_format)
    (λ exc, notify ERROR (ExportFailed exc);; fail (SystemExit 1));;
  notify (Lvl INFO) (ScrapingComplete (length listings) output_path output_format).

Definition main (args : arguments) : R unit :=
  setup_logging (arg_verbosity args);;
  config <- catch (load_config (arg_config args))
              (λ exc, notify ERROR (ConfigurationFailed exc);; fail (SystemExit 1));;
  start_url <- main_start_url config;;
  match start_url with
  | Some ((_ :: _) as start_url) => main_scrape config args start_url
  | _ => notify ERROR NoStartUrl;; fail (SystemExit 1)
  end.
End Runner.

(** ** Auxiliary definitions

    Functions and predicates that the statements and proofs below use to
    describe what the code computes. *)

(** The number of white-space characters [s] starts with. *)
Fixpoint leading (s : str) : nat :=
  match s with
  | c :: s' => if isspace c then S (leading s') else 0
  | [] => 0
  end.

(** What [_WHITESPACE_RE.sub] computes, by structural recursion: [inside]
    tells whether the previous character belongs to a run of white space
    whose blank was already written. *)
Fixpoint squeeze (inside : bool) (s : str) : str :=
  match s with
  | [] => []
  | c :: s' =>
      if isspace c then (if inside then squeeze true s' else 32 :: squeeze true s')
      else c :: squeeze false s'
  end.

(** [rstrip] by structural recursion. *)
Fixpoint rtrim (s : str) : str :=
  match s with
  | [] => []
  | c :: s' =>
      match rtrim s' with
      | [] => if isspace c then [] else [c]
      | r => c :: r
      end
  end.

(** What it means for a text to match a regular expression as a whole. *)
Fixpoint matches (U : unicode) (icase : bool) (r : regex) (s : str) : Prop :=
  match r with
  | Eps => s = []
  | One c => ∃ x, s = [x] ∧ cls_matches U icase c x = true
  | Seq r1 r2 => ∃ s1 s2, s = s1 ++ s2 ∧ matches U icase r1 s1 ∧ matches U icase r2 s2
  | Alt r1 r2 => matches U icase r1 s ∨ matches U icase r2 s
  | Opt r' => s = [] ∨ matches U icase r' s
  | Star c => Forall (λ x, cls_matches U icase c x = true) s
  end.

(** The tables [U] and [V] give the characters of [s] the same digit
    values. *)
Definition same_digits (U V : unicode) (s : str) : Prop :=
  Forall (λ c, decimal U c = decimal V c) s.

(** The target of the first link of a card, and the URL the summary
    extractor makes of a target. *)
Definition card_href (U : unicode) (card : node) : option str :=
  match find U card ["a"%string] [("href"%string, IsPresent)] with
  | Some el => get el "href"
  | None => None
  end.

Definition resolve_href (href : str) : str :=
  if starts_with (lit "/") href then ORIGIN ++ href else href.

(** The text node the summary extractor reads the price of a card from. *)
Definition card_price_text (U : unicode) (card : node) : option str :=
  match find_string U card PRICE_RE with
  | Some ((_ :: _) as s, _) => Some s
  | _ => None
  end.

(** The summary [_parse_search_results] appends for a card, if any. *)
Definition card_summary (U : unicode) (card : node) : option ListingSummary :=
  match parse_card U card with
  | (Return (Some s), _) => Some s
  | _ => None
  end.

(** An absolute URL starts with a scheme (RFC 3986): a letter, then
    letters, digits, [+], [-] or [.], then a colon. *)
Definition is_alpha (c : char) : bool :=
  ((65 <=? c) && (c <=? 90)) || ((97 <=? c) && (c <=? 122)).

Fixpoint scheme_tail (s : str) : bool :=
  match s with
  | [] => false
  | c :: s' =>
      if c =? 58 then true
      else (is_alpha c || ((48 <=? c) && (c <=? 57)) || (c =? 43) || (c =? 45) || (c =? 46))
           && scheme_tail s'
  end.

Definition is_absolute (u : str) : bool :=
  match u with
  | c :: u' => is_alpha c && scheme_tail u'
  | [] => false
  end.


(** The target, after the colon, of the first link of the page whose
    [href] matches [p]. *)
Definition page_link (U : unicode) (soup : node) (p : pattern) : option str :=
  match find U soup ["a"%string] [("href"%string, Matches p)] with
  | Some el => after_colon <$> get el "href"
  | None => None
  end.

(** The thirteen keys of a record. *)
Definition record_keys : gset string :=
  list_to_set [
    "title"; "description"; "price"; "location"; "photos"; "energy_info";
    "construction_date"; "publisher_name"; "publisher_email"; "publisher_phone";
    "nearby_transport"; "url"; "scraped_at"
  ]%string.

(** The fetch and the parse of the summary at position [i] both
    succeed. *)
Definition enriched (W : world) (i : nat) (summary : ListingSummary) : bool :=
  match session_get W (S i) (url summary) with
  | Some html => if tree html is Some _ then true else false
  | None => false
  end.

(** The URLs of the requests in a trace. *)
Definition requests (w : list event) : list str :=
  omap (λ e, match e with GET u => Some u | _ => None end) w.

(** ** Example documents *)

(** The tree of a document whose body holds [body]. *)
Definition document (body : list node) : node :=
  Element "[document]" [] [Element "html" [] [Element "body" [] body]].

(** A page of results with three cards: the first has a link relative to
    the site's root and the text of a price cut, the second has no link,
    the third has a link relative to the page. *)
Definition results_markup : str :=
  lit "<html><body><div class=ListingCell><h2>Studio Lyon</h2><a href=/annonces/1.htm>Voir</a><span>Baisse de prix : -5 000 "
  ++ [EURO]
  ++ lit "</span></div><div class=ListingCell><h2>Sans lien</h2></div><div class=ListingCell><h2>Maison</h2><a href=annonce-2.htm>Voir</a><span>250 000 "
  ++ [EURO] ++ lit "</span></div></body></html>".

Definition results_tree : node :=
  document [
    Element "div" [("class"%string, lit "ListingCell")] [
      Element "h2" [] [Text (lit "Studio Lyon")];
      Element "a" [("href"%string, lit "/annonces/1.htm")] [Text (lit "Voir")];
      Element "span" [] [Text (lit "Baisse de prix : -5 000 " ++ [EURO])]
    ];
    Element "div" [("class"%string, lit "ListingCell")] [
      Element "h2" [] [Text (lit "Sans lien")]
    ];
    Element "div" [("class"%string, lit "ListingCell")] [
      Element "h2" [] [Text (lit "Maison")];
      Element "a" [("href"%string, lit "annonce-2.htm")] [Text (lit "Voir")];
      Element "span" [] [Text (lit "250 000 " ++ [EURO])]
    ]
  ].

Definition results_page : page :=
  {| markup := results_markup; tree := Some results_tree |}.

(** A page without any card. *)
Definition blank_page : page :=
  {| markup := lit "<html><body><p>Aucune annonce</p></body></html>";
     tree := Some (document [Element "p" [] [Text (lit "Aucune annonce")]]) |}.

(** A log record of level [DEBUG]. *)
Definition is_debug (e : event) : Prop :=
  match e with
  | LOG DEBUG _ => True
  | _ => False
  end.

(** A year-like token at the start of [s]: [19] or [20] followed by two
    decimal digits. *)
Definition year_at (U : unicode) (s : str) : option str :=
  match s with
  | a :: b :: c :: d :: _ =>
      if (((a =? 49) && (b =? 57)) || ((a =? 50) && (b =? 48)))
         && isdecimal U c && isdecimal U d
      then Some [a; b; c; d] else None
  | _ => None
  end.

(** The year-like tokens of [s], from left to right. *)
Fixpoint all_years (U : unicode) (s : str) : list str :=
  match s with
  | [] => []
  | _ :: s' =>
      match year_at U s with
      | Some y => y :: all_years U s'
      | None => all_years U s'
      end
  end.

(** A detail page without agency container: it has a heading, a
    description that names two years, a price and a telephone link. *)
Definition detail_markup : str :=
  lit "<html><body><h1>Studio Lyon 3</h1><div class=Description>Construit en 1990, renove en 2015.</div><span>250 000 "
  ++ [EURO] ++ lit "</span><a href=tel:0478563412>Appeler</a></body></html>".

Definition detail_tree : node :=
  document [
    Element "h1" [] [Text (lit "Studio Lyon 3")];
    Element "div" [("class"%string, lit "Description")]
      [Text (lit "Construit en 1990, renove en 2015.")];
    Element "span" [] [Text (lit "250 000 " ++ [EURO])];
    Element "a" [("href"%string, lit "tel:0478563412")] [Text (lit "Appeler")]
  ].

Definition detail_page : page :=
  {| markup := detail_markup; tree := Some detail_tree |}.

Definition studio (n : string) : ListingSummary :=
  {| title := lit "Studio"; url := lit "https://www.seloger.com/annonces/" ++ lit n;
     location := None; price := Some 1000%Z; photos := [] |}.

Definition noon : str := lit "2024-05-01T12:00:00".

(** The record that the task of the summary at position [i] yields, if
    any. *)
Definition enrich_one (U : unicode) (W : world) (task : nat * ListingSummary)
    : option (gmap string val) :=
  match session_get W (S task.1) (url task.2) with
  | Some html =>
      match _parse_listing_page U (utcnow W task.1) html task.2 with
      | (Return r, _) => Some r
      | _ => None
      end
  | None => None
  end.

(** What the loop over [as_completed] appends for a future. *)
Definition future_record (f : M (option (gmap string val))) : option (gmap string val) :=
  match f with
  | (Return (Some r), _) => if bool_decide (r = ∅) then None else Some r
  | _ => None
  end.

(** A world for five summaries: every page of detail is [detail_page],
    except that the request of the third task fails. *)
Definition five : list ListingSummary :=
  [studio "1.htm"; studio "2.htm"; studio "3.htm"; studio "4.htm"; studio "5.htm"].

Definition third_fails : world :=
  {| session_get := λ n _, if (n =? 3)%nat then None else Some detail_page;
     utcnow := λ _, noon |}.

(** A world for a whole run: the first request gets the page of results,
    the detail of the first listing is [detail_page], any other request
    fails. *)
Definition small_site : world :=
  {| session_get := λ n u,
       match n with
       | O => Some results_page
       | S _ =>
           if bool_decide (u = lit "https://www.seloger.com/annonces/1.htm")
           then Some detail_page else None
       end;
     utcnow := λ _, noon |}.

(** The key under which the delta engine files an item: the value of its
    [url], when that value is true. *)
Definition url_key (item : gmap string val) : option val :=
  if truthy (dict_get item "url") then Some (dict_get item "url") else None.

(** [item] is the last item of [items] filed under the key [k]. *)
Definition indexed (items : list (gmap string val)) (k : val) (item : gmap string val) : Prop :=
  ∃ front back,
    items = front ++ item :: back
    ∧ url_key item = Some k
    ∧ Forall (λ later, url_key later ≠ Some k) back.

(** Some item of [items] is filed under the key [k]. *)
Definition tracked (items : list (gmap string val)) (k : val) : Prop :=
  ∃ item, item ∈ items ∧ url_key item = Some k.

(** No item has a list for URL: every key can be hashed. *)
Definition keys_hashable (items : list (gmap string val)) : Prop :=
  Forall (λ item, ∀ k, url_key item = Some k → hashable k = true) items.

(** The index that the comprehension builds, as a fold. *)
Definition index_of (items : list (gmap string val)) (acc : gmap val (gmap string val))
    : gmap val (gmap string val) :=
  foldl (λ m item, if url_key item is Some k then <[k := item]> m else m) acc items.

(** Records with a URL and a price, for the examples of the delta. *)
Definition listing (u : string) (p : Z) : gmap string val :=
  list_to_map [("url"%string, VStr (lit u)); ("price"%string, VInt p)].


(** The longest prefix of [s] whose characters satisfy [p], and what
    follows it. *)
Fixpoint take_while (p : char → bool) (s : str) : str :=
  match s with
  | c :: s' => if p c then c :: take_while p s' else []
  | [] => []
  end.

Fixpoint drop_while (p : char → bool) (s : str) : str :=
  match s with
  | c :: s' => if p c then drop_while p s' else s
  | [] => []
  end.


(** A detail page with two agency containers, a telephone link before
    them, a heading of white space, a price written with a narrow no-break
    space, a block on transport and three images. *)
Definition agency_tree : node :=
  document [
    Element "h1" [] [Text (lit "  ")];
    Element "a" [("href"%string, lit "tel:0400000000")] [Text (lit "Appeler")];
    Element "div" [("class"%string, lit "AgencyCard")] [
      Element "h3" [] [Text (lit " Agence  du Parc ")];
      Element "p" [] [Text (lit "04 78 56 34 12")];
      Element "a" [("href"%string, lit "mailto:contact@parc.example")] [Text (lit "Ecrire")]
    ];
    Element "div" [("data-test"%string, lit "agency-card")] [
      Element "h2" [] [Text (lit "Autre agence")]
    ];
    Element "span" [] [Text (lit "1" ++ [0x202F] ++ lit "234 " ++ [EURO])];
    Element "p" [] [
      Text (lit "Transports : ");
      Element "b" [] [Text (lit "M" ++ [E_ACUTE] ++ lit "tro B")];
      Text ([BULLET] ++ lit " Bus C3 " ++ [BULLET] ++ lit " Gare")
    ];
    Element "img" [("src"%string, lit "https://v.seloger.com/a.jpg")] [];
    Element "img" [("data-src"%string, lit "https://v.seloger.com/b.jpg");
                   ("src"%string, lit "https://cdn.example/b.jpg")] [];
    Element "img" [("src"%string, lit "https://v.seloger.com/a.jpg")] []
  ].

Definition agency_page : page :=
  {| markup :=
       lit "<html><body><h1>  </h1><a href=tel:0400000000>Appeler</a><div class=AgencyCard><h3> Agence  du Parc </h3><p>04 78 56 34 12</p><a href=mailto:contact@parc.example>Ecrire</a></div><div data-test=agency-card><h2>Autre agence</h2></div><span>1"
       ++ [0x202F] ++ lit "234 " ++ [EURO]
       ++ lit "</span><p>Transports : <b>M" ++ [E_ACUTE] ++ lit "tro B</b>" ++ [BULLET]
       ++ lit " Bus C3 " ++ [BULLET]
       ++ lit " Gare</p><img src=https://v.seloger.com/a.jpg><img data-src=https://v.seloger.com/b.jpg src=https://cdn.example/b.jpg><img src=https://v.seloger.com/a.jpg></body></html>";
     tree := Some agency_tree |}.

(** What the loop over the cards logs for one card. *)
Definition card_trace (U : unicode) (card : node) : list event :=
  if card_summary U card is Some _ then [] else [LOG DEBUG SkippingCard].

(** A log record of the handler of the loop over the cards. *)
Definition is_card_failure (e : event) : bool :=
  match e with
  | LOG _ (CardFailed _) => true
  | _ => false
  end.

Definition is_skip (e : event) : bool :=
  match e with
  | LOG DEBUG SkippingCard => true
  | _ => false
  end.

(** The tasks in the order in which they complete, each with the position
    at which its summary was submitted. *)
Definition completed_tasks (completion : list nat) (summaries : list ListingSummary)
    : list (nat * ListingSummary) :=
  omap (λ i, pair i <$> summaries !! i) completion.

(** The trace of a run up to the answer to the first request. *)
Definition search_trace (start_url : str) : list event :=
  [LOG DEBUG (FetchingSearch start_url); LOG DEBUG (GetUrl start_url); GET start_url].

(** The number that a run of decimal digits denotes, read after [acc]. *)
Definition digits_value (U : unicode) (acc : Z) (ds : str) : Z :=
  foldl (λ n c, n * 10 + default 0 (decimal U c))%Z acc ds.


(** The files written and the pages requested in the trace of a run. *)
Definition written (w : list action) : list (str * str) :=
  omap (λ a, match a with WriteFile path content => Some (path, content) | _ => None end) w.

Definition fetched (w : list action) : list str :=
  omap (λ a, match a with Inner (GET u) => Some u | _ => None end) w.

(** A line of the inputs file that holds a URL, and the start URL that
    the configuration and the inputs file give. *)
Definition url_of_line (line : str) : option str :=
  match strip line with
  | [] => None
  | url => if starts_with (lit "#") url then None else Some url
  end.

Definition resolved_start_url (H : host) (config : settings) : option str :=
  match cfg_start_url config with
  | Some ((_ :: _) as u) => Some u
  | _ =>
      match cfg_inputs_file config with
      | Some ((_ :: _) as path) =>
          match lines_at H path with
          | TextLines lines => head (omap url_of_line lines)
          | _ => None
          end
      | _ => None
      end
  end.

(** Hosts for the examples: two configurations and one inputs file; the
    path [data] is a directory; any directory but the empty path can be
    created and any file written;
    [previous] is what stands at the path of the previous output. *)
Definition shallow_settings : settings :=
  {| cfg_start_url := None;
     cfg_inputs_file := Some (lit "data/inputs.txt");
     cfg_deep_scrape := false;
     cfg_delta_mode := true;
     cfg_output_format := FormatText (lit "JSON");
     cfg_output_path := None;
     cfg_previous_output_path := None;
     cfg_max_results := None |}.

(** A configuration whose inputs file is a directory. *)
Definition broken_settings : settings :=
  {| cfg_start_url := None;
     cfg_inputs_file := Some (lit "data");
     cfg_deep_scrape := false;
     cfg_delta_mode := false;
     cfg_output_format := FormatAbsent;
     cfg_output_path := None;
     cfg_previous_output_path := None;
     cfg_max_results := None |}.

Definition host_with (previous : previous_file) : host.
Proof.
  refine {| config_at := λ path,
              if bool_decide (path = lit "settings.json") then Some shallow_settings
              else if bool_decide (path = lit "broken.json") then Some broken_settings
              else None;
            lines_at := λ path,
              if bool_decide (path = lit "data/inputs.txt")
              then TextLines [lit "# start pages" ++ [10]; [10];
                              lit "  https://www.seloger.com/list.htm " ++ [10];
                              lit "https://www.seloger.com/other.htm" ++ [10]]
              else if bool_decide (path = lit "data") then CannotRead
              else NoSuchFile;
            previous_at := λ _, previous;
            clock := lit "2024-05-01T12:00:05";
            makedirs := λ dir, if dir is [] then false else true;
            open_w := λ _, true;
            json_dump := λ listings, lit "[...]";
            csv_text := λ _ _, [] |}.
  done.
Defined.

Definition example_host : host := host_with NoFile.


(** A world without network. *)
Definition offline : world :=
  {| session_get := λ _ _, None; utcnow := λ _, noon |}.

Definition example_args (output : string) : arguments :=
  {| arg_config := lit "settings.json"; arg_output := lit output; arg_verbosity := 1 |}.



(** The start URL is to be read from an inputs file that cannot be
    read. *)
Definition inputs_unreadable (H : host) (config : settings) : bool :=
  falsy (cfg_start_url config)
  && match cfg_inputs_file config with
     | Some ((_ :: _) as path) => if lines_at H path is CannotRead then true else false
     | _ => false
     end.


(** The cards of a page of results: the matches of the first selector of
    [card_selectors] that has a match, none when no selector has one. *)
Definition page_cards (soup : node) (cards : list node) : Prop :=
  (Forall (λ sel, select soup sel = []) card_selectors ∧ cards = [])
  ∨ ∃ front sel back,
      card_selectors = front ++ sel :: back
      ∧ Forall (λ sel', select soup sel' = []) front
      ∧ select soup sel ≠ []
      ∧ cards = select soup sel.

(** A page of results with one card that has four images: two of the
    site, one of them twice, and one of another domain. *)
Definition gallery_card : node :=
  Element "div" [("class"%string, lit "ListingCell")] [
    Element "h2" [] [Text (lit "Loft")];
    Element "a" [("href"%string, lit "/annonces/9.htm")] [Text (lit "Voir")];
    Element "img" [("src"%string, lit "https://v.seloger.com/a.jpg")] [];
    Element "img" [("src"%string, lit "https://cdn.example/logo.png")] [];
    Element "img" [("data-src"%string, lit "https://v.seloger.com/b.jpg")] [];
    Element "img" [("src"%string, lit "https://v.seloger.com/a.jpg")] []
  ].

Definition gallery_page : page :=
  {| markup :=
       lit "<html><body><div class=ListingCell><h2>Loft</h2><a href=/annonces/9.htm>Voir</a><img src=https://v.seloger.com/a.jpg><img src=https://cdn.example/logo.png><img data-src=https://v.seloger.com/b.jpg><img src=https://v.seloger.com/a.jpg></div></body></html>";
     tree := Some (document [gallery_card]) |}.

(** A summary that already has two photos, one of which is an image of
    [agency_page]. *)
Definition loft : ListingSummary :=
  {| title := lit "Loft"; url := lit "https://www.seloger.com/annonces/9.htm";
     location := None; price := None;
     photos := [lit "https://v.seloger.com/c.jpg"; lit "https://v.seloger.com/a.jpg"] |}.

(** * Properties *)

(** ** The matcher *)

Section MatcherFacts.
Context (U : unicode) (icase : bool).


Lemma star_space (s : str) : star U icase Space Some s = Some (lstrip s).
Proof.
  induction s as [|x s IH]; simpl; [done|].
  destruct (isspace x); [by rewrite IH|done].
Qed.
End MatcherFacts.

(** ** [clean_text] *)




Lemma length_lstrip (s : str) : (length (lstrip s) + leading s = length s)%nat.
Proof. induction s as [|c s IH]; simpl; [done|]. destruct (isspace c); simpl; lia. Qed.

Lemma whitespace_match (U : unicode) (s : str) :
  re_match U _WHITESPACE_RE s =
    match s with
    | c :: s' =>
        if isspace c
        then Some {| before := []; group0 := take (S (leading s')) s; after := lstrip s' |}
        else None
    | [] => None
    end.
Proof.
  unfold re_match; simpl. destruct s as [|c s']; [done|].
  destruct (isspace c); [|done]. rewrite star_space.
  do 3 f_equal. pose proof (length_lstrip s'). simpl. f_equal. lia.
Qed.

Lemma re_sub_squeeze (U : unicode) (s : str) :
  re_sub_go U _WHITESPACE_RE (lit " ") (leading s) s = squeeze true s
  ∧ re_sub_go U _WHITESPACE_RE (lit " ") 0 s = squeeze false s.
Proof.
  induction s as [|c s [IH1 IH2]]; [done|].
  assert (re_sub_go U _WHITESPACE_RE (lit " ") 0 (c :: s) = squeeze false (c :: s)) as H0.
  { cbn [re_sub_go]. rewrite whitespace_match. cbn [squeeze].
    destruct (isspace c) eqn:Hc; [|by rewrite IH2].
    cbn [group0]. rewrite length_take.
    pose proof (length_lstrip s).
    replace (S (leading s) `min` length (c :: s))%nat with (S (leading s)) by (simpl; lia).
    by rewrite IH1. }
  split; [|done].
  cbn [leading squeeze]. destruct (isspace c) eqn:Hc.
  - simpl. apply IH1.
  - rewrite H0. simpl. by rewrite Hc.
Qed.

Lemma lstrip_squeeze_true (s : str) : lstrip (squeeze true s) = squeeze true s.
Proof.
  induction s as [|c s IH]; simpl; [done|].
  destruct (isspace c) eqn:Hc; [done|]. simpl. by rewrite Hc.
Qed.

Lemma lstrip_squeeze (b : bool) (s : str) : lstrip (squeeze b s) = squeeze true s.
Proof.
  destruct b; [apply lstrip_squeeze_true|].
  destruct s as [|c s]; simpl; [done|].
  destruct (isspace c) eqn:Hc; simpl; [apply lstrip_squeeze_true|by rewrite Hc].
Qed.

Lemma lstrip_snoc (s : str) (c : char) :
  lstrip (s ++ [c]) =
    match lstrip s with
    | [] => if isspace c then [] else [c]
    | r => r ++ [c]
    end.
Proof.
  induction s as [|x s IH]; simpl; [done|].
  destruct (isspace x); [done|done].
Qed.

Lemma rstrip_rtrim (s : str) : rstrip s = rtrim s.
Proof.
  unfold rstrip. induction s as [|c s IH]; [done|].
  rewrite reverse_cons, lstrip_snoc. cbn [rtrim]. rewrite <- IH.
  destruct (lstrip (reverse s)) as [|y r] eqn:E.
  - rewrite reverse_nil. by destruct (isspace c).
  - rewrite reverse_app, reverse_singleton. cbn [app].
    destruct (reverse (y :: r)) eqn:E2; [|done].
    apply (f_equal reverse) in E2. by rewrite reverse_involutive in E2.
Qed.

Lemma clean_text_squeeze (U : unicode) (s : str) :
  clean_text U (Some s) = rtrim (squeeze true s).
Proof.
  unfold clean_text, re_sub, strip.
  rewrite (proj2 (re_sub_squeeze U s)), lstrip_squeeze. apply rstrip_rtrim.
Qed.

Lemma squeeze_squeeze (s : str) (b : bool) :
  squeeze false (squeeze b s) = squeeze b s
  ∧ squeeze true (squeeze b s) = squeeze true s.
Proof.
  revert b. induction s as [|c s IH]; intros b; [done|].
  simpl. destruct (isspace c) eqn:Hc.
  - destruct b; [apply IH|].
    simpl. replace (isspace 32) with true by done.
    destruct (IH true) as [_ ->]. done.
  - simpl. rewrite Hc. by destruct (IH false) as [-> _].
Qed.

Lemma rtrim_squeeze_rtrim (s : str) (b : bool) :
  rtrim (squeeze b (rtrim s)) = rtrim (squeeze b s).
Proof.
  revert b. induction s as [|c s IH]; intros b; [done|].
  cbn [rtrim]. destruct (rtrim s) as [|y r] eqn:E.
  - assert (∀ b', rtrim (squeeze b' s) = []) as Hnil.
    { intros b'. by rewrite <- IH. }
    destruct (isspace c) eqn:Hc; simpl; rewrite Hc.
    + destruct b; simpl; by rewrite Hnil.
    + simpl. by rewrite Hnil.
  - remember (y :: r) as t eqn:Et. cbn [squeeze].
    destruct (isspace c) eqn:Hc.
    + destruct b; [apply IH|]. cbn [rtrim]. by rewrite IH.
    + cbn [rtrim]. by rewrite IH.
Qed.

Lemma clean_text_idem (U : unicode) (x : str) :
  clean_text U (Some (clean_text U (Some x))) = clean_text U (Some x).
Proof.
  rewrite !clean_text_squeeze, rtrim_squeeze_rtrim.
  by destruct (squeeze_squeeze x true) as [_ ->].
Qed.

(** ** Soundness of the matcher *)

Section Soundness.
Context (U : unicode) (icase : bool).

Lemma star_sound {A} (c : cls) (k : str → option A) (s : str) (a : A) :
  star U icase c k s = Some a →
  ∃ s1 s2, s = s1 ++ s2 ∧ matches U icase (Star c) s1 ∧ k s2 = Some a.
Proof.
  induction s as [|x s IH]; simpl.
  - intros Hk. exists [], []. by repeat split.
  - destruct (cls_matches U icase c x) eqn:Hx.
    + destruct (star U icase c k s) as [b|] eqn:Hs.
      * intros [= ->]. destruct (IH eq_refl) as (s1 & s2 & -> & H1 & H2).
        exists (x :: s1), s2. repeat split; [|done]. by constructor.
      * intros Hk. exists [], (x :: s). by repeat split.
    + intros Hk. exists [], (x :: s). by repeat split.
Qed.

Lemma run_sound {A} (r : regex) (k : str → option A) (s : str) (a : A) :
  run U icase r k s = Some a →
  ∃ s1 s2, s = s1 ++ s2 ∧ matches U icase r s1 ∧ k s2 = Some a.
Proof.
  revert k s a. induction r as [|c|r1 IH1 r2 IH2|r1 IH1 r2 IH2|r IH|c]; intros k s a; simpl.
  - intros Hk. by exists [], s.
  - destruct s as [|x s]; [done|].
    destruct (cls_matches U icase c x) eqn:Hx; [|done].
    intros Hk. exists [x], s. repeat split; [|done]. by exists x.
  - intros H. apply IH1 in H as (s1 & s' & -> & H1 & H).
    apply IH2 in H as (s2 & s3 & -> & H2 & H).
    exists (s1 ++ s2), s3. rewrite <- (assoc_L (++)). repeat split; [|done].
    by exists s1, s2.
  - destruct (run U icase r1 k s) as [b|] eqn:E1.
    + intros [= ->]. apply IH1 in E1 as (s1 & s2 & -> & H1 & H). exists s1, s2. tauto.
    + intros H. apply IH2 in H as (s1 & s2 & -> & H1 & H). exists s1, s2. tauto.
  - destruct (run U icase r k s) as [b|] eqn:E1.
    + intros [= ->]. apply IH in E1 as (s1 & s2 & -> & H1 & H). exists s1, s2. tauto.
    + intros Hk. exists [], s. tauto.
  - apply star_sound.
Qed.
End Soundness.

Lemma re_match_sound (U : unicode) (p : pattern) (s : str) (m : match_obj) :
  re_match U p s = Some m →
  before m = [] ∧ s = group0 m ++ after m ∧ matches U (ignorecase p) (re p) (group0 m).
Proof.
  unfold re_match. destruct (run _ _ _ _ _) as [rest|] eqn:E; [|done].
  intros [= <-]. simpl. apply run_sound in E as (s1 & s2 & -> & H1 & [= ->]).
  rewrite length_app. replace (length s1 + length rest - length rest)%nat with (length s1) by lia.
  by rewrite take_app_length.
Qed.

(** [re_search] returns the leftmost match. *)
Lemma re_search_sound (U : unicode) (p : pattern) (s : str) (m : match_obj) :
  re_search U p s = Some m →
  s = before m ++ group0 m ++ after m
  ∧ matches U (ignorecase p) (re p) (group0 m)
  ∧ ∀ i, (i < length (before m))%nat → re_match U p (drop i s) = None.
Proof.
  revert m. induction s as [|x s IH]; intros m; simpl.
  - destruct (re_match U p []) as [m'|] eqn:E; [|done].
    intros [= ->]. apply re_match_sound in E as (Hb & Hs & Hm).
    rewrite Hb. repeat split; [done..|]. simpl. lia.
  - destruct (re_match U p (x :: s)) as [m'|] eqn:E.
    + intros [= ->]. apply re_match_sound in E as (Hb & Hs & Hm).
      rewrite Hb. repeat split; [done..|]. simpl. lia.
    + destruct (re_search U p s) as [m'|] eqn:E'; [|done].
      intros [= <-]. simpl. destruct (IH _ eq_refl) as (Hs & Hm & Hl).
      repeat split; [by f_equal|done|].
      intros [|i] Hi; [done|]. simpl. apply Hl. lia.
Qed.

Lemma re_search_None (U : unicode) (p : pattern) (s : str) :
  (∀ i, re_match U p (drop i s) = None) → re_search U p s = None.
Proof.
  induction s as [|x s IH]; intros H; simpl.
  - pose proof (H 0%nat) as H0. simpl in H0. by rewrite H0.
  - pose proof (H 0%nat) as H0. simpl in H0. rewrite H0, IH; [done|].
    intros i. apply (H (S i)).
Qed.

(** ** The table only matters on the characters of the text *)

Section Congruence.
Context (U V : unicode).

Lemma cls_matches_congr (k : cls) (x : char) :
  decimal U x = decimal V x → cls_matches U false k x = cls_matches V false k x.
Proof.
  intros H. induction k; simpl; try done.
  - unfold isdecimal. by rewrite H.
  - by rewrite IHk1, IHk2.
Qed.

Lemma star_congr {A} (c : cls) (k k' : str → option A) (s : str) :
  (∀ t, same_digits U V t → k t = k' t) → same_digits U V s →
  star U false c k s = star V false c k' s.
Proof.
  intros Hk. induction s as [|x s IH]; intros Hs; simpl.
  - by apply Hk.
  - inversion Hs as [|? ? Hx Hs']; subst.
    rewrite (cls_matches_congr c x Hx), (IH Hs'), (Hk _ Hs). done.
Qed.

Lemma run_congr {A} (r : regex) (k k' : str → option A) (s : str) :
  (∀ t, same_digits U V t → k t = k' t) → same_digits U V s →
  run U false r k s = run V false r k' s.
Proof.
  revert k k' s. induction r as [|c|r1 IH1 r2 IH2|r1 IH1 r2 IH2|r IH|c]; intros k k' s Hk Hs; simpl.
  - by apply Hk.
  - destruct s as [|x s]; [done|]. inversion Hs as [|? ? Hx Hs']; subst.
    rewrite (cls_matches_congr c x Hx), (Hk _ Hs'). done.
  - apply IH1; [|done]. intros t Ht. by apply IH2.
  - by rewrite (IH1 k k' s Hk Hs), (IH2 k k' s Hk Hs).
  - by rewrite (IH k k' s Hk Hs), (Hk _ Hs).
  - by apply star_congr.
Qed.

Lemma re_search_congr (p : pattern) (s : str) :
  ignorecase p = false → same_digits U V s → re_search U p s = re_search V p s.
Proof.
  intros Hp. induction s as [|x s IH]; intros Hs; simpl; unfold re_match; rewrite Hp.
  - by rewrite (run_congr (re p) Some Some [] (λ _ _, eq_refl) Hs).
  - rewrite (run_congr (re p) Some Some _ (λ _ _, eq_refl) Hs).
    inversion Hs; subst. by rewrite IH.
Qed.

Lemma int_digits_congr (st : digits_state) (acc : Z) (s : str) :
  same_digits U V s → int_digits U st acc s = int_digits V st acc s.
Proof.
  revert st acc. induction s as [|x s IH]; intros st acc Hs; simpl; [done|].
  inversion Hs as [|? ? Hx Hs']; subst. rewrite Hx.
  destruct (decimal V x); [by apply IH|].
  destruct (_ && _); [by apply IH|done].
Qed.

Lemma frac_digits_congr (acc : Z) (n : nat) (s : str) :
  same_digits U V s → frac_digits U acc n s = frac_digits V acc n s.
Proof.
  revert acc n. induction s as [|x s IH]; intros acc n Hs; simpl; [done|].
  inversion Hs as [|? ? Hx Hs']; subst. rewrite Hx.
  destruct (decimal V x); [by apply IH|done].
Qed.

Lemma float_digits_congr (st : digits_state) (acc : Z) (s : str) :
  same_digits U V s → float_digits U st acc s = float_digits V st acc s.
Proof.
  revert st acc. induction s as [|x s IH]; intros st acc Hs; simpl; [done|].
  inversion Hs as [|? ? Hx Hs']; subst. rewrite Hx.
  destruct (decimal V x); [by apply IH|].
  destruct (_ && _); [by apply frac_digits_congr|done].
Qed.
End Congruence.

(** ** [extract_int] and [extract_float] *)

Lemma same_digits_num_lstrip (U V : unicode) (s : str) :
  same_digits U V s → same_digits U V (num_lstrip s).
Proof.
  induction 1 as [|c s Hc Hs IH]; simpl; [constructor|].
  destruct (num_isspace c); [done|by constructor].
Qed.

Lemma same_digits_num_strip (U V : unicode) (s : str) :
  same_digits U V s → same_digits U V (num_strip s).
Proof.
  intros H. unfold num_strip, same_digits.
  apply Forall_reverse, same_digits_num_lstrip, Forall_reverse.
  by apply same_digits_num_lstrip.
Qed.

Lemma same_digits_isdecimal (U V : unicode) (s : str) :
  same_digits U V s →
  filter (λ x, isdecimal U x = true) s = filter (λ x, isdecimal V x = true) s.
Proof.
  induction 1 as [|c s Hc _ IH]; [done|].
  assert (isdecimal U c = isdecimal V c) as Hd by (unfold isdecimal; by rewrite Hc).
  rewrite !filter_cons, IH, Hd. by destruct (decide (isdecimal V c = true)).
Qed.

Lemma py_int_congr (U V : unicode) (s : str) :
  same_digits U V s → py_int U s = py_int V s.
Proof.
  intros H%same_digits_num_strip. unfold py_int.
  destruct (num_strip s) as [|c r]; [done|].
  rewrite (same_digits_isdecimal U V (c :: r) H).
  inversion H; subst.
  rewrite (int_digits_congr U V NeedDigit 0 r), (int_digits_congr U V NeedDigit 0 (c :: r)); done.
Qed.

Lemma py_float_congr (U V : unicode) (s : str) :
  same_digits U V s → py_float U s = py_float V s.
Proof.
  intros H%same_digits_num_strip. unfold py_float.
  destruct (num_strip s) as [|c r]; [done|].
  inversion H; subst.
  rewrite (float_digits_congr U V NeedDigit 0 r), (float_digits_congr U V NeedDigit 0 (c :: r)); done.
Qed.

Lemma same_digits_filter (U V : unicode) (P : char → Prop) `{∀ x, Decision (P x)} (s : str) :
  same_digits U V s → same_digits U V (filter P s).
Proof.
  intros Hs. apply Forall_forall. intros x [_ Hx]%list_elem_of_filter.
  by eapply Forall_forall in Hs.
Qed.

Lemma same_digits_group0 (U V : unicode) (p : pattern) (s : str) (m : match_obj) :
  same_digits U V s → re_search V p s = Some m → same_digits U V (group0 m).
Proof.
  intros Hs (Heq & _)%re_search_sound. rewrite Heq in Hs.
  by apply Forall_app in Hs as [_ [? _]%Forall_app].
Qed.

Lemma extract_int_congr (U V : unicode) (s : str) :
  same_digits U V s → extract_int U (Some s) = extract_int V (Some s).
Proof.
  intros Hs. unfold extract_int. destruct s as [|c s]; [done|].
  rewrite (re_search_congr U V _INT_RE _ eq_refl Hs).
  destruct (re_search V _INT_RE (c :: s)) as [m|] eqn:E; [|done].
  apply py_int_congr. unfold remove_char.
  do 2 apply same_digits_filter. by eapply same_digits_group0.
Qed.

Lemma float_num_congr (U V : unicode) (s : str) :
  same_digits U V s → float_num U (Some s) = float_num V (Some s).
Proof.
  intros Hs. unfold float_num. destruct s as [|c s]; [done|].
  by rewrite (re_search_congr U V _FLOAT_RE _ eq_refl Hs).
Qed.

(** A match of [_INT_RE]: an optional minus sign, a digit, then digits and
    white space. *)
Lemma int_re_matches (U : unicode) (g : str) :
  matches U false (re _INT_RE) g →
  ∃ sign d t, g = sign ++ d :: t ∧ (sign = [] ∨ sign = [45])
    ∧ isdecimal U d = true
    ∧ Forall (λ x, isdecimal U x || isspace x = true) t.
Proof.
  unfold _INT_RE, compile. cbn [re matches cls_matches].
  intros (s1 & s2 & -> & Hsign & (s3 & t & -> & (d & -> & Hd) & Ht)).
  exists s1, d, t. repeat split; [|done..].
  destruct Hsign as [->|(x & -> & Hx%N.eqb_eq)]; [by left|]. right. by subst.
Qed.

Lemma re_match_int_no_digit (U : unicode) (s : str) :
  (∀ c, c ∈ s → decimal U c = None) → re_match U _INT_RE s = None.
Proof.
  intros Hs. destruct (re_match U _INT_RE s) as [m|] eqn:E; [|done].
  apply re_match_sound in E as (_ & Heq & Hm).
  apply int_re_matches in Hm as (sign & d & t & Hg & _ & Hd & _).
  unfold isdecimal in Hd. rewrite Hs in Hd; [done|].
  rewrite Heq, Hg. set_solver.
Qed.

Lemma extract_int_no_digit (U : unicode) (s : str) :
  (∀ c, c ∈ s → decimal U c = None) → extract_int U (Some s) = None.
Proof.
  intros Hs. unfold extract_int. destruct s as [|c s]; [done|].
  rewrite re_search_None; [done|].
  intros i. apply re_match_int_no_digit. intros x Hx. apply Hs.
  by apply (subseteq_drop i (c :: s)).
Qed.

Lemma same_digits_ascii (U : unicode) (s : string) :
  Forall (λ c, c < 128) (lit s) → same_digits U ascii_tables (lit s).
Proof.
  intros H. eapply Forall_impl; [done|]. intros c Hc. by apply decimal_ascii.
Qed.

(** C8. [clean_text] is a total function; an absent or empty input gives
    the empty text, and cleaning a cleaned text changes nothing. *)
Theorem clean_text_total_idempotent (U : unicode) :
  clean_text U None = []
  ∧ clean_text U (Some []) = []
  ∧ ∀ x : str, clean_text U (Some (clean_text U (Some x))) = clean_text U (Some x).
Proof. repeat split. apply clean_text_idem. Qed.

(** C9. [extract_int] gives 1234 on [1 234 €] and nothing on
    [no digits here], as on every text without a digit; [extract_float]
    on [12,5 m²] hands the literal [12.5] to [float], which denotes 12.5.
    Neither the euro sign nor the superscript two of the examples is a
    decimal digit. *)
Theorem extract_examples (U : unicode) :
  decimal U EURO = None →
  decimal U SUPER_TWO = None →
  extract_int U (Some (lit "1 234 " ++ [EURO])) = Some 1234%Z
  ∧ extract_int U (Some (lit "no digits here")) = None
  ∧ (∀ s : str, (∀ c, c ∈ s → decimal U c = None) → extract_int U (Some s) = None)
  ∧ extract_int U None = None
  ∧ float_num U (Some (lit "12,5 m" ++ [SUPER_TWO])) = Some (lit "12.5")
  ∧ ∃ d, extract_float U (Some (lit "12,5 m" ++ [SUPER_TWO])) = Some d
         ∧ (dec_value d == 125 # 10)%Q.
Proof.
  intros Heuro Hsq.
  assert (same_digits U ascii_tables (lit "1 234 " ++ [EURO])) as H1.
  { apply Forall_app. split; [apply same_digits_ascii; by repeat constructor|].
    by repeat constructor. }
  assert (same_digits U ascii_tables (lit "12,5 m" ++ [SUPER_TWO])) as H2.
  { apply Forall_app. split; [apply same_digits_ascii; by repeat constructor|].
    by repeat constructor. }
  assert (float_num U (Some (lit "12,5 m" ++ [SUPER_TWO])) = Some (lit "12.5")) as H3.
  { by rewrite (float_num_congr U ascii_tables). }
  split_and!.
  - by rewrite (extract_int_congr U ascii_tables).
  - rewrite (extract_int_congr U ascii_tables); [done|].
    apply same_digits_ascii. by repeat constructor.
  - apply extract_int_no_digit.
  - done.
  - done.
  - exists {| mantissa := 125; scale := 1 |}. split; [|done].
    unfold extract_float. rewrite H3.
    rewrite (py_float_congr U ascii_tables); [done|].
    apply same_digits_ascii. by repeat constructor.
Qed.

Lemma extract_examples_witness :
  decimal ascii_tables EURO = None
  ∧ decimal ascii_tables SUPER_TWO = None
  ∧ extract_int ascii_tables (Some (lit "1 234 " ++ [EURO])) = Some 1234%Z.
Proof.
  split; [done|]. split; [done|].
  exact (proj1 (extract_examples ascii_tables eq_refl eq_refl)).
Defined.

(** ** The queries of [bs4] *)

Lemma find_matches (U : unicode) (n : node) names attrs (el : node) :
  find U n names attrs = Some el → tag_matches U names attrs el = true.
Proof.
  unfold find, find_all. intros H%head_Some_elem_of.
  by apply list_elem_of_filter in H as [? _].
Qed.

(** A tag that [find] returns for a filter on an attribute has that
    attribute. *)
Lemma find_has_attr (U : unicode) (n : node) names attrs (el : node) k f :
  find U n names attrs = Some el → (k, f) ∈ attrs → ∃ v, get el k = Some v.
Proof.
  intros H%find_matches Hin. unfold tag_matches in H.
  destruct el as [name a cs| |]; [|done..].
  apply andb_true_iff in H as [_ H].
  rewrite forallb_forall in H. apply list_elem_of_In in Hin.
  specialize (H _ Hin). unfold attr_matches in H. simpl in H.
  destruct (snd <$> List.find _ a) eqn:E; [|done]. simpl. rewrite E. eauto.
Qed.

(** ** The summary extractor *)

(** One card: the body of the [try] never raises; it gives no summary
    exactly when the card has no link target or an empty one. *)
Lemma parse_card_spec (U : unicode) (card : node) :
  let url := resolve_href (default [] (card_href U card)) in
  ∃ t l ph,
    parse_card U card =
      if url is [] then (Return None, [LOG DEBUG SkippingCard])
      else (Return (Some {| title := t; url := url; location := l;
                            price := card_price_text U card ≫= (λ s, extract_int U (Some s));
                            photos := ph |}), []).
Proof.
  unfold parse_card, card_href, card_price_text.
  destruct (find U card ["a"%string] _) as [el|] eqn:Hfind.
  - destruct (find_has_attr _ _ _ _ _ "href"%string IsPresent Hfind) as [v Hv]; [set_solver|].
    unfold subscript. rewrite Hv. cbn [default from_option id bind ret].
    unfold resolve_href.
    destruct v as [|c v]; [by exists [], None, []|].
    cbn [andb].
    destruct (starts_with (lit "/") (c :: v)).
    + destruct (ORIGIN ++ c :: v) as [|o r] eqn:E; [by apply app_nil in E as [_ ?]|].
      eexists _, _, _. cbn [bind ret]. do 4 f_equal.
      by destruct (find_string U card PRICE_RE) as [[[|? ?] ?]|].
    + eexists _, _, _. cbn [bind ret]. do 4 f_equal.
      by destruct (find_string U card PRICE_RE) as [[[|? ?] ?]|].
  - by exists [], None, [].
Qed.

Lemma card_summary_spec (U : unicode) (card : node) (s : ListingSummary) :
  card_summary U card = Some s →
  url s = resolve_href (default [] (card_href U card))
  ∧ url s ≠ []
  ∧ price s = card_price_text U card ≫= (λ t, extract_int U (Some t)).
Proof.
  unfold card_summary. destruct (parse_card_spec U card) as (t & l & ph & ->).
  destruct (resolve_href _) as [|c u] eqn:E; [done|].
  by intros [= <-].
Qed.

Lemma card_summary_None (U : unicode) (card : node) :
  card_summary U card = None ↔ resolve_href (default [] (card_href U card)) = [].
Proof.
  unfold card_summary. destruct (parse_card_spec U card) as (t & l & ph & ->).
  by destruct (resolve_href _) as [|c u] eqn:E.
Qed.

(** The loop over the cards appends the summary of each card, in order,
    and never raises. *)
Lemma parse_cards_spec (U : unicode) (cards : list node) (listings : list ListingSummary) :
  ∃ w, parse_cards U cards listings = (Return (listings ++ omap (card_summary U) cards), w)
       ∧ Forall is_debug w.
Proof.
  revert listings. induction cards as [|card cards IH]; intros listings.
  - exists []. simpl. by rewrite app_nil_r.
  - cbn [parse_cards].
    assert (∃ w1, try_except (parse_card U card)
                    (λ exc, log DEBUG (CardFailed exc);; ret None)
                  = (Return (card_summary U card), w1) ∧ Forall is_debug w1)
      as (w1 & -> & Hw1).
    { unfold card_summary. destruct (parse_card_spec U card) as (t & l & ph & ->).
      destruct (resolve_href _); simpl; eexists; split; try done; by repeat constructor. }
    cbn [bind].
    change (omap (card_summary U) (card :: cards))
      with (match card_summary U card with
            | Some y => y :: omap (card_summary U) cards
            | None => omap (card_summary U) cards
            end).
    destruct (card_summary U card) as [s|].
    + destruct (IH (listings ++ [s])) as (w & -> & Hw).
      rewrite <- (assoc_L (++)). eexists. split; [done|]. by apply Forall_app.
    + destruct (IH listings) as (w & -> & Hw).
      eexists. split; [done|]. by apply Forall_app.
Qed.

Lemma select_cards_spec (soup : node) (selectors : list selector) :
  (Forall (λ sel, select soup sel = []) selectors
   ∧ select_cards soup selectors = (Return [], []))
  ∨ ∃ front sel back,
      selectors = front ++ sel :: back
      ∧ Forall (λ sel', select soup sel' = []) front
      ∧ select soup sel ≠ []
      ∧ select_cards soup selectors =
          (Return (select soup sel),
           [LOG DEBUG (FoundCards (length (select soup sel)) sel)]).
Proof.
  induction selectors as [|sel rest IH]; [by left|].
  cbn [select_cards]. destruct (select soup sel) as [|c cs] eqn:E.
  - destruct IH as [[Hall ->]|(front & sel' & back & -> & Hfront & Hne & ->)].
    + left. split; [by constructor|done].
    + right. exists (sel :: front), sel', back. repeat split; [by constructor|done].
  - right. exists [], sel, rest. rewrite E. repeat split; [constructor|done].
Qed.

Lemma select_cards_none (soup : node) (selectors : list selector) :
  Forall (λ sel, select soup sel = []) selectors →
  select_cards soup selectors = (Return [], []).
Proof. induction 1 as [|sel rest E _ IH]; [done|]. cbn [select_cards]. by rewrite E. Qed.

Lemma select_cards_first (soup : node) (front : list selector) sel back :
  Forall (λ sel', select soup sel' = []) front →
  select soup sel ≠ [] →
  select_cards soup (front ++ sel :: back) =
    (Return (select soup sel), [LOG DEBUG (FoundCards (length (select soup sel)) sel)]).
Proof.
  intros Hfront Hsel. induction Hfront as [|sel' rest E _ IH].
  - cbn [app select_cards]. by destruct (select soup sel).
  - cbn [app select_cards]. by rewrite E.
Qed.

Lemma parse_search_results_none (U : unicode) (html : page) (soup : node) :
  tree html = Some soup →
  Forall (λ sel, select soup sel = []) card_selectors →
  _parse_search_results U html = (Return [], [LOG WARNING NoCardsFound]).
Proof.
  intros Htree Hnone. unfold _parse_search_results, BeautifulSoup.
  rewrite Htree. cbn [bind ret]. by rewrite (select_cards_none _ _ Hnone).
Qed.

Lemma parse_search_results_first (U : unicode) (html : page) (soup : node)
    (front : list selector) sel back :
  tree html = Some soup →
  card_selectors = front ++ sel :: back →
  Forall (λ sel', select soup sel' = []) front →
  select soup sel ≠ [] →
  ∃ w, _parse_search_results U html = (Return (omap (card_summary U) (select soup sel)), w)
       ∧ Forall is_debug w.
Proof.
  intros Htree Hsels Hfront Hsel. unfold _parse_search_results, BeautifulSoup.
  rewrite Htree, Hsels. cbn [bind ret].
  rewrite (select_cards_first _ _ _ _ Hfront Hsel).
  destruct (parse_cards_spec U (select soup sel) []) as (w & Hw & Hdebug).
  destruct (select soup sel) as [|c cs] eqn:E; [done|].
  cbn [bind ret]. rewrite Hw. cbn [app]. eexists. split; [done|].
  by repeat constructor.
Qed.


(** On a page that [BeautifulSoup] parses, the summary extractor
    returns. *)
Lemma parse_search_results_returns (U : unicode) (html : page) (soup : node) :
  tree html = Some soup →
  ∃ summaries w, _parse_search_results U html = (Return summaries, w).
Proof.
  intros Htree.
  destruct (select_cards_spec soup card_selectors)
    as [[Hnone _]|(front & sel & back & Hsels & Hfront & Hsel & _)].
  - rewrite (parse_search_results_none U html soup Htree Hnone). eauto.
  - destruct (parse_search_results_first U html soup _ _ _ Htree Hsels Hfront Hsel)
      as (w & -> & _). eauto.
Qed.

(** The summaries of a page are those of its cards, in their order. *)
Lemma parse_search_results_page_cards (U : unicode) (html : page) summaries w :
  _parse_search_results U html = (Return summaries, w) →
  ∃ soup cards,
    tree html = Some soup ∧ page_cards soup cards
    ∧ summaries = omap (card_summary U) cards.
Proof.
  destruct (tree html) as [soup|] eqn:Htree.
  - destruct (select_cards_spec soup card_selectors)
      as [[Hnone _]|(front & sel & back & Hsels & Hfront & Hsel & _)].
    + rewrite (parse_search_results_none U html soup Htree Hnone).
      intros [= <- _]. exists soup, []. split; [done|]. split; [by left|done].
    + destruct (parse_search_results_first U html soup _ _ _ Htree Hsels Hfront Hsel)
        as (w' & -> & _).
      intros [= <- _]. exists soup, (select soup sel). split; [done|].
      split; [right; by exists front, sel, back|done].
  - unfold _parse_search_results, BeautifulSoup. by rewrite Htree.
Qed.

(** C6. The selectors for cards are tried in order and the cards are
    exactly the matches of the first selector that has one; when no
    selector has a match the result is the empty list and a warning. *)
Theorem search_results_first_selector (U : unicode) (html : page) (soup : node) :
  tree html = Some soup →
  ((∀ sel, sel ∈ card_selectors → select soup sel = []) →
     _parse_search_results U html = (Return [], [LOG WARNING NoCardsFound]))
  ∧ (∀ front sel back,
       card_selectors = front ++ sel :: back →
       (∀ sel', sel' ∈ front → select soup sel' = []) →
       select soup sel ≠ [] →
       ∃ w, _parse_search_results U html
            = (Return (omap (card_summary U) (select soup sel)), w)
            ∧ LOG WARNING NoCardsFound ∉ w).
Proof.
  intros Htree. split.
  - intros Hnone. apply (parse_search_results_none U html soup Htree).
    by apply Forall_forall.
  - intros front sel back Hsels Hfront%Forall_forall Hsel.
    destruct (parse_search_results_first U html soup _ _ _ Htree Hsels Hfront Hsel)
      as (w & Hw & Hdebug).
    exists w. split; [done|]. intros Hin.
    rewrite Forall_forall in Hdebug. by apply Hdebug in Hin.
Qed.

Lemma search_results_first_selector_witness :
  _parse_search_results ascii_tables blank_page = (Return [], [LOG WARNING NoCardsFound])
  ∧ select results_tree [tag_class "div" "c-pa-list"] = []
  ∧ length (select results_tree [tag_class "div" "ListingCell"]) = 3%nat
  ∧ ∃ w,
      _parse_search_results ascii_tables results_page
        = (Return (omap (card_summary ascii_tables)
                     (select results_tree [tag_class "div" "ListingCell"])), w)
      ∧ (LOG WARNING NoCardsFound ∉ w)
      ∧ (url <$> omap (card_summary ascii_tables)
                   (select results_tree [tag_class "div" "ListingCell"]))
        = [lit "https://www.seloger.com/annonces/1.htm"; lit "annonce-2.htm"].
Proof.
  destruct (search_results_first_selector ascii_tables blank_page
              (document [Element "p" [] [Text (lit "Aucune annonce")]]) eq_refl)
    as [Hblank _].
  destruct (search_results_first_selector ascii_tables results_page results_tree eq_refl)
    as [_ Hcards].
  split.
  { apply Hblank. intros sel Hsel. unfold card_selectors in Hsel.
    repeat (apply elem_of_cons in Hsel as [->|Hsel]; [by vm_compute|]).
    by apply elem_of_nil in Hsel. }
  split; [by vm_compute|]. split; [by vm_compute|].
  destruct (Hcards [[tag_class "div" "c-pa-list"]] [tag_class "div" "ListingCell"]
              [[tag_attr "article" "data-test" "sl-card-result"]]) as (w & Hw & Hno).
  - done.
  - intros sel ->%list_elem_of_singleton. by vm_compute.
  - by vm_compute.
  - exists w. split; [exact Hw|]. split; [exact Hno|]. by vm_compute.
Defined.

(** ** The URL of a summary *)

Lemma is_absolute_origin (href : str) : is_absolute (ORIGIN ++ href) = true.
Proof. by vm_compute. Qed.

Lemma starts_with_slash_relative (href : str) :
  starts_with (lit "/") href = true → is_absolute href = false.
Proof.
  destruct href as [|c href]; [done|].
  change (starts_with (lit "/") (c :: href)) with ((47 =? c) && true).
  rewrite andb_true_r. by intros <-%N.eqb_eq.
Qed.

Lemma is_absolute_resolve (href : str) :
  is_absolute (resolve_href href) = starts_with (lit "/") href || is_absolute href.
Proof.
  unfold resolve_href. destruct (starts_with (lit "/") href) eqn:E; [|done].
  by rewrite is_absolute_origin.
Qed.

Lemma resolve_href_nil (href : str) : resolve_href href = [] ↔ href = [].
Proof.
  unfold resolve_href. split; [|by intros ->].
  destruct (starts_with _ _); [|done]. by intros [_ ?]%app_nil.
Qed.

(** C4, amended. The summaries of a page are those of its cards, in the
    order of the page, and every summary kept has a non-empty URL: a card
    without a link target gives no summary, and every other card of the
    page gives one, whatever its siblings; a target that starts with a
    slash is prefixed with the origin of the site, any other target is kept
    as it is. The URL is absolute when the target starts with a slash or is
    absolute itself. *)
Theorem summary_url_resolved (U : unicode) (html : page) summaries w :
  _parse_search_results U html = (Return summaries, w) →
  ∃ soup cards,
    tree html = Some soup
    ∧ page_cards soup cards
    ∧ summaries = omap (card_summary U) cards
    ∧ (∀ card, card ∈ cards →
         card_href U card = None ∨ card_href U card = Some [] →
         card_summary U card = None)
    ∧ (∀ card href, card ∈ cards →
         card_href U card = Some href → href ≠ [] →
         ∃ s, card_summary U card = Some s ∧ s ∈ summaries
              ∧ url s = if starts_with (lit "/") href then ORIGIN ++ href else href)
    ∧ (∀ s, s ∈ summaries →
         url s ≠ []
         ∧ ∃ card href, card ∈ cards ∧ card_summary U card = Some s
             ∧ card_href U card = Some href
             ∧ url s = (if starts_with (lit "/") href then ORIGIN ++ href else href)
             ∧ is_absolute (url s) = starts_with (lit "/") href || is_absolute href).
Proof.
  intros (soup & cards & Htree & Hcards & ->)%parse_search_results_page_cards.
  exists soup, cards.
  split_and!; [done..| | |].
  - intros card _ Hhref. apply card_summary_None.
    by destruct Hhref as [->| ->].
  - intros card href Hcard Hhref Hne.
    destruct (card_summary U card) as [s|] eqn:Hs.
    + exists s. split; [done|]. split; [apply list_elem_of_omap; eauto|].
      apply card_summary_spec in Hs as (-> & _). by rewrite Hhref.
    + apply card_summary_None in Hs. rewrite Hhref in Hs.
      by apply (resolve_href_nil href) in Hs.
  - intros s (card & Hcard & Hs)%list_elem_of_omap.
    destruct (card_summary_spec U card s Hs) as (Hurl & Hne & _).
    split; [done|]. exists card.
    destruct (card_href U card) as [href|] eqn:Hhref.
    + exists href. repeat split; [done..|]. rewrite Hurl. apply is_absolute_resolve.
    + by rewrite Hurl in Hne.
Qed.

(** On the example page, whose second card has no link, the first and
    the third card still give their summaries. *)
Lemma summary_url_resolved_witness :
  ∃ summaries w cards,
    _parse_search_results ascii_tables results_page = (Return summaries, w)
    ∧ page_cards results_tree cards
    ∧ length cards = 3%nat
    ∧ summaries = omap (card_summary ascii_tables) cards
    ∧ url <$> summaries
      = [lit "https://www.seloger.com/annonces/1.htm"; lit "annonce-2.htm"]
    ∧ ∀ s, s ∈ summaries → url s ≠ [].
Proof.
  destruct (parse_search_results_returns ascii_tables results_page results_tree eq_refl)
    as (summaries & w & Hrun).
  destruct (summary_url_resolved ascii_tables results_page summaries w Hrun)
    as (soup & cards & [= <-] & Hcards & Hs & _ & _ & Hurl).
  exists summaries, w, cards. split; [exact Hrun|]. split; [exact Hcards|].
  assert (cards = select results_tree [tag_class "div" "ListingCell"]) as Hsel.
  { destruct Hcards as [[Hnone _]|(front & sel & back & Hsels & Hfront & Hne & ->)].
    - apply Forall_cons in Hnone as [_ [Hcell _]%Forall_cons]. by vm_compute in Hcell.
    - unfold card_selectors in Hsels.
      destruct front as [|s1 front]; [injection Hsels as <- _; by vm_compute in Hne|].
      injection Hsels as <- Hsels.
      destruct front as [|s2 front]; [by injection Hsels as <- _|].
      injection Hsels as <- Hsels.
      apply Forall_cons in Hfront as [_ [Hcell _]%Forall_cons]. by vm_compute in Hcell. }
  split; [by rewrite Hsel|]. split; [exact Hs|].
  split; [rewrite Hs, Hsel; by vm_compute|].
  intros s Hin. by destruct (Hurl s Hin) as [? _].
Defined.

(** The third card of the example page keeps its relative link target as
    its URL: a retained summary need not have an absolute URL. *)
Lemma relative_href_retained :
  ∃ summaries w s,
    _parse_search_results ascii_tables results_page = (Return summaries, w)
    ∧ s ∈ summaries
    ∧ url s = lit "annonce-2.htm"
    ∧ is_absolute (url s) = false.
Proof.
  eexists _, _, _. split; [by vm_compute|].
  split; [apply list_elem_of_further, list_elem_of_here|]. by vm_compute.
Qed.

(** ** The sign of a price *)


Lemma isdecimal_minus (U : unicode) : isdecimal U 45 = false.
Proof. unfold isdecimal. by rewrite decimal_ascii. Qed.







(** ** The construction date *)

Lemma matches_Word (U : unicode) (w s : str) :
  matches U false (Word w) s ↔ s = w.
Proof.
  revert s. induction w as [|c w IH]; intros s; [done|].
  cbn [Word foldr matches cls_matches]. fold (Word w). split.
  - intros (s1 & s2 & -> & (x & -> & <-%N.eqb_eq) & ->%IH). done.
  - intros ->. exists [c], w. split; [done|]. split; [|by apply IH].
    exists c. by rewrite N.eqb_refl.
Qed.

Lemma matches_Plus_Space (U : unicode) (s : str) :
  matches U false (Plus Space) s → ∃ w ws, s = ws ++ [w] ∧ Forall (λ x, isspace x = true) s.
Proof.
  cbn [Plus matches cls_matches]. intros (s1 & s2 & -> & (x & -> & Hx) & Hs2).
  assert (Forall (λ c, isspace c = true) ([x] ++ s2)) as Hall by by constructor.
  destruct s2 as [|a l _] using rev_ind.
  - by exists x, [].
  - by exists a, (x :: l).
Qed.

(** The shape of a match of [YEAR_RE]: the optional phrase, which ends
    with white space and holds neither a [1] nor a [2], then the year. *)
Lemma year_re_matches (U : unicode) (g : str) :
  matches U false (re YEAR_RE) g →
  ∃ pre y, g = pre ++ y
    ∧ (∀ rest, year_at U (y ++ rest) = Some y)
    ∧ Forall (λ c, (c =? 49) || (c =? 50) = false) pre
    ∧ (pre = [] ∨ ∃ p w, pre = p ++ [w] ∧ isspace w = true).
Proof.
  unfold YEAR_RE, compile. cbn [re]. cbn [matches].
  intros (pre & y & -> & Hpre & (y1 & y2 & -> & Hy1 & Hy2)).
  exists pre, (y1 ++ y2). split; [done|]. split; [|].
  - intros rest. cbn [Rep matches cls_matches] in Hy2.
    destruct Hy2 as (? & ? & -> & (c & -> & Hc) & (? & ? & -> & (d & -> & Hd) & ->)).
    destruct Hy1 as [->%matches_Word| ->%matches_Word].
    + change (lit "19" ++ [c] ++ [d] ++ []) with [49; 57; c; d].
      unfold year_at. cbn [app]. by rewrite Hc, Hd.
    + change (lit "20" ++ [c] ++ [d] ++ []) with [50; 48; c; d].
      unfold year_at. cbn [app]. by rewrite Hc, Hd.
  - destruct Hpre as [->|Hpre]; [by split; [constructor|left]|].
    destruct Hpre as (s1 & s2 & -> & ->%matches_Word & (w1 & s3 & -> & H1 & (s4 & w2 & -> & ->%matches_Word & H2))).
    apply matches_Plus_Space in H1 as (a1 & l1 & E1 & Hw1).
    apply matches_Plus_Space in H2 as (a2 & l2 & E2 & Hw2).
    assert (∀ l, Forall (λ x, isspace x = true) l → Forall (λ c, (c =? 49) || (c =? 50) = false) l) as Hsp.
    { intros l Hl. eapply Forall_impl; [exact Hl|]. intros c Hc. simpl in Hc.
      destruct (c =? 49) eqn:E49; [by apply N.eqb_eq in E49 as ->|].
      destruct (c =? 50) eqn:E50; [by apply N.eqb_eq in E50 as ->|done]. }
    split.
    + repeat apply Forall_app_2; try by apply Hsp.
      * by vm_compute; repeat constructor.
      * by vm_compute; repeat constructor.
    + right. exists (lit "Construction" ++ w1 ++ lit "en" ++ l2), a2.
      split; [rewrite E2; by rewrite <- !(assoc_L (++))|].
      rewrite E2 in Hw2. by apply Forall_app in Hw2 as [_ [? _]%Forall_cons].
Qed.

(** A text without white space is one token for [split]. *)
Lemma split_go_token (cur y : str) :
  Forall (λ c, isspace c = false) y →
  split_go cur y = if reverse cur ++ y is [] then [] else [reverse cur ++ y].
Proof.
  revert cur. induction y as [|c y IH]; intros cur Hy.
  - simpl. rewrite app_nil_r. destruct cur as [|a cur]; [done|].
    destruct (reverse (a :: cur)) eqn:E; [|done].
    apply (f_equal reverse) in E. by rewrite reverse_involutive in E.
  - inversion Hy as [|? ? Hc Hy']; subst. cbn [split_go]. rewrite Hc, (IH _ Hy').
    rewrite reverse_cons, <- (assoc_L (++)). done.
Qed.

(** The last token of a text that ends with white space followed by a
    token. *)
Lemma last_split_go (cur p : str) (w : char) (y : str) :
  isspace w = true → y ≠ [] → Forall (λ c, isspace c = false) y →
  last (split_go cur (p ++ w :: y)) = Some y.
Proof.
  intros Hw Hne Hy. revert cur. induction p as [|c p IH]; intros cur.
  - cbn [app split_go]. rewrite Hw, (split_go_token [] y Hy).
    rewrite reverse_nil. cbn [app]. destruct y as [|a y]; [done|].
    by destruct cur.
  - cbn [app split_go]. destruct (isspace c); [|apply IH].
    destruct cur; [apply IH|].
    specialize (IH []). destruct (split_go [] (p ++ w :: y)); [done|]. done.
Qed.

(** [YEAR_RE] has a match wherever a year-like token stands. *)
Lemma re_match_year_at (U : unicode) (s : str) (y : str) :
  year_at U s = Some y → is_Some (re_match U YEAR_RE s).
Proof.
  unfold year_at. destruct s as [|a [|b [|c [|d rest]]]]; try done.
  destruct (_ && _) eqn:E; [|done]. intros _.
  apply andb_true_iff in E as [[Hab Hc]%andb_true_iff Hd].
  unfold re_match, YEAR_RE, compile. cbn [re ignorecase].
  cbn [run]. match goal with |- is_Some (match match ?x with _ => _ end with _ => _ end) => destruct x end; [by eauto|].
  change (lit "19") with [49; 57]. change (lit "20") with [50; 48].
  cbn [Word foldr Rep run cls_matches]. rewrite Hc, Hd.
  apply orb_true_iff in Hab as [[->%N.eqb_eq ->%N.eqb_eq]%andb_true_iff|[->%N.eqb_eq ->%N.eqb_eq]%andb_true_iff];
    by eauto.
Qed.

Lemma all_years_skip (U : unicode) (pre t : str) :
  Forall (λ c, (c =? 49) || (c =? 50) = false) pre →
  all_years U (pre ++ t) = all_years U t.
Proof.
  induction 1 as [|c pre Hc _ IH]; [done|]. cbn [app all_years]. rewrite IH.
  apply orb_false_iff in Hc as [H1 H2].
  unfold year_at. destruct (pre ++ t) as [|b [|? [|? ?]]]; try done.
  by rewrite H1, H2.
Qed.

Lemma isdecimal_not_space (U : unicode) (c : char) :
  isdecimal U c = true → isspace c = false.
Proof.
  unfold isdecimal. destruct (decimal U c) as [v|] eqn:E; [|done].
  intros _. by eapply decimal_not_space.
Qed.

Lemma year_token_facts (U : unicode) (y : str) :
  (∀ rest, year_at U (y ++ rest) = Some y) →
  y ≠ [] ∧ Forall (λ c, isspace c = false) y.
Proof.
  intros H. specialize (H []). rewrite app_nil_r in H. unfold year_at in H.
  destruct y as [|a [|b [|c [|d rest]]]]; try done.
  destruct (_ && _) eqn:E; [|done]. injection H as <-.
  apply andb_true_iff in E as [[Hab Hc]%andb_true_iff Hd].
  split; [done|].
  apply isdecimal_not_space in Hc, Hd.
  apply orb_true_iff in Hab as [[->%N.eqb_eq ->%N.eqb_eq]%andb_true_iff|[->%N.eqb_eq ->%N.eqb_eq]%andb_true_iff];
    by repeat constructor.
Qed.

(** The block for the construction date never raises and gives the first
    year-like token of the markup. *)
Lemma listing_construction_date_spec (U : unicode) (html : str) :
  listing_construction_date U html = ret (head (all_years U html)).
Proof.
  unfold listing_construction_date.
  assert (∀ s m, re_match U YEAR_RE s = Some m →
            ∃ y, last (split (group0 m)) = Some y ∧ head (all_years U s) = Some y) as Hhit.
  { intros s m E.
    apply re_match_sound in E as (_ & Heq & (pre & y & Hg & Hy & Hpre & Hend)%year_re_matches).
    destruct (year_token_facts U y Hy) as [Hne Hns].
    exists y. split.
    - rewrite Hg. destruct Hend as [->|(p & w & -> & Hw)].
      + cbn [app]. unfold split. rewrite (split_go_token [] y Hns).
        rewrite reverse_nil. cbn [app]. by destruct y.
      + rewrite <- (assoc_L (++)). by apply last_split_go.
    - rewrite Heq, Hg, <- (assoc_L (++)), (all_years_skip U pre _ Hpre).
      specialize (Hy (after m)). destruct (y ++ after m) eqn:E; [by destruct y|].
      cbn [all_years]. by rewrite Hy. }
  induction html as [|x html IH].
  - cbn [re_search]. destruct (re_match U YEAR_RE []) as [m|] eqn:E; [|done].
    by destruct (Hhit _ _ E) as (y & _ & ?).
  - cbn [re_search]. destruct (re_match U YEAR_RE (x :: html)) as [m|] eqn:E.
    + destruct (Hhit _ _ E) as (y & -> & ->). done.
    + assert (year_at U (x :: html) = None) as Hnone.
      { destruct (year_at U (x :: html)) as [y|] eqn:Hy; [|done].
        apply re_match_year_at in Hy as [? ?]. congruence. }
      cbn [all_years]. rewrite Hnone.
      destruct (re_search U YEAR_RE html) as [m|]; exact IH.
Qed.

(** ** The detail extractor *)

Lemma bind_ret_l {A B} (a : A) (f : A → M B) : bind (ret a) f = f a.
Proof. unfold bind, ret. by destruct (f a). Qed.

(** The lookup of a link by its [href] and the read of that attribute
    never raise. *)
Lemma link_block (U : unicode) (n : node) (p : pattern) (cur : option str) :
  (if falsy cur then
     match find U n ["a"%string] [("href"%string, Matches p)] with
     | Some el => href <- subscript el "href";; ret (Some (after_colon href))
     | None => ret cur
     end
   else ret cur)
  = ret (if falsy cur
         then (if page_link U n p is Some t then Some t else cur)
         else cur).
Proof.
  destruct (falsy cur); [|done]. unfold page_link.
  destruct (find U n ["a"%string] _) as [el|] eqn:Hfind; [|done].
  destruct (find_has_attr _ _ _ _ _ "href"%string (Matches p) Hfind) as [v Hv]; [set_solver|].
  unfold subscript. rewrite Hv. by rewrite bind_ret_l.
Qed.

Lemma parse_agency_returns (U : unicode) (agency : node) publisher :
  ∃ result, parse_agency U agency publisher = ret result.
Proof.
  destruct publisher as [[pn pe] pp]. unfold parse_agency.
  rewrite link_block, bind_ret_l. eauto.
Qed.

Lemma parse_agencies_returns (U : unicode) (soup : node) selectors publisher :
  ∃ result, parse_agencies U soup selectors publisher = ret result.
Proof.
  induction selectors as [|sel rest IH]; cbn [parse_agencies]; [by eauto|].
  destruct (select_one soup sel); [apply parse_agency_returns|done].
Qed.

Lemma parse_agencies_none (U : unicode) (soup : node) selectors publisher :
  Forall (λ sel, select_one soup sel = None) selectors →
  parse_agencies U soup selectors publisher = ret publisher.
Proof. induction 1 as [|sel rest E _ IH]; cbn [parse_agencies]; [done|]. by rewrite E. Qed.

Lemma listing_publisher_returns (U : unicode) (soup : node) :
  ∃ result, listing_publisher U soup = ret result.
Proof.
  unfold listing_publisher.
  destruct (parse_agencies_returns U soup agency_selectors (None, None, None))
    as [[[pn pe] pp] ->].
  rewrite bind_ret_l, !link_block, !bind_ret_l. eauto.
Qed.

(** Without agency container the name stays [None]; the phone and the
    e-mail come from the links of the page. *)
Lemma listing_publisher_no_agency (U : unicode) (soup : node) :
  Forall (λ sel, select_one soup sel = None) agency_selectors →
  listing_publisher U soup = ret (None, page_link U soup MAILTO_RE, page_link U soup TEL_RE).
Proof.
  intros Hnone. unfold listing_publisher.
  rewrite (parse_agencies_none _ _ _ _ Hnone), bind_ret_l, !link_block, !bind_ret_l.
  cbn [falsy]. by do 2 destruct (page_link _ _ _).
Qed.

(** The dictionary literal of the two record builders. *)
Lemma record_literal (v1 v2 v3 v4 v5 v6 v7 v8 v9 v10 v11 v12 v13 : val) :
  let r : gmap string val := list_to_map [
    ("title"%string, v1); ("description"%string, v2); ("price"%string, v3);
    ("location"%string, v4); ("photos"%string, v5); ("energy_info"%string, v6);
    ("construction_date"%string, v7); ("publisher_name"%string, v8);
    ("publisher_email"%string, v9); ("publisher_phone"%string, v10);
    ("nearby_transport"%string, v11); ("url"%string, v12); ("scraped_at"%string, v13)
  ] in
  dom r = record_keys
  ∧ r ≠ ∅
  ∧ r !! "title"%string = Some v1 ∧ r !! "description"%string = Some v2
  ∧ r !! "price"%string = Some v3 ∧ r !! "location"%string = Some v4
  ∧ r !! "photos"%string = Some v5 ∧ r !! "energy_info"%string = Some v6
  ∧ r !! "construction_date"%string = Some v7 ∧ r !! "publisher_name"%string = Some v8
  ∧ r !! "publisher_email"%string = Some v9 ∧ r !! "publisher_phone"%string = Some v10
  ∧ r !! "nearby_transport"%string = Some v11 ∧ r !! "url"%string = Some v12
  ∧ r !! "scraped_at"%string = Some v13.
Proof.
  intros r. split; [subst r; unfold record_keys; by rewrite dom_list_to_map_L|].
  split; [|by vm_compute].
  intros E. apply (f_equal (λ m : gmap string val, m !! "title"%string)) in E.
  by vm_compute in E.
Qed.

(** On a page that [BeautifulSoup] parses, the detail extractor returns
    the record of its thirteen blocks, without log record. *)
Lemma parse_listing_page_spec (U : unicode) (now : str) (html : page) (soup : node)
    (summary : ListingSummary) :
  tree html = Some soup →
  ∃ pn pe pp,
    listing_publisher U soup = ret (pn, pe, pp)
    ∧ _parse_listing_page U now html summary =
        ret (list_to_map [
          ("title"%string, VStr (listing_title U soup summary));
          ("description"%string, VStr (listing_description U soup));
          ("price"%string, of_opt_int (listing_price U soup summary));
          ("location"%string, of_opt_str (listing_location U soup summary));
          ("photos"%string, VList (listing_photos U soup summary));
          ("energy_info"%string, of_opt_str (listing_energy_info U soup));
          ("construction_date"%string, of_opt_str (head (all_years U (markup html))));
          ("publisher_name"%string, of_opt_str pn);
          ("publisher_email"%string, of_opt_str pe);
          ("publisher_phone"%string, of_opt_str pp);
          ("nearby_transport"%string, VList (listing_nearby_transport U soup));
          ("url"%string, VStr (url summary));
          ("scraped_at"%string, VStr (now ++ lit "Z"))
        ]).
Proof.
  intros Htree. destruct (listing_publisher_returns U soup) as [[[pn pe] pp] Hpub].
  exists pn, pe, pp. split; [done|].
  unfold _parse_listing_page, BeautifulSoup. rewrite Htree, bind_ret_l.
  by rewrite listing_construction_date_spec, bind_ret_l, Hpub, bind_ret_l.
Qed.

Lemma parse_listing_page_fails (U : unicode) (now : str) (html : page)
    (summary : ListingSummary) :
  tree html = None →
  _parse_listing_page U now html summary = raise ParserError.
Proof. intros Htree. unfold _parse_listing_page, BeautifulSoup. by rewrite Htree. Qed.

(** C3, amended. The construction date of a record is the first
    year-like token of the raw markup, [19] or [20] followed by two digits,
    whether or not the phrase precedes it, and nothing when the markup has
    no such token. *)
Theorem construction_date_first_year (U : unicode) (now : str) (html : page)
    (soup : node) (summary : ListingSummary) :
  tree html = Some soup →
  ∃ r, _parse_listing_page U now html summary = (Return r, [])
       ∧ r !! "construction_date"%string
         = Some (of_opt_str (head (all_years U (markup html)))).
Proof.
  intros Htree.
  destruct (parse_listing_page_spec U now html soup summary Htree) as (pn & pe & pp & _ & ->).
  eexists. split; [done|]. apply record_literal.
Qed.

Lemma construction_date_first_year_witness :
  ∃ r, _parse_listing_page ascii_tables noon detail_page (studio "1.htm") = (Return r, [])
       ∧ r !! "construction_date"%string = Some (VStr (lit "1990")).
Proof.
  destruct (construction_date_first_year ascii_tables noon detail_page detail_tree
              (studio "1.htm") eq_refl) as (r & Hr & Hdate).
  exists r. split; [exact Hr|]. rewrite Hdate. by vm_compute.
Defined.

(** The markup of the example page names 1990 and then 2015: the record
    carries the first year, not the last. *)
Lemma construction_date_not_last :
  ∃ r, _parse_listing_page ascii_tables noon detail_page (studio "1.htm") = (Return r, [])
       ∧ all_years ascii_tables (markup detail_page) = [lit "1990"; lit "2015"]
       ∧ r !! "construction_date"%string = Some (VStr (lit "1990"))
       ∧ r !! "construction_date"%string
         ≠ Some (of_opt_str (last (all_years ascii_tables (markup detail_page)))).
Proof.
  assert (all_years ascii_tables (markup detail_page) = [lit "1990"; lit "2015"]) as Hyears
    by (vm_compute; reflexivity).
  destruct (parse_listing_page_spec ascii_tables noon detail_page detail_tree
              (studio "1.htm") eq_refl) as (pn & pe & pp & _ & Hr).
  eexists. split; [exact Hr|]. split; [exact Hyears|].
  rewrite Hyears.
  match goal with |- ?r !! _ = _ ∧ _ =>
    assert (r !! "construction_date"%string = Some (VStr (lit "1990"))) as Hdate
      by apply record_literal
  end.
  split; [exact Hdate|]. rewrite Hdate. intros H. by vm_compute in H.
Qed.

Lemma find_string_nonempty (U : unicode) (n : node) (text : str) (parent : node) :
  find_string U n PRICE_RE = Some (text, parent) → text ≠ [].
Proof.
  unfold find_string. intros [_ H]%find_some. by intros ->.
Qed.

(** The loop over the selectors of the description stops at the first
    selector that the page has an element for. *)
Lemma first_select_one_first (soup : node) (front back : list selector)
    (sel : selector) (el : node) :
  (∀ sel', sel' ∈ front → select_one soup sel' = None) →
  select_one soup sel = Some el →
  first_select_one soup (front ++ sel :: back) = Some el.
Proof.
  intros Hfront Hsel. induction front as [|s front IH]; cbn [app first_select_one].
  - by rewrite Hsel.
  - rewrite (Hfront s) by left. apply IH. intros sel' Hin. apply Hfront. by right.
Qed.

Lemma first_select_one_none (soup : node) (selectors : list selector) :
  (∀ sel, sel ∈ selectors → select_one soup sel = None) →
  first_select_one soup selectors = None.
Proof.
  induction selectors as [|s selectors IH]; intros Hnone; cbn [first_select_one]; [done|].
  rewrite (Hnone s) by left. apply IH. intros sel Hin. apply Hnone. by right.
Qed.

(** C7, amended. The fields are resolved one by one. Title, price and
    description come from the page when it has them; the title and the
    price are those of the summary when the page has no heading or no price
    text. The description is the cleaned text of the first element with
    the attribute [data-test="sl-price-description"], else of the element
    of the first description selector that the page has an element for,
    else the empty string. On a page without agency container the name of
    the publisher is nothing, and its phone and e-mail are those of the
    first [tel:] and [mailto:] links of the page, nothing when there is no
    such link. *)
Theorem detail_fields_independent (U : unicode) (now : str) (html : page)
    (soup : node) (summary : ListingSummary) :
  tree html = Some soup →
  ∃ r w, _parse_listing_page U now html summary = (Return r, w)
    ∧ (∃ t, r !! "title"%string = Some (VStr t)
        ∧ (find U soup ["h1"%string] [] = None → t = title summary)
        ∧ (∀ el, find U soup ["h1"%string] [] = Some el →
             clean_text U (Some (get_text el)) ≠ [] →
             t = clean_text U (Some (get_text el))))
    ∧ (∃ p, r !! "price"%string = Some (of_opt_int p)
        ∧ (find_string U soup PRICE_RE = None → p = price summary)
        ∧ (∀ text parent, find_string U soup PRICE_RE = Some (text, parent) →
             p = extract_int U (Some text)))
    ∧ (∃ d, r !! "description"%string = Some (VStr d)
        ∧ (∀ el,
             find U soup [] [("data-test"%string, Equals (lit "sl-price-description"))]
               = Some el →
             d = clean_text U (Some (get_text el)))
        ∧ (find U soup [] [("data-test"%string, Equals (lit "sl-price-description"))] = None →
             (∀ front sel back el,
                description_selectors = front ++ sel :: back →
                (∀ sel', sel' ∈ front → select_one soup sel' = None) →
                select_one soup sel = Some el →
                d = clean_text U (Some (get_text el)))
             ∧ ((∀ sel, sel ∈ description_selectors → select_one soup sel = None) →
                  d = [])))
    ∧ ((∀ sel, sel ∈ agency_selectors → select_one soup sel = None) →
         r !! "publisher_name"%string = Some VNone
         ∧ r !! "publisher_phone"%string = Some (of_opt_str (page_link U soup TEL_RE))
         ∧ r !! "publisher_email"%string = Some (of_opt_str (page_link U soup MAILTO_RE))).
Proof.
  intros Htree.
  destruct (parse_listing_page_spec U now html soup summary Htree)
    as (pn & pe & pp & Hpub & ->).
  eexists _, _. split; [done|].
  pose proof (record_literal
      (VStr (listing_title U soup summary)) (VStr (listing_description U soup))
      (of_opt_int (listing_price U soup summary))
      (of_opt_str (listing_location U soup summary))
      (VList (listing_photos U soup summary))
      (of_opt_str (listing_energy_info U soup))
      (of_opt_str (head (all_years U (markup html))))
      (of_opt_str pn) (of_opt_str pe) (of_opt_str pp)
      (VList (listing_nearby_transport U soup))
      (VStr (url summary)) (VStr (now ++ lit "Z"))) as H.
  cbv zeta in H.
  destruct H as (_ & _ & Ht & Hd & Hp & _ & _ & _ & _ & Hpn & Hpe & Hpp & _).
  split_and!.
  - exists (listing_title U soup summary). split; [done|]. unfold listing_title. split.
    + by intros ->.
    + intros el -> Hne. by destruct (clean_text U (Some (get_text el))).
  - exists (listing_price U soup summary). split; [done|]. unfold listing_price. split.
    + by intros ->.
    + intros text parent Hfind. rewrite Hfind.
      apply find_string_nonempty in Hfind. by destruct text.
  - exists (listing_description U soup). split; [done|]. unfold listing_description. split.
    + by intros el ->.
    + intros ->. split.
      * intros front sel back el -> Hfront Hsel.
        by rewrite (first_select_one_first soup front back sel el Hfront Hsel).
      * intros Hnone. by rewrite (first_select_one_none soup _ Hnone).
  - intros Hnone%Forall_forall.
    rewrite (listing_publisher_no_agency U soup Hnone) in Hpub.
    injection Hpub as <- <- <-. done.
Qed.

Lemma detail_fields_independent_witness :
  ∃ r w, _parse_listing_page ascii_tables noon detail_page (studio "1.htm") = (Return r, w)
    ∧ r !! "title"%string = Some (VStr (lit "Studio Lyon 3"))
    ∧ r !! "price"%string = Some (VInt 250000)
    ∧ r !! "description"%string = Some (VStr (lit "Construit en 1990, renove en 2015."))
    ∧ r !! "publisher_name"%string = Some VNone
    ∧ r !! "publisher_phone"%string = Some (VStr (lit "0478563412"))
    ∧ r !! "publisher_email"%string = Some VNone.
Proof.
  destruct (detail_fields_independent ascii_tables noon detail_page detail_tree
              (studio "1.htm") eq_refl)
    as (r & w & Hr & (t & Ht & _ & Htitle) & (p & Hp & _ & Hprice)
          & (d & Hd & _ & Hdesc) & Hpub).
  exists r, w. split; [exact Hr|].
  split.
  { rewrite Ht. do 2 f_equal.
    apply (Htitle (Element "h1" [] [Text (lit "Studio Lyon 3")])); by vm_compute. }
  split.
  { rewrite Hp.
    by rewrite (Hprice (lit "250 000 " ++ [EURO])
                  (Element "span" [] [Text (lit "250 000 " ++ [EURO])]) eq_refl). }
  split.
  { rewrite Hd. do 2 f_equal.
    destruct (Hdesc eq_refl) as [Hfirst _].
    apply (Hfirst [] [tag_class "div" "Description"]
             [[tag_attr "section" "data-test" "sl-description"];
              [tag_class "div" "c-pa-list-details__text"]]
             (Element "div" [("class"%string, lit "Description")]
                [Text (lit "Construit en 1990, renove en 2015.")]));
      [done| |done].
    intros sel' Hin. by apply elem_of_nil in Hin. }
  assert (∀ sel, sel ∈ agency_selectors → select_one detail_tree sel = None) as Hnone.
  { intros sel Hsel. unfold agency_selectors in Hsel.
    repeat (apply elem_of_cons in Hsel as [->|Hsel]; [by vm_compute|]).
    by apply elem_of_nil in Hsel. }
  destruct (Hpub Hnone) as (Hn & Hph & Hem).
  split; [exact Hn|]. split; [exact Hph|exact Hem].
Defined.

(** The example page has no agency container, yet its record has a phone:
    the target of the telephone link of the page. *)
Lemma publisher_phone_without_agency :
  ∃ r, _parse_listing_page ascii_tables noon detail_page (studio "1.htm") = (Return r, [])
    ∧ (∀ sel, sel ∈ agency_selectors → select_one detail_tree sel = None)
    ∧ r !! "publisher_phone"%string = Some (VStr (lit "0478563412")).
Proof.
  destruct (parse_listing_page_spec ascii_tables noon detail_page detail_tree
              (studio "1.htm") eq_refl) as (pn & pe & pp & Hpub & Hr).
  assert (listing_publisher ascii_tables detail_tree = ret (None, None, Some (lit "0478563412")))
    as Hpub' by (vm_compute; reflexivity).
  rewrite Hpub' in Hpub. injection Hpub as <- <- <-.
  eexists. split; [exact Hr|]. split; [|apply record_literal].
  intros sel Hsel. unfold agency_selectors in Hsel.
  repeat (apply elem_of_cons in Hsel as [->|Hsel]; [by vm_compute|]).
  by apply elem_of_nil in Hsel.
Qed.

(** ** The enrichment orchestrator *)

Lemma fetch_url_spec (W : world) (n : nat) (u : str) :
  _fetch_url W n u =
    (match session_get W n u with
     | Some resp => Return resp
     | None => Raise RequestException
     end, [LOG DEBUG (GetUrl u); GET u]).
Proof. unfold _fetch_url. by destruct (session_get W n u). Qed.

(** One task: one request, and either a record with the URL of its summary
    or a warning; never an exception. *)
Lemma worker_spec (U : unicode) (W : world) (i : nat) (s : ListingSummary) :
  ∃ w, worker U W i s = (Return (enrich_one U W (i, s)), w)
    ∧ requests w = [url s]
    ∧ (if enriched W i s
       then ∃ r, enrich_one U W (i, s) = Some r ∧ r ≠ ∅ ∧ dom r = record_keys
                 ∧ r !! "url"%string = Some (VStr (url s))
       else enrich_one U W (i, s) = None
            ∧ ∃ e, LOG WARNING (DeepScrapeFailed (url s) e) ∈ w).
Proof.
  unfold worker, enrich_one, enriched. rewrite fetch_url_spec. cbn [fst snd].
  destruct (session_get W (S i) (url s)) as [html|] eqn:Hget.
  - cbn [bind]. destruct (tree html) as [soup|] eqn:Htree.
    + destruct (parse_listing_page_spec U (utcnow W i) html soup s Htree)
        as (pn & pe & pp & _ & Hparse).
      rewrite Hparse. cbn [bind ret try_except app].
      eexists. split; [done|]. split; [done|].
      eexists. split; [done|].
      pose proof (record_literal
          (VStr (listing_title U soup s)) (VStr (listing_description U soup))
          (of_opt_int (listing_price U soup s))
          (of_opt_str (listing_location U soup s))
          (VList (listing_photos U soup s))
          (of_opt_str (listing_energy_info U soup))
          (of_opt_str (head (all_years U (markup html))))
          (of_opt_str pn) (of_opt_str pe) (of_opt_str pp)
          (VList (listing_nearby_transport U soup))
          (VStr (url s)) (VStr (utcnow W i ++ lit "Z"))) as H.
      cbv zeta in H.
      by destruct H as (? & ? & _ & _ & _ & _ & _ & _ & _ & _ & _ & _ & _ & ? & _).
    + rewrite (parse_listing_page_fails U _ html s Htree).
      cbn [bind raise try_except log emit ret app].
      eexists. split; [done|]. split; [done|]. split; [done|].
      exists ParserError. set_solver.
  - cbn [bind raise try_except log emit ret app].
    eexists. split; [done|]. split; [done|]. split; [done|].
    exists RequestException. set_solver.
Qed.

Lemma future_record_worker (U : unicode) (W : world) (i : nat) (s : ListingSummary) :
  future_record (worker U W i s) = enrich_one U W (i, s).
Proof.
  destruct (worker_spec U W i s) as (w & -> & _ & H). unfold future_record.
  destruct (enriched W i s).
  - destruct H as (r & -> & Hne & _). by rewrite bool_decide_eq_false_2.
  - by destruct H as [-> _].
Qed.

(** The loop over the completed futures keeps the record of each future
    that has one and joins the traces. *)
Lemma collect_spec (fs : list (M (option (gmap string val)))) results :
  Forall (λ f, ∃ r, f.1 = Return r) fs →
  collect fs results = (Return (results ++ omap future_record fs), mjoin (snd <$> fs)).
Proof.
  intros Hfs. revert results. induction Hfs as [|[o w] fs [r Hr] _ IH]; intros results.
  - simpl. by rewrite app_nil_r.
  - simpl in Hr. subst o. cbn [collect bind]. rewrite IH. cbn [omap list_omap future_record fmap list_fmap mjoin list_join snd].
    f_equal. destruct r as [r|]; [|done].
    destruct (bool_decide (r = ∅)); [done|]. by rewrite <- (assoc_L (++)).
Qed.

Lemma omap_lookup_seq {A} (pre l : list A) :
  omap (λ i, (pre ++ l) !! i) (seq (length pre) (length l)) = l.
Proof.
  revert pre. induction l as [|x l IH]; intros pre; [done|].
  cbn [length seq omap list_omap]. rewrite list_lookup_middle by done.
  f_equal. specialize (IH (pre ++ [x])).
  rewrite <- (assoc_L (++)), length_app in IH. cbn [length app] in IH.
  by replace (length pre + 1)%nat with (S (length pre)) in IH by lia.
Qed.

(** Futures taken in an order of completion that names each position once
    are the futures, reordered. *)
Lemma as_completed_Permutation {A} (futures : list A) (completion : list nat) :
  completion ≡ₚ seq 0 (length futures) →
  omap (λ i, futures !! i) completion ≡ₚ futures.
Proof.
  intros ->. pose proof (omap_lookup_seq [] futures) as H.
  cbn [app length] in H. by rewrite H.
Qed.

Lemma requests_app (w1 w2 : list event) : requests (w1 ++ w2) = requests w1 ++ requests w2.
Proof. apply omap_app. Qed.

Lemma workers_spec (U : unicode) (W : world) (summaries : list ListingSummary) (k : nat) :
  let futures := imap (λ i, worker U W (k + i)) summaries in
  Forall (λ f, ∃ r, f.1 = Return r) futures
  ∧ omap future_record futures = omap (enrich_one U W) (imap (λ i s, (k + i, s)%nat) summaries)
  ∧ requests (mjoin (snd <$> futures)) = url <$> summaries.
Proof.
  revert k. induction summaries as [|s summaries IH]; intros k; [done|].
  cbv zeta. rewrite !imap_cons.
  assert (imap ((λ i, worker U W (k + i)) ∘ S) summaries
          = imap (λ i, worker U W (S k + i)) summaries) as ->.
  { apply imap_ext. intros. simpl. f_equal. lia. }
  assert (imap ((λ i s0, (k + i, s0)%nat) ∘ S) summaries
          = imap (λ i s0, (S k + i, s0)%nat) summaries) as ->.
  { apply imap_ext. intros. simpl. f_equal. lia. }
  destruct (IH (S k)) as (IH1 & IH2 & IH3).
  replace (k + 0)%nat with k by lia.
  destruct (worker_spec U W k s) as (w & Hw & Hreq & _).
  split_and!.
  - constructor; [|done]. rewrite Hw. eauto.
  - cbn [omap list_omap]. by rewrite future_record_worker, IH2.
  - assert (∀ (x : list event) l, mjoin (x :: l) = x ++ mjoin l) as Hj by done.
    rewrite fmap_cons, Hj, requests_app, IH3, Hw. cbn [snd]. by rewrite Hreq.
Qed.

Lemma length_omap_enrich_one (U : unicode) (W : world) (tasks : list (nat * ListingSummary)) :
  length (omap (enrich_one U W) tasks)
  = length (filter (λ t, enriched W t.1 t.2 = true) tasks).
Proof.
  induction tasks as [|[i s] tasks IH]; [done|].
  cbn [omap list_omap]. rewrite filter_cons. cbn [fst snd].
  destruct (worker_spec U W i s) as (w & _ & _ & H).
  destruct (enriched W i s).
  - destruct H as (r & -> & _). rewrite decide_True by done. simpl. by rewrite IH.
  - destruct H as [-> _]. by rewrite decide_False.
Qed.

(** C2. Whatever the order of completion, every summary's page is
    requested exactly once; a summary whose fetch or parse fails leaves a
    warning and no record, every other summary leaves its record; the
    result, returned after all tasks, has one record per success. *)
Theorem enrichment_isolates_failures (U : unicode) (W : world)
    (completion : list nat) (summaries : list ListingSummary) :
  completion ≡ₚ seq 0 (length summaries) →
  ∃ results w,
    _deep_scrape_summaries U W completion summaries = (Return results, w)
    ∧ requests w ≡ₚ url <$> summaries
    ∧ results ≡ₚ omap (enrich_one U W) (imap pair summaries)
    ∧ (∀ i s, summaries !! i = Some s →
         if enriched W i s
         then ∃ r, enrich_one U W (i, s) = Some r ∧ r ∈ results
                   ∧ r !! "url"%string = Some (VStr (url s))
         else enrich_one U W (i, s) = None
              ∧ ∃ e, LOG WARNING (DeepScrapeFailed (url s) e) ∈ w)
    ∧ length results
      = length (filter (λ t, enriched W t.1 t.2 = true) (imap pair summaries)).
Proof.
  intros Hperm. unfold _deep_scrape_summaries.
  destruct (workers_spec U W summaries 0) as (Hret & Hrec & Hreq). cbv zeta in *.
  change (imap (λ i, worker U W (0 + i)) summaries) with (imap (worker U W) summaries) in *.
  change (imap (λ i s, ((0 + i)%nat, s)) summaries) with (imap pair summaries) in *.
  set (futures := imap (worker U W) summaries) in *.
  set (selected := omap (λ i, futures !! i) completion).
  assert (selected ≡ₚ futures) as Hsel.
  { apply as_completed_Permutation. unfold futures. by rewrite length_imap. }
  rewrite collect_spec by by rewrite Hsel.
  eexists _, _. split; [done|]. cbn [app].
  assert (omap future_record selected ≡ₚ omap (enrich_one U W) (imap pair summaries)) as Hres.
  { by rewrite Hsel, Hrec. }
  split_and!.
  - rewrite <- Hreq. unfold requests. by rewrite Hsel.
  - done.
  - intros i s Hs. destruct (worker_spec U W i s) as (w & Hw & _ & H).
    destruct (enriched W i s).
    + destruct H as (r & Hr & _ & _ & Hurl). exists r. split; [done|]. split; [|done].
      rewrite Hres. apply list_elem_of_omap. exists (i, s). split; [|done].
      apply list_elem_of_lookup. exists i. by rewrite list_lookup_imap, Hs.
    + destruct H as (Hnone & e & He). split; [done|]. exists e.
      apply list_elem_of_join. exists w. split; [done|].
      rewrite Hsel. apply list_elem_of_fmap. exists (worker U W i s).
      split; [by rewrite Hw|]. apply list_elem_of_lookup. exists i.
      unfold futures. by rewrite list_lookup_imap, Hs.
  - by rewrite Hres, length_omap_enrich_one.
Qed.

Lemma enrichment_isolates_failures_witness :
  [2; 0; 4; 1; 3]%nat ≡ₚ seq 0 (length five)
  ∧ ∃ results w,
      _deep_scrape_summaries ascii_tables third_fails [2; 0; 4; 1; 3]%nat five
        = (Return results, w)
      ∧ length results = 4%nat
      ∧ length (requests w) = 5%nat
      ∧ ∀ r, r ∈ results → r !! "url"%string ≠ Some (VStr (url (studio "3.htm"))).
Proof.
  assert ([2; 0; 4; 1; 3]%nat ≡ₚ seq 0 (length five)) as Hperm.
  { by apply (bool_decide_unpack _). }
  split; [exact Hperm|].
  destruct (enrichment_isolates_failures ascii_tables third_fails _ five Hperm)
    as (results & w & Hrun & Hreq & Hres & _ & Hlen).
  exists results, w. split; [exact Hrun|]. split; [exact Hlen|].
  split; [by rewrite Hreq|].
  intros r Hr. rewrite Hres in Hr.
  apply list_elem_of_omap in Hr as ([i s] & Hin & Hs).
  destruct (worker_spec ascii_tables third_fails i s) as (w' & _ & _ & Hw).
  destruct (enriched third_fails i s) eqn:Hok.
  - destruct Hw as (r' & Hr' & _ & _ & Hurl).
    rewrite Hs in Hr'. injection Hr' as <-. rewrite Hurl.
    unfold five in Hin. cbn [imap] in Hin.
    repeat (apply elem_of_cons in Hin as [[= -> ->]|Hin];
            [first [discriminate Hok | by intros [= H]; vm_compute in H]|]).
    by apply elem_of_nil in Hin.
  - destruct Hw as [Hnone _]. by rewrite Hs in Hnone.
Defined.

(** ** The records of a run *)

Lemma parse_listing_page_keys (U : unicode) (now : str) (html : page)
    (s : ListingSummary) r w :
  _parse_listing_page U now html s = (Return r, w) →
  dom r = record_keys
  ∧ r !! "url"%string = Some (VStr (url s))
  ∧ r !! "scraped_at"%string = Some (VStr (now ++ lit "Z")).
Proof.
  destruct (tree html) as [soup|] eqn:Htree.
  - destruct (parse_listing_page_spec U now html soup s Htree) as (pn & pe & pp & _ & ->).
    intros [= <- _].
    pose proof (record_literal
      (VStr (listing_title U soup s)) (VStr (listing_description U soup))
      (of_opt_int (listing_price U soup s))
      (of_opt_str (listing_location U soup s))
      (VList (listing_photos U soup s))
      (of_opt_str (listing_energy_info U soup))
      (of_opt_str (head (all_years U (markup html))))
      (of_opt_str pn) (of_opt_str pe) (of_opt_str pp)
      (VList (listing_nearby_transport U soup))
      (VStr (url s)) (VStr (now ++ lit "Z"))) as H.
    cbv zeta in H.
    by destruct H as (? & _ & _ & _ & _ & _ & _ & _ & _ & _ & _ & _ & _ & ? & ?).
  - by rewrite (parse_listing_page_fails U now html s Htree).
Qed.

(** The shallow record of a summary. *)
Lemma summary_to_dict_spec (now : str) (s : ListingSummary) :
  let r := _summary_to_dict now s in
  dom r = record_keys
  ∧ r !! "title"%string = Some (VStr (title s))
  ∧ r !! "description"%string = Some (VStr [])
  ∧ r !! "price"%string = Some (of_opt_int (price s))
  ∧ r !! "location"%string = Some (of_opt_str (location s))
  ∧ r !! "photos"%string = Some (VList (photos s))
  ∧ r !! "energy_info"%string = Some VNone
  ∧ r !! "construction_date"%string = Some VNone
  ∧ r !! "publisher_name"%string = Some VNone
  ∧ r !! "publisher_email"%string = Some VNone
  ∧ r !! "publisher_phone"%string = Some VNone
  ∧ r !! "nearby_transport"%string = Some (VList [])
  ∧ r !! "url"%string = Some (VStr (url s))
  ∧ r !! "scraped_at"%string = Some (VStr (now ++ lit "Z")).
Proof.
  pose proof (record_literal
    (VStr (title s)) (VStr []) (of_opt_int (price s)) (of_opt_str (location s))
    (VList (photos s)) VNone VNone VNone VNone VNone (VList [])
    (VStr (url s)) (VStr (now ++ lit "Z"))) as H.
  cbv zeta in *. unfold _summary_to_dict. tauto.
Qed.

(** Whatever the order of completion, a record of the orchestrator is the
    record of one of the tasks. *)
Lemma deep_scrape_records (U : unicode) (W : world) (completion : list nat)
    (summaries : list ListingSummary) :
  ∃ results w,
    _deep_scrape_summaries U W completion summaries = (Return results, w)
    ∧ ∀ r, r ∈ results →
        ∃ i s, summaries !! i = Some s ∧ enrich_one U W (i, s) = Some r.
Proof.
  unfold _deep_scrape_summaries.
  set (futures := imap (worker U W) summaries).
  assert (∀ f, f ∈ omap (λ i, futures !! i) completion →
            ∃ i s, summaries !! i = Some s ∧ f = worker U W i s) as Hsel.
  { intros f (i & _ & Hf)%list_elem_of_omap. unfold futures in Hf.
    rewrite list_lookup_imap in Hf.
    destruct (summaries !! i) as [s|] eqn:Hs; [|done]. injection Hf as <-. eauto. }
  rewrite collect_spec.
  - eexists _, _. split; [done|]. cbn [app].
    intros r (f & Hf & Hr)%list_elem_of_omap.
    destruct (Hsel f Hf) as (i & s & Hs & ->).
    rewrite future_record_worker in Hr. eauto.
  - apply Forall_forall. intros f Hf. destruct (Hsel f Hf) as (i & s & _ & ->).
    destruct (worker_spec U W i s) as (w & -> & _). eauto.
Qed.

Lemma enrich_one_keys (U : unicode) (W : world) (i : nat) (s : ListingSummary) r :
  enrich_one U W (i, s) = Some r → dom r = record_keys.
Proof.
  unfold enrich_one. cbn [fst snd].
  destruct (session_get W (S i) (url s)) as [html|]; [|done].
  destruct (_parse_listing_page U (utcnow W i) html s) as [[r'|] w] eqn:E; [|done].
  intros [= <-]. by apply parse_listing_page_keys in E as [? _].
Qed.


(** Once the page of results is fetched and parsed, a run returns. *)
Lemma scrape_returns (U : unicode) (W : world) (completion : list nat)
    (start_url : str) (deep_scrape : bool) (limit : option Z) (html : page) (soup : node) :
  session_get W 0 start_url = Some html →
  tree html = Some soup →
  ∃ records w, scrape U W completion start_url deep_scrape limit = (Return records, w).
Proof.
  intros Hget Htree. unfold scrape. rewrite fetch_url_spec, Hget.
  cbn [bind log emit].
  destruct (parse_search_results_returns U html soup Htree) as (found & w1 & ->).
  destruct deep_scrape; cbn [negb bind ret log emit];
    set (summaries := match limit with Some n => slice_to n found | None => found end).
  - destruct (deep_scrape_records U W completion summaries) as (results & w2 & -> & _).
    eauto.
  - eauto.
Qed.

(** C10. Every record of a run has exactly the thirteen keys, in shallow
    and in deep mode. In shallow mode the records are those of the
    summaries, in order: the description is empty, there is no transport,
    the fields of the detail page are nothing, the URL is that of the
    summary, and the time stamp is the reading of the clock at the moment
    the record is built. *)
Theorem record_schema (U : unicode) (W : world) (completion : list nat)
    (start_url : str) (deep_scrape : bool) (limit : option Z) records w :
  scrape U W completion start_url deep_scrape limit = (Return records, w) →
  (∀ r, r ∈ records → dom r = record_keys)
  ∧ (deep_scrape = false →
       ∃ summaries,
         records = imap (λ i s, _summary_to_dict (utcnow W i) s) summaries
         ∧ ∀ i s r, summaries !! i = Some s → records !! i = Some r →
             r !! "description"%string = Some (VStr [])
             ∧ r !! "nearby_transport"%string = Some (VList [])
             ∧ r !! "energy_info"%string = Some VNone
             ∧ r !! "construction_date"%string = Some VNone
             ∧ r !! "publisher_name"%string = Some VNone
             ∧ r !! "publisher_email"%string = Some VNone
             ∧ r !! "publisher_phone"%string = Some VNone
             ∧ r !! "url"%string = Some (VStr (url s))
             ∧ r !! "scraped_at"%string = Some (VStr (utcnow W i ++ lit "Z"))).
Proof.
  unfold scrape. rewrite fetch_url_spec.
  destruct (session_get W 0 start_url) as [html|]; [|done].
  cbn [bind log emit]. 
  destruct (_parse_search_results U html) as [[found|e] w1]; [|done].
  destruct deep_scrape; cbn [negb bind ret log emit];
    set (summaries := match limit with Some n => slice_to n found | None => found end).
  - destruct (deep_scrape_records U W completion summaries) as (results & w2 & -> & Hres).
    intros [= <- _]. split; [|done].
    intros r (i & s & _ & Hr)%Hres. by eapply enrich_one_keys.
  - intros [= <- _]. split.
    + intros r (i & Hr)%list_elem_of_lookup. rewrite list_lookup_imap in Hr.
      destruct (summaries !! i) as [s|]; [|done]. injection Hr as <-.
      apply summary_to_dict_spec.
    + intros _. exists summaries. split; [done|].
      intros i s r Hs Hr. rewrite list_lookup_imap, Hs in Hr. injection Hr as <-.
      pose proof (summary_to_dict_spec (utcnow W i) s) as H. cbv zeta in H. tauto.
Qed.

Lemma record_schema_witness :
  ∃ records w,
    scrape ascii_tables small_site [1; 0]%nat
      (lit "https://www.seloger.com/list.htm") true None = (Return records, w)
    ∧ ∀ r, r ∈ records → dom r = record_keys.
Proof.
  destruct (scrape_returns ascii_tables small_site [1; 0]%nat
              (lit "https://www.seloger.com/list.htm") true None
              results_page results_tree eq_refl eq_refl) as (records & w & H).
  exists records, w. split; [exact H|].
  exact (proj1 (record_schema _ _ _ _ _ _ _ _ H)).
Defined.

(** ** The delta engine *)

Lemma index_by_url_spec (items : list (gmap string val)) acc :
  keys_hashable items → index_by_url items acc = ret (index_of items acc).
Proof.
  intros H. revert acc. induction H as [|item items Hitem _ IH]; intros acc; [done|].
  cbn [index_by_url index_of foldl]. unfold url_key in *.
  destruct (truthy (dict_get item "url")); [|apply IH].
  rewrite (Hitem _ eq_refl). apply IH.
Qed.

Lemma index_of_snoc (items : list (gmap string val)) x acc :
  index_of (items ++ [x]) acc =
    if url_key x is Some k then <[k := x]> (index_of items acc) else index_of items acc.
Proof. unfold index_of. by rewrite foldl_app. Qed.

(** A split of a list that ends with [x]. *)
Lemma snoc_split {A} (front : list A) item back items x :
  front ++ item :: back = items ++ [x] →
  (back = [] ∧ front = items ∧ item = x)
  ∨ ∃ back', back = back' ++ [x] ∧ items = front ++ item :: back'.
Proof.
  destruct back as [|y back' _] using rev_ind.
  - intros [-> ->]%(app_inj_tail front items). by left.
  - intros H. right. exists back'.
    change (front ++ item :: back' ++ [y]) with (front ++ (item :: back') ++ [y]) in H.
    rewrite (assoc_L (++)) in H. by apply app_inj_tail in H as [<- ->].
Qed.

Lemma indexed_snoc (items : list (gmap string val)) x (k : val) item :
  indexed (items ++ [x]) k item ↔
    (url_key x = Some k ∧ item = x) ∨ (url_key x ≠ Some k ∧ indexed items k item).
Proof.
  unfold indexed. split.
  - intros (front & back & Heq & Hk & Hb).
    symmetry in Heq.
    apply snoc_split in Heq as [(-> & -> & ->)|(back' & -> & ->)]; [by left|].
    apply Forall_app in Hb as [Hb' [Hx _]%Forall_cons]. right. split; [done|].
    by exists front, back'.
  - intros [[Hk ->]|[Hx (front & back & -> & Hk & Hb)]].
    + exists items, []. by repeat split.
    + exists front, (back ++ [x]). rewrite <- (assoc_L (++)). repeat split; [done|].
      apply Forall_app. split; [done|]. by constructor.
Qed.

(** Last write wins: the index holds, under each key, the last item filed
    under it, and nothing under a key that no item has. *)
Lemma index_of_indexed (items : list (gmap string val)) (k : val) item :
  index_of items ∅ !! k = Some item ↔ indexed items k item.
Proof.
  revert item. induction items as [|x items IH] using rev_ind; intros item.
  - split; [done|]. intros (front & back & E & _). by destruct front.
  - rewrite index_of_snoc, indexed_snoc.
    destruct (url_key x) as [k'|] eqn:Hx.
    + destruct (decide (k' = k)) as [->|Hne].
      * rewrite lookup_insert_eq. split; [intros [= <-]; by left|].
        by intros [[_ ->]|[? _]].
      * rewrite lookup_insert_ne by done. rewrite IH. split; [right; split; [congruence|done]|].
        intros [[? _]|[_ ?]]; [congruence|done].
    + rewrite IH. split; [by right|]. by intros [[? _]|[_ ?]].
Qed.

Lemma index_of_tracked (items : list (gmap string val)) (k : val) :
  is_Some (index_of items ∅ !! k) ↔ tracked items k.
Proof.
  split.
  - intros [item (front & back & -> & Hk & _)%index_of_indexed].
    exists item. split; [set_solver|done].
  - intros (item & Hin & Hk).
    induction items as [|x items IH] using rev_ind; [by apply elem_of_nil in Hin|].
    rewrite index_of_snoc.
    apply elem_of_app in Hin as [Hin|Hin%list_elem_of_singleton].
    + destruct (url_key x) as [k'|]; [|by apply IH].
      destruct (decide (k' = k)) as [->|Hne]; [rewrite lookup_insert_eq; eauto|].
      rewrite lookup_insert_ne by done. by apply IH.
    + subst x. rewrite Hk, lookup_insert_eq. eauto.
Qed.

Lemma index_of_key (items : list (gmap string val)) (k : val) item :
  index_of items ∅ !! k = Some item → dict_get item "url" = k.
Proof.
  intros (front & back & _ & Hk & _)%index_of_indexed. unfold url_key in Hk.
  destruct (truthy _); [by injection Hk|done].
Qed.

(** The comprehension over a set of keys that the index has never
    raises. *)
Lemma mapM_dict_subscript (index : gmap val (gmap string val)) (ks : list val) :
  Forall (λ k, is_Some (index !! k)) ks →
  ∃ rs, mapM (dict_subscript index) ks = ret rs
        ∧ Forall2 (λ k r, index !! k = Some r) ks rs.
Proof.
  induction 1 as [|k ks [r Hr] _ (rs & IH & Hrs)].
  - exists []. by split.
  - exists (r :: rs). cbn [mapM]. unfold dict_subscript at 1.
    rewrite Hr, bind_ret_l, IH, bind_ret_l. split; [done|]. by constructor.
Qed.

Lemma lookup_all_spec (index other : gmap val (gmap string val)) :
  ∃ rs, lookup_all index (dom index ∖ dom other) = ret rs
    ∧ (∀ r, r ∈ rs ↔ ∃ k, index !! k = Some r ∧ other !! k = None)
    ∧ Forall2 (λ k r, index !! k = Some r) (elements (dom index ∖ dom other)) rs.
Proof.
  unfold lookup_all.
  destruct (mapM_dict_subscript index (elements (dom index ∖ dom other))) as (rs & -> & Hrs).
  { apply Forall_forall. intros k Hk%elem_of_elements.
    apply elem_of_difference in Hk as [Hk _]. by apply elem_of_dom. }
  exists rs. split; [done|]. split; [|done]. intros r. split.
  - intros (i & Hi)%list_elem_of_lookup.
    destruct (Forall2_lookup_r _ _ _ _ _ Hrs Hi) as (k & Hk & Hkr).
    exists k. split; [done|].
    apply list_elem_of_lookup_2, elem_of_elements, elem_of_difference in Hk as [_ Hk].
    by apply not_elem_of_dom.
  - intros (k & Hk & Hnone).
    assert (k ∈ elements (dom index ∖ dom other)) as (i & Hi)%list_elem_of_lookup.
    { apply elem_of_elements, elem_of_difference. split; [by apply elem_of_dom|].
      by apply not_elem_of_dom. }
    destruct (Forall2_lookup_l _ _ _ _ _ Hrs Hi) as (r' & Hr' & Hkr).
    rewrite Hk in Hkr. injection Hkr as <-. by eapply list_elem_of_lookup_2.
Qed.

Lemma Forall2_fmap_eq {A B} (f : B → A) (ks : list A) (rs : list B) :
  Forall2 (λ k r, f r = k) ks rs → f <$> rs = ks.
Proof. induction 1 as [|k r ks rs Hk _ IH]; [done|]. cbn. by rewrite Hk, IH. Qed.

Lemma lookup_all_keys (items other rs : list (gmap string val)) :
  Forall2 (λ k r, index_of items ∅ !! k = Some r)
    (elements (dom (index_of items ∅) ∖ dom (index_of other ∅))) rs →
  NoDup ((λ r, dict_get r "url") <$> rs).
Proof.
  intros H.
  rewrite (Forall2_fmap_eq (λ r, dict_get r "url")
             (elements (dom (index_of items ∅) ∖ dom (index_of other ∅))) rs).
  - apply NoDup_elements.
  - eapply Forall2_impl; [exact H|]. intros k r Hr. simpl in *.
    by apply (index_of_key items).
Qed.

Lemma lookup_all_members (items other rs : list (gmap string val)) :
  (∀ r, r ∈ rs ↔ ∃ k, index_of items ∅ !! k = Some r ∧ index_of other ∅ !! k = None) →
  ∀ r, r ∈ rs ↔ ∃ k, indexed items k r ∧ ¬ tracked other k.
Proof.
  intros H r. rewrite H. split.
  - intros (k & Hk%index_of_indexed & Hnone). exists k. split; [done|].
    intros Ht%index_of_tracked. rewrite Hnone in Ht. by destruct Ht.
  - intros (k & Hk%index_of_indexed & Hnone). exists k. split; [done|].
    destruct (index_of other ∅ !! k) eqn:E; [|done].
    destruct Hnone. apply index_of_tracked. eauto.
Qed.

(** C1. On two lists of records whose URLs can be keys, [compute_delta]
    returns; [current] is the current list itself; [new] holds, once each,
    the records filed in the index of the current list under a key that
    the previous list does not have, and [removed] the records filed in the
    index of the previous list under a key that the current list does not
    have. The record filed under a key is the last one of the list with
    that URL. *)
Theorem compute_delta_spec (previous items : list (gmap string val)) :
  keys_hashable previous → keys_hashable items →
  ∃ d w, compute_delta previous items = (Return d, w)
    ∧ current d = items
    ∧ (∀ r, r ∈ new d ↔ ∃ k, indexed items k r ∧ ¬ tracked previous k)
    ∧ (∀ r, r ∈ removed d ↔ ∃ k, indexed previous k r ∧ ¬ tracked items k)
    ∧ NoDup ((λ r, dict_get r "url") <$> new d)
    ∧ NoDup ((λ r, dict_get r "url") <$> removed d).
Proof.
  intros Hprev Hcur. unfold compute_delta.
  rewrite (index_by_url_spec previous ∅ Hprev), bind_ret_l.
  rewrite (index_by_url_spec items ∅ Hcur), bind_ret_l.
  destruct (lookup_all_spec (index_of items ∅) (index_of previous ∅)) as (ns & -> & Hn & Hn2).
  rewrite bind_ret_l.
  destruct (lookup_all_spec (index_of previous ∅) (index_of items ∅)) as (rs & -> & Hr & Hr2).
  rewrite bind_ret_l. cbn [bind log emit ret app].
  eexists _, _. split; [done|]. cbn [new removed current].
  split_and!;
    [done|by apply lookup_all_members|by apply lookup_all_members
    |by eapply lookup_all_keys|by eapply lookup_all_keys].
Qed.

Lemma compute_delta_spec_witness :
  let previous := [listing "a" 1; listing "b" 2] in
  let items := [listing "b" 3; listing "c" 4; listing "c" 5] in
  keys_hashable previous ∧ keys_hashable items
  ∧ ∃ d w, compute_delta previous items = (Return d, w)
      ∧ current d = items
      ∧ listing "c" 5 ∈ new d.
Proof.
  intros previous items.
  assert (keys_hashable previous) as Hprev.
  { repeat constructor; intros k; vm_compute; by intros [= <-]. }
  assert (keys_hashable items) as Hcur.
  { repeat constructor; intros k; vm_compute; by intros [= <-]. }
  split; [exact Hprev|]. split; [exact Hcur|].
  destruct (compute_delta_spec previous items Hprev Hcur) as (d & w & Hd & Hc & Hn & _).
  exists d, w. split; [exact Hd|]. split; [exact Hc|].
  apply Hn. exists (VStr (lit "c")). split.
  - exists [listing "b" 3; listing "c" 4], []. by repeat split.
  - intros (item & Hin & Hk). unfold previous in Hin.
    repeat (apply elem_of_cons in Hin as [->|Hin]; [by vm_compute in Hk|]).
    by apply elem_of_nil in Hin.
Defined.


(** * Further properties *)

(** ** The shape of a cleaned text *)

Lemma squeeze_blank (b : bool) (s : str) :
  Forall (λ c, isspace c = true → c = 32) (squeeze b s).
Proof.
  revert b. induction s as [|c s IH]; intros b; [constructor|]. simpl.
  destruct (isspace c) eqn:Hc.
  - destruct b; [apply IH|]. constructor; [done|apply IH].
  - constructor; [by rewrite Hc|apply IH].
Qed.

Lemma squeeze_true_head (s : str) (c : char) :
  head (squeeze true s) = Some c → isspace c = false.
Proof.
  induction s as [|x s IH]; [done|]. simpl.
  destruct (isspace x) eqn:Hx; [done|]. by intros [= <-].
Qed.

Lemma squeeze_no_run (b : bool) (s l1 : str) (x y : char) (l2 : str) :
  squeeze b s = l1 ++ x :: y :: l2 → isspace x = true → isspace y = false.
Proof.
  revert b l1. induction s as [|c s IH]; intros b l1; [by destruct l1|].
  simpl. destruct (isspace c) eqn:Hc.
  - destruct b; [apply IH|].
    destruct l1 as [|z l1]; [|intros [= _ H]; by apply (IH true l1)].
    intros [= _ H] _. apply (squeeze_true_head s). by rewrite H.
  - destruct l1 as [|z l1]; [|intros [= _ H]; by apply (IH false l1)].
    intros [= <- _]. congruence.
Qed.

(** [rtrim] removes a run of white space at the end, and nothing else. *)
Lemma rtrim_prefix (s : str) :
  ∃ ws, s = rtrim s ++ ws ∧ Forall (λ c, isspace c = true) ws.
Proof.
  induction s as [|c s (ws & Hs & Hws)]; [by exists []|].
  cbn [rtrim]. destruct (rtrim s) as [|y r] eqn:E.
  - destruct (isspace c) eqn:Hc.
    + exists (c :: s). split; [done|]. rewrite Hs. by constructor.
    + exists ws. by rewrite Hs at 1.
  - exists ws. by rewrite Hs at 1.
Qed.

Lemma rtrim_last (s : str) (c : char) : last (rtrim s) = Some c → isspace c = false.
Proof.
  induction s as [|x s IH]; [done|]. cbn [rtrim].
  destruct (rtrim s) as [|y r] eqn:E.
  - destruct (isspace x) eqn:Hx; [done|]. by intros [= <-].
  - rewrite last_cons. destruct (last (y :: r)) eqn:El; [exact IH|].
    by apply last_None in El.
Qed.

Lemma filter_squeeze (b : bool) (s : str) :
  filter (λ c, isspace c = false) (squeeze b s) = filter (λ c, isspace c = false) s.
Proof.
  revert b. induction s as [|c s IH]; intros b; [done|]. simpl.
  destruct (isspace c) eqn:Hc.
  - rewrite (filter_cons_False _ c s) by by rewrite Hc.
    destruct b; [apply IH|]. rewrite filter_cons_False by done. apply IH.
  - rewrite !filter_cons_True by done. by rewrite IH.
Qed.

Lemma filter_rtrim (s : str) :
  filter (λ c, isspace c = false) (rtrim s) = filter (λ c, isspace c = false) s.
Proof.
  destruct (rtrim_prefix s) as (ws & Hs & Hws). rewrite Hs at 2.
  rewrite filter_app.
  replace (filter (λ c, isspace c = false) ws) with (@nil N); [by rewrite app_nil_r|].
  symmetry. clear Hs. induction Hws as [|c ws Hc _ IH]; [done|].
  rewrite filter_cons_False by by rewrite Hc. exact IH.
Qed.

(** X1. A cleaned text neither starts nor ends with white space; its only
    white space is the blank U+0020, and no two blanks follow each
    other. *)
Theorem clean_text_shape (U : unicode) (s : str) :
  let t := clean_text U (Some s) in
  Forall (λ c, isspace c = true → c = 32) t
  ∧ (∀ c, head t = Some c → isspace c = false)
  ∧ (∀ c, last t = Some c → isspace c = false)
  ∧ (∀ l1 x y l2, t = l1 ++ x :: y :: l2 → isspace x = true → isspace y = false).
Proof.
  cbv zeta. rewrite clean_text_squeeze.
  destruct (rtrim_prefix (squeeze true s)) as (ws & Hs & Hws).
  split_and!.
  - pose proof (squeeze_blank true s) as H. rewrite Hs in H.
    by apply Forall_app in H as [? _].
  - intros c Hc. apply (squeeze_true_head s). rewrite Hs.
    by destruct (rtrim (squeeze true s)).
  - apply rtrim_last.
  - intros l1 x y l2 Ht. apply (squeeze_no_run true s l1 x y (l2 ++ ws)).
    rewrite Hs, Ht. by rewrite <- !(assoc_L (++)).
Qed.

Lemma clean_text_filter (U : unicode) (s : str) :
  filter (λ c, isspace c = false) (clean_text U (Some s))
    = filter (λ c, isspace c = false) s.
Proof. by rewrite clean_text_squeeze, filter_rtrim, filter_squeeze. Qed.

Lemma clean_text_nil (U : unicode) (s : str) :
  clean_text U (Some s) = [] ↔ Forall (λ c, isspace c = true) s.
Proof.
  split.
  - intros E. pose proof (clean_text_filter U s) as Hf. rewrite E in Hf.
    apply Forall_forall. intros c Hc.
    destruct (isspace c) eqn:Hs; [done|].
    assert (c ∈ filter (λ c, isspace c = false) s) as Hin by by apply list_elem_of_filter.
    rewrite <- Hf in Hin. by apply elem_of_nil in Hin.
  - intros Hall. rewrite clean_text_squeeze.
    replace (squeeze true s) with (@nil N); [done|].
    symmetry. induction Hall as [|c s' Hc _ IH]; [done|]. simpl. by rewrite Hc.
Qed.

(** X2. Cleaning keeps the characters that are not white space, in their
    order, and gives the empty text exactly on a text of white space. *)
Theorem clean_text_keeps_characters (U : unicode) (s : str) :
  filter (λ c, isspace c = false) (clean_text U (Some s))
    = filter (λ c, isspace c = false) s
  ∧ (clean_text U (Some s) = [] ↔ Forall (λ c, isspace c = true) s).
Proof. split; [apply clean_text_filter|apply clean_text_nil]. Qed.


(** ** Digit runs *)

Lemma take_drop_while (p : char → bool) (s : str) :
  take_while p s ++ drop_while p s = s.
Proof. induction s as [|c s IH]; [done|]. simpl. destruct (p c); [|done]. simpl. by rewrite IH. Qed.

(** With the continuation that always succeeds, a greedy repetition takes
    the longest run of the class. *)
Lemma star_Some_drop_while (U : unicode) (icase : bool) (c : cls) (s : str) :
  star U icase c Some s = Some (drop_while (cls_matches U icase c) s).
Proof.
  induction s as [|x s IH]; [done|]. simpl.
  destruct (cls_matches U icase c x); [by rewrite IH|done].
Qed.

Lemma take_length_app {A} (l1 l2 : list A) :
  take (length (l1 ++ l2) - length l2) (l1 ++ l2) = l1.
Proof.
  rewrite length_app.
  replace (length l1 + length l2 - length l2)%nat with (length l1) by lia.
  by rewrite take_app_length.
Qed.

(** The match of [_INT_RE] at a digit: the digit and the longest run of
    digits and white space after it. *)
Lemma re_match_int_at_digit (U : unicode) (x : char) (s : str) :
  isdecimal U x = true →
  re_match U _INT_RE (x :: s) =
    Some {| before := [];
            group0 := x :: take_while (cls_matches U false (Or Digit Space)) s;
            after := drop_while (cls_matches U false (Or Digit Space)) s |}.
Proof.
  intros Hx. unfold re_match, _INT_RE, compile. cbn [re ignorecase run].
  change (cls_matches U false (Ch 45) x) with (45 =? x).
  change (cls_matches U false Digit x) with (isdecimal U x).
  destruct (45 =? x) eqn:E.
  { apply N.eqb_eq in E as <-. by rewrite isdecimal_minus in Hx. }
  rewrite Hx, star_Some_drop_while. do 2 f_equal.
  pose proof (take_length_app (x :: take_while (cls_matches U false (Or Digit Space)) s)
                (drop_while (cls_matches U false (Or Digit Space)) s)) as H.
  cbn [app] in H. by rewrite take_drop_while in H.
Qed.

Lemma isspace_not_decimal (U : unicode) (c : char) : isspace c = true → decimal U c = None.
Proof.
  intros Hc. destruct (decimal U c) as [v|] eqn:E; [|done].
  apply decimal_not_space in E. congruence.
Qed.

Lemma num_isspace_isspace (c : char) : num_isspace c = true → isspace c = true.
Proof.
  unfold num_isspace. destruct (c <? 127); [|done]. unfold isspace.
  intros [H| ->%N.eqb_eq]%orb_true_iff; [|done]. by rewrite H.
Qed.

Lemma isdecimal_not_num_space (U : unicode) (c : char) :
  isdecimal U c = true → num_isspace c = false.
Proof.
  intros Hc%isdecimal_not_space. destruct (num_isspace c) eqn:E; [|done].
  apply num_isspace_isspace in E. congruence.
Qed.

Lemma num_lstrip_keeps (p : str) (e : char) (r : str) :
  num_isspace e = false → ∃ p', num_lstrip (p ++ e :: r) = p' ++ e :: r.
Proof.
  intros He. induction p as [|c p [p' IH]]; simpl.
  - exists []. by rewrite He.
  - destruct (num_isspace c); [by exists p'|by exists (c :: p)].
Qed.

(** Trimming leaves alone what stands between two characters that are not
    white space. *)
Lemma num_strip_keeps (a : char) (m : str) (e : char) (t : str) :
  num_isspace a = false → num_isspace e = false →
  ∃ t', num_strip (a :: m ++ e :: t) = a :: m ++ e :: t'.
Proof.
  intros Ha He. unfold num_strip. cbn [num_lstrip]. rewrite Ha.
  replace (reverse (a :: m ++ e :: t)) with (reverse t ++ e :: reverse (a :: m)).
  2:{ change (a :: m ++ e :: t) with ((a :: m) ++ e :: t).
      rewrite reverse_app, (reverse_cons t e), <- (assoc_L (++)). done. }
  destruct (num_lstrip_keeps (reverse t) e (reverse (a :: m)) He) as [p' ->].
  exists (reverse p').
  rewrite reverse_app, reverse_cons, reverse_involutive, <- (assoc_L (++)). done.
Qed.

Lemma int_digits_stops (U : unicode) (st : digits_state) (acc : Z) (ds : str) (w : char) (t : str) :
  Forall (λ c, isdecimal U c = true) ds → decimal U w = None → w ≠ 95 →
  int_digits U st acc (ds ++ w :: t) = None.
Proof.
  intros Hds Hw Hu. revert st acc. induction Hds as [|c ds Hc _ IH]; intros st acc; simpl.
  - rewrite Hw. by apply N.eqb_neq in Hu as ->.
  - unfold isdecimal in Hc. destruct (decimal U c); [apply IH|done].
Qed.

(** The search of [_INT_RE] passes over characters that are neither a
    digit nor a minus sign. *)
Lemma re_search_int_skip (U : unicode) (pre s : str) :
  Forall (λ c, isdecimal U c = false ∧ c ≠ 45) pre →
  re_search U _INT_RE (pre ++ s) =
    (λ m, {| before := pre ++ before m; group0 := group0 m; after := after m |})
      <$> re_search U _INT_RE s.
Proof.
  induction 1 as [|c pre [Hd Hm] _ IH].
  - simpl. destruct (re_search U _INT_RE s) as [[b g a]|]; done.
  - cbn [app re_search].
    assert (re_match U _INT_RE (c :: pre ++ s) = None) as ->.
    { unfold re_match, _INT_RE, compile. cbn [re ignorecase run].
      change (cls_matches U false (Ch 45) c) with (45 =? c).
      change (cls_matches U false Digit c) with (isdecimal U c).
      rewrite Hd. destruct (45 =? c) eqn:E; [|done].
      by apply N.eqb_eq in E. }
    rewrite IH. by destruct (re_search U _INT_RE s).
Qed.

(** The match runs over the white space [w], and what [int] gets still
    holds it. *)
Lemma int_match_broken_run (U : unicode) (pre : str) (x : char) (ds : str)
    (w e : char) (rest : str) :
  Forall (λ c, isdecimal U c = false ∧ c ≠ 45) pre →
  isdecimal U x = true → Forall (λ c, isdecimal U c = true) ds →
  isspace w = true → w ≠ 32 → w ≠ NBSP →
  isdecimal U e = true →
  ∃ m, re_search U _INT_RE (pre ++ x :: ds ++ w :: e :: rest) = Some m
    ∧ py_int U (remove_char NBSP (remove_char 32 (group0 m))) = None.
Proof.
  intros Hpre Hx Hds Hw H32 Hnb He.
  rewrite (re_search_int_skip U pre _ Hpre). cbn [re_search].
  rewrite (re_match_int_at_digit U x _ Hx). cbn [fmap option_fmap option_map].
  eexists. split; [done|]. cbn [group0].
  set (ok := cls_matches U false (Or Digit Space)).
  assert (∀ c, isdecimal U c = true → ok c = true) as Hok.
  { intros c Hc. unfold ok. cbn [cls_matches]. by rewrite Hc. }
  assert (take_while ok (ds ++ w :: e :: rest) = ds ++ w :: e :: take_while ok rest) as ->.
  { induction Hds as [|c ds Hc _ IH]; simpl.
    - replace (ok w) with true by (unfold ok; cbn [cls_matches]; by rewrite Hw, orb_true_r).
      by rewrite (Hok e He).
    - by rewrite (Hok c Hc), IH. }
  assert (∀ c, isdecimal U c = true → c ≠ 32 ∧ c ≠ NBSP) as Hkeep.
  { intros c Hc%isdecimal_not_space. split; by intros ->. }
  unfold remove_char.
  assert (∀ t, filter (λ c, c ≠ NBSP) (filter (λ c, c ≠ 32) (x :: ds ++ w :: e :: t))
            = x :: ds ++ w :: e :: filter (λ c, c ≠ NBSP) (filter (λ c, c ≠ 32) t)) as ->.
  { intros t. destruct (Hkeep x Hx), (Hkeep e He).
    rewrite (filter_cons_True (λ c, c ≠ 32)), filter_app, (filter_cons_True (λ c, c ≠ 32)),
      (filter_cons_True (λ c, c ≠ 32)) by done.
    rewrite (filter_cons_True (λ c, c ≠ NBSP)), filter_app, (filter_cons_True (λ c, c ≠ NBSP)),
      (filter_cons_True (λ c, c ≠ NBSP)) by done.
    do 2 f_equal.
    induction Hds as [|c ds Hc _ IH]; [done|]. destruct (Hkeep c Hc).
    rewrite !filter_cons_True by done. by rewrite IH. }
  unfold py_int.
  set (tail := filter (λ c, c ≠ NBSP) (filter (λ c, c ≠ 32) (take_while ok rest))).
  replace (x :: ds ++ w :: e :: tail) with (x :: (ds ++ [w]) ++ e :: tail)
    by by rewrite <- (assoc_L (++)).
  destruct (num_strip_keeps x (ds ++ [w]) e tail) as [t' ->];
    [by apply (isdecimal_not_num_space U)..|].
  destruct (_ <? _)%nat; [done|].
  destruct (x =? 45) eqn:E45.
  { apply N.eqb_eq in E45 as ->. by rewrite isdecimal_minus in Hx. }
  destruct (x =? 43) eqn:E43.
  { apply N.eqb_eq in E43 as ->. unfold isdecimal in Hx. by rewrite decimal_ascii in Hx. }
  rewrite <- (assoc_L (++)). cbn [app].
  apply (int_digits_stops U NeedDigit 0 (x :: ds) w (e :: t')).
  - by constructor.
  - by apply isspace_not_decimal.
  - by intros ->.
Qed.

(** X3. A digit run that is broken by a white space other than the blank
    U+0020 and the no-break space U+00A0, such as the narrow no-break space
    of French prices, gives no integer: [int] rejects what is left of the
    match. *)
Theorem extract_int_other_space (U : unicode) (pre : str) (x : char) (ds : str)
    (w e : char) (rest : str) :
  Forall (λ c, isdecimal U c = false ∧ c ≠ 45) pre →
  isdecimal U x = true → Forall (λ c, isdecimal U c = true) ds →
  isspace w = true → w ≠ 32 → w ≠ NBSP →
  isdecimal U e = true →
  extract_int U (Some (pre ++ x :: ds ++ w :: e :: rest)) = None.
Proof.
  intros Hpre Hx Hds Hw H32 Hnb He.
  destruct (int_match_broken_run U pre x ds w e rest) as (m & Hm & Hint); [done..|].
  unfold extract_int. rewrite Hm, Hint.
  by destruct (pre ++ x :: ds ++ w :: e :: rest).
Qed.

Lemma extract_int_other_space_witness :
  extract_int ascii_tables
    (Some (lit "Prix : 1" ++ [0x202F] ++ lit "234 " ++ [EURO])) = None.
Proof.
  apply (extract_int_other_space ascii_tables (lit "Prix : ") 49 [] 0x202F 50
           (lit "34 " ++ [EURO]));
    first [ by vm_compute
          | by constructor
          | repeat constructor; by vm_compute ].
Defined.

(** ** Photos *)

(** The loop over the images appends sources of the site's domain that the
    list does not have yet. *)
Lemma add_photos_spec (photos : list str) (imgs : list node) :
  ∃ extra,
    add_photos photos imgs = photos ++ extra
    ∧ (NoDup photos → NoDup (photos ++ extra))
    ∧ Forall (λ p, contains DOMAIN p = true
                   ∧ ∃ img, img ∈ imgs ∧ or_str (get img "data-src") (get img "src") = Some p)
        extra.
Proof.
  revert photos. induction imgs as [|img imgs IH]; intros photos.
  - exists []. rewrite app_nil_r. by repeat split.
  - cbn [add_photos].
    assert (∃ extra, add_photos photos imgs = photos ++ extra
              ∧ (NoDup photos → NoDup (photos ++ extra))
              ∧ Forall (λ p, contains DOMAIN p = true
                   ∧ ∃ img0, img0 ∈ img :: imgs
                       ∧ or_str (get img0 "data-src") (get img0 "src") = Some p) extra) as Hskip.
    { destruct (IH photos) as (extra & -> & Hnd & Hall). exists extra.
      repeat split; [done|]. eapply Forall_impl; [exact Hall|].
      intros p (? & img0 & ? & ?). split; [done|]. exists img0. split; [by right|done]. }
    destruct (or_str _ _) as [[|c src]|] eqn:Hsrc; [done| |done].
    destruct (contains DOMAIN (c :: src)) eqn:Hdom; [|done].
    destruct (bool_decide (c :: src ∈ photos)) eqn:Hin; [done|]. cbn [andb negb].
    apply bool_decide_eq_false in Hin.
    destruct (IH (photos ++ [c :: src])) as (extra & -> & Hnd & Hall).
    exists ((c :: src) :: extra).
    replace (photos ++ (c :: src) :: extra) with ((photos ++ [c :: src]) ++ extra)
      by by rewrite <- (assoc_L (++)).
    split; [done|]. split.
    + intros Hp. apply Hnd.
      apply NoDup_app. split; [done|]. split; [|apply NoDup_singleton].
      intros p Hp1 ->%list_elem_of_singleton. done.
    + constructor.
      * split; [done|]. exists img. split; [by left|done].
      * eapply Forall_impl; [exact Hall|].
        intros p (? & img0 & ? & ?). split; [done|]. exists img0. split; [by right|done].
Qed.

Lemma parse_card_photos (U : unicode) (card : node) (s : ListingSummary) :
  card_summary U card = Some s →
  photos s = add_photos [] (find_all U card ["img"%string] []).
Proof.
  unfold card_summary, parse_card.
  destruct (find U card ["a"%string] _) as [el|] eqn:Hfind.
  - destruct (find_has_attr _ _ _ _ _ "href"%string IsPresent Hfind) as [v Hv]; [set_solver|].
    unfold subscript. rewrite Hv, bind_ret_l.
    destruct v as [|c v]; [done|]. cbn [andb].
    destruct (starts_with (lit "/") (c :: v)).
    + destruct (ORIGIN ++ c :: v) as [|o r] eqn:E; [by apply app_nil in E as [_ ?]|].
      by intros [= <-].
    + by intros [= <-].
  - by rewrite bind_ret_l.
Qed.

(** The cards of a page whose first selector has no match and whose
    second selector has one. *)
Lemma page_cards_second (soup : node) (cards : list node) :
  page_cards soup cards →
  select soup [tag_class "div" "c-pa-list"] = [] →
  select soup [tag_class "div" "ListingCell"] ≠ [] →
  cards = select soup [tag_class "div" "ListingCell"].
Proof.
  intros Hcards Hfirst Hsecond.
  destruct Hcards as [[Hnone _]|(front & sel & back & Hsels & Hfront & Hne & ->)].
  - by apply Forall_cons in Hnone as [_ [Hcell _]%Forall_cons].
  - unfold card_selectors in Hsels.
    destruct front as [|s1 front]; [by injection Hsels as <- _|].
    injection Hsels as <- Hsels.
    destruct front as [|s2 front]; [by injection Hsels as <- _|].
    injection Hsels as <- Hsels.
    by apply Forall_cons in Hfront as [_ [Hcell _]%Forall_cons].
Qed.

(** X4. The summaries of a page are those of its cards, and the photos of
    the summary of a card are sources of images of that card that contain
    the domain of the site, each listed once. *)
Theorem summary_photos_distinct (U : unicode) (html : page) summaries w :
  _parse_search_results U html = (Return summaries, w) →
  ∃ soup cards,
    tree html = Some soup
    ∧ page_cards soup cards
    ∧ summaries = omap (card_summary U) cards
    ∧ ∀ card s, card ∈ cards → card_summary U card = Some s →
        NoDup (photos s)
        ∧ ∀ p, p ∈ photos s →
            p ≠ [] ∧ contains DOMAIN p = true
            ∧ ∃ img, img ∈ find_all U card ["img"%string] []
                ∧ or_str (get img "data-src") (get img "src") = Some p.
Proof.
  intros (soup & cards & Htree & Hcards & ->)%parse_search_results_page_cards.
  exists soup, cards. split_and!; [done..|].
  intros card s _ Hs.
  rewrite (parse_card_photos U card s Hs).
  destruct (add_photos_spec [] (find_all U card ["img"%string] [])) as (extra & -> & Hnd & Hall).
  cbn [app]. split; [apply Hnd; constructor|].
  intros p Hp. rewrite Forall_forall in Hall.
  destruct (Hall p Hp) as (Hdom & img & Himg & Hsrc).
  split; [by intros ->|]. split; [done|]. by exists img.
Qed.

(** The card of the example gallery has four images; its summary lists
    the two sources of the site, once each. *)
Lemma summary_photos_distinct_witness :
  ∃ summaries w,
    _parse_search_results ascii_tables gallery_page = (Return summaries, w)
    ∧ photos <$> summaries
      = [[lit "https://v.seloger.com/a.jpg"; lit "https://v.seloger.com/b.jpg"]]
    ∧ ∀ s, s ∈ summaries → NoDup (photos s).
Proof.
  destruct (parse_search_results_returns ascii_tables gallery_page (document [gallery_card])
              eq_refl) as (summaries & w & Hrun).
  destruct (summary_photos_distinct ascii_tables gallery_page summaries w Hrun)
    as (soup & cards & [= <-] & Hcards & Hs & Hphotos).
  exists summaries, w. split; [exact Hrun|].
  assert (cards = [gallery_card]) as ->.
  { by rewrite (page_cards_second _ _ Hcards) by by vm_compute. }
  split; [rewrite Hs; by vm_compute|].
  intros s Hin. rewrite Hs in Hin.
  apply list_elem_of_omap in Hin as (card & Hcard & Hsum).
  by destruct (Hphotos card s Hcard Hsum) as [? _].
Defined.

(** X5. The photos of a detail record start with the photos of the
    summary, in their order; what follows are sources of images of the page
    that contain the domain of the site, and the list has no duplicate when
    the photos of the summary have none. *)
Theorem detail_photos_extend (U : unicode) (now : str) (html : page)
    (summary : ListingSummary) r w :
  _parse_listing_page U now html summary = (Return r, w) →
  ∃ extra,
    r !! "photos"%string = Some (VList (photos summary ++ extra))
    ∧ Forall (λ p, contains DOMAIN p = true) extra
    ∧ (NoDup (photos summary) → NoDup (photos summary ++ extra)).
Proof.
  destruct (tree html) as [soup|] eqn:Htree.
  - destruct (parse_listing_page_spec U now html soup summary Htree)
      as (pn & pe & pp & _ & ->).
    intros [= <- _]. unfold listing_photos.
    destruct (add_photos_spec (photos summary) (find_all U soup ["img"%string] []))
      as (extra & -> & Hnd & Hall).
    exists extra. split; [apply record_literal|]. split; [|done].
    eapply Forall_impl; [exact Hall|]. by intros p [? _].
  - by rewrite (parse_listing_page_fails U now html summary Htree).
Qed.

Lemma detail_photos_extend_witness :
  ∃ r w,
    _parse_listing_page ascii_tables noon agency_page loft = (Return r, w)
    ∧ r !! "photos"%string
      = Some (VList [lit "https://v.seloger.com/c.jpg"; lit "https://v.seloger.com/a.jpg";
                     lit "https://v.seloger.com/b.jpg"])
    ∧ ∃ extra,
        r !! "photos"%string = Some (VList (photos loft ++ extra))
        ∧ Forall (λ p, contains DOMAIN p = true) extra
        ∧ NoDup (photos loft ++ extra).
Proof.
  destruct (parse_listing_page_spec ascii_tables noon agency_page agency_tree
              loft eq_refl) as (pn & pe & pp & _ & H).
  destruct (detail_photos_extend ascii_tables noon agency_page loft _ _ H)
    as (extra & Hp & Hdom & Hnd).
  eexists _, _. split; [exact H|]. split; [apply record_literal|].
  exists extra. split; [exact Hp|]. split; [exact Hdom|].
  apply Hnd. by apply (bool_decide_unpack _).
Defined.

(** ** Transport, publisher and price of a detail record *)

(** The loop over the pieces appends the cleaned pieces that are not empty
    and name the metro or a bus. *)
Lemma add_transport_spec (U : unicode) (nearby pieces : list str) :
  ∃ kept,
    add_transport U nearby pieces = nearby ++ kept
    ∧ Forall (λ p, p ≠ []
                   ∧ (contains (lit "m" ++ [E_ACUTE] ++ lit "tro") (lower U p)
                      || contains (lit "bus") (lower U p)) = true
                   ∧ ∃ piece, piece ∈ pieces ∧ p = clean_text U (Some piece)) kept.
Proof.
  revert nearby. induction pieces as [|piece pieces IH]; intros nearby.
  - exists []. by rewrite app_nil_r.
  - cbn [add_transport].
    assert (∀ near, ∃ kept, add_transport U near pieces = near ++ kept
              ∧ Forall (λ p, p ≠ []
                   ∧ (contains (lit "m" ++ [E_ACUTE] ++ lit "tro") (lower U p)
                      || contains (lit "bus") (lower U p)) = true
                   ∧ ∃ piece0, piece0 ∈ piece :: pieces ∧ p = clean_text U (Some piece0))
                  kept) as Hrest.
    { intros near. destruct (IH near) as (kept & -> & Hall). exists kept.
      split; [done|]. eapply Forall_impl; [exact Hall|].
      intros p (? & ? & piece0 & ? & ?). split_and!; [done..|].
      exists piece0. split; [by right|done]. }
    destruct (clean_text U (Some piece)) as [|c p] eqn:Hp; [apply Hrest|].
    cbn [andb].
    destruct (contains _ (lower U (c :: p)) || contains _ (lower U (c :: p))) eqn:Hm;
      [|apply Hrest].
    destruct (Hrest (nearby ++ [c :: p])) as (kept & -> & Hall).
    exists ((c :: p) :: kept). split; [by rewrite <- (assoc_L (++))|].
    constructor; [|done]. split_and!; [done..|].
    exists piece. split; [by left|done].
Qed.

(** X6. Every entry of [nearby_transport] is a cleaned, non-empty piece of
    text that names the metro or a bus; without a string on transport in the
    page the list is empty. *)
Theorem nearby_transport_entries (U : unicode) (now : str) (html : page)
    (summary : ListingSummary) r w :
  _parse_listing_page U now html summary = (Return r, w) →
  ∃ entries soup,
    tree html = Some soup
    ∧ r !! "nearby_transport"%string = Some (VList entries)
    ∧ (find_string U soup TRANSPORT_RE = None → entries = [])
    ∧ ∀ p, p ∈ entries →
        p ≠ [] ∧ clean_text U (Some p) = p
        ∧ (contains (lit "m" ++ [E_ACUTE] ++ lit "tro") (lower U p)
           || contains (lit "bus") (lower U p)) = true.
Proof.
  destruct (tree html) as [soup|] eqn:Htree.
  - destruct (parse_listing_page_spec U now html soup summary Htree)
      as (pn & pe & pp & _ & ->).
    intros [= <- _]. exists (listing_nearby_transport U soup), soup.
    split; [done|]. split; [apply record_literal|]. unfold listing_nearby_transport.
    split; [by intros ->|].
    destruct (find_string U soup TRANSPORT_RE) as [[[|c t] parent]|];
      [by intros p ?%elem_of_nil| |by intros p ?%elem_of_nil].
    destruct (add_transport_spec U []
                (split_on U (Or (Ch BULLET) (Ch 10)) [] (get_text_stripped (lit " ") parent)))
      as (kept & -> & Hall).
    cbn [app]. intros p Hp. rewrite Forall_forall in Hall.
    destruct (Hall p Hp) as (Hne & Hm & piece & _ & ->).
    split; [done|]. split; [apply clean_text_idem|done].
  - by rewrite (parse_listing_page_fails U now html summary Htree).
Qed.

Lemma nearby_transport_entries_witness :
  ∃ r, _parse_listing_page ascii_tables noon agency_page (studio "1.htm") = (Return r, [])
    ∧ r !! "nearby_transport"%string
      = Some (VList [lit "Transports : M" ++ [E_ACUTE] ++ lit "tro B"; lit "Bus C3"]).
Proof.
  destruct (parse_listing_page_spec ascii_tables noon agency_page agency_tree
              (studio "1.htm") eq_refl) as (pn & pe & pp & _ & H).
  destruct (nearby_transport_entries ascii_tables noon agency_page (studio "1.htm") _ _ H)
    as (entries & soup & [= <-] & Hr & _).
  eexists. split; [exact H|].
  etransitivity; [apply record_literal|]. by vm_compute.
Defined.

(** A string that [PHONE_RE] finds a match in has a digit. *)
Lemma phone_text_digit (U : unicode) (t : str) :
  re_test U PHONE_RE t = true → ∃ c, c ∈ t ∧ isdecimal U c = true.
Proof.
  unfold re_test. destruct (re_search U PHONE_RE t) as [m|] eqn:E; [|done].
  intros _. apply re_search_sound in E as (Ht & Hm & _).
  destruct Hm as (s1 & s2 & Hg & _ & (s3 & s4 & -> & (x & -> & Hx) & _)).
  exists x. split; [|done]. rewrite Ht, Hg. set_solver.
Qed.

Lemma find_string_phone (U : unicode) (n : node) (t : str) (parent : node) :
  find_string U n PHONE_RE = Some (t, parent) → clean_text U (Some t) ≠ [].
Proof.
  unfold find_string. intros [_ H]%find_some.
  destruct (phone_text_digit U t H) as (c & Hc & Hd).
  intros Hall%clean_text_nil. rewrite Forall_forall in Hall.
  apply isdecimal_not_space in Hd. specialize (Hall c Hc). congruence.
Qed.

(** The block of the agency container, entered with nothing known. *)
Lemma parse_agency_fresh (U : unicode) (agency : node) :
  parse_agency U agency (None, None, None) =
    ret ((λ el, clean_text U (Some (get_text el))) <$> find U agency ["h2"; "h3"]%string [],
         page_link U agency MAILTO_RE,
         (λ tp : str * node, clean_text U (Some tp.1)) <$> find_string U agency PHONE_RE).
Proof.
  pose proof (link_block U agency MAILTO_RE None) as Hl. cbn [falsy] in Hl.
  unfold parse_agency. cbn [falsy]. rewrite Hl, bind_ret_l.
  assert (∀ parent, find_string U agency PHONE_RE ≠ Some ([], parent)) as Hne.
  { intros parent E. unfold find_string in E. by apply find_some in E as [_ E]. }
  destruct (page_link U agency MAILTO_RE), (find U agency ["h2"; "h3"]%string []),
    (find_string U agency PHONE_RE) as [[[|c t] parent]|]; try done; by destruct (Hne parent).
Qed.

Lemma parse_agencies_first (U : unicode) (soup : node) front sel back agency publisher :
  Forall (λ sel', select_one soup sel' = None) front →
  select_one soup sel = Some agency →
  parse_agencies U soup (front ++ sel :: back) publisher = parse_agency U agency publisher.
Proof.
  intros Hfront Hsel. induction Hfront as [|s front Hs _ IH]; cbn [app parse_agencies].
  - by rewrite Hsel.
  - by rewrite Hs.
Qed.

(** X7. Only the first agency container of the page is read. The name is
    the cleaned text of its first [h2] or [h3]; the phone is the cleaned
    first string of the container that looks like a phone number and the
    e-mail the target of its first [mailto:] link, and only when the
    container has none of them is the first such link of the whole page
    used. *)
Theorem agency_container_first (U : unicode) (now : str) (html : page) (soup : node)
    (summary : ListingSummary) (front : list selector) sel back (agency : node) :
  tree html = Some soup →
  agency_selectors = front ++ sel :: back →
  (∀ sel', sel' ∈ front → select_one soup sel' = None) →
  select_one soup sel = Some agency →
  ∃ r, _parse_listing_page U now html summary = (Return r, [])
    ∧ r !! "publisher_name"%string
      = Some (of_opt_str ((λ el, clean_text U (Some (get_text el)))
                            <$> find U agency ["h2"; "h3"]%string []))
    ∧ (∀ t parent, find_string U agency PHONE_RE = Some (t, parent) →
         r !! "publisher_phone"%string = Some (VStr (clean_text U (Some t))))
    ∧ (find_string U agency PHONE_RE = None →
         r !! "publisher_phone"%string = Some (of_opt_str (page_link U soup TEL_RE)))
    ∧ (∀ a, page_link U agency MAILTO_RE = Some a → a ≠ [] →
         r !! "publisher_email"%string = Some (VStr a))
    ∧ (page_link U agency MAILTO_RE = None →
         r !! "publisher_email"%string = Some (of_opt_str (page_link U soup MAILTO_RE))).
Proof.
  intros Htree Hsels Hfront%Forall_forall Hsel.
  destruct (parse_listing_page_spec U now html soup summary Htree)
    as (pn & pe & pp & Hpub & ->).
  eexists. split; [done|].
  pose proof (record_literal
      (VStr (listing_title U soup summary)) (VStr (listing_description U soup))
      (of_opt_int (listing_price U soup summary))
      (of_opt_str (listing_location U soup summary))
      (VList (listing_photos U soup summary))
      (of_opt_str (listing_energy_info U soup))
      (of_opt_str (head (all_years U (markup html))))
      (of_opt_str pn) (of_opt_str pe) (of_opt_str pp)
      (VList (listing_nearby_transport U soup))
      (VStr (url summary)) (VStr (now ++ lit "Z"))) as H.
  cbv zeta in H.
  destruct H as (_ & _ & _ & _ & _ & _ & _ & _ & _ & -> & -> & -> & _).
  unfold listing_publisher in Hpub.
  rewrite Hsels, (parse_agencies_first U soup front sel back agency _ Hfront Hsel),
    parse_agency_fresh, bind_ret_l, !link_block, !bind_ret_l in Hpub.
  injection Hpub as <- <- <-.
  split_and!.
  - done.
  - intros t parent Hfind. pose proof (find_string_phone U agency t parent Hfind) as Hne.
    rewrite Hfind. cbn [fmap option_fmap option_map fst].
    change (strip (re_sub U _WHITESPACE_RE (lit " ") t)) with (clean_text U (Some t)).
    by destruct (clean_text U (Some t)).
  - intros ->. cbn [fmap option_fmap option_map falsy].
    by destruct (page_link U soup TEL_RE).
  - intros a -> Hne. by destruct a.
  - intros ->. cbn [falsy]. by destruct (page_link U soup MAILTO_RE).
Qed.

Lemma agency_container_first_witness :
  ∃ r, _parse_listing_page ascii_tables noon agency_page (studio "1.htm") = (Return r, [])
    ∧ r !! "publisher_name"%string = Some (VStr (lit "Agence du Parc"))
    ∧ r !! "publisher_phone"%string = Some (VStr (lit "04 78 56 34 12"))
    ∧ r !! "publisher_email"%string = Some (VStr (lit "contact@parc.example")).
Proof.
  destruct (agency_container_first ascii_tables noon agency_page agency_tree (studio "1.htm")
              [[tag_attr "div" "data-test" "sl-contact-info"]]
              [tag_class "div" "AgencyCard"]
              [[tag_attr "div" "data-test" "agency-card"]]
              (Element "div" [("class"%string, lit "AgencyCard")] [
                 Element "h3" [] [Text (lit " Agence  du Parc ")];
                 Element "p" [] [Text (lit "04 78 56 34 12")];
                 Element "a" [("href"%string, lit "mailto:contact@parc.example")]
                   [Text (lit "Ecrire")]])
              eq_refl eq_refl)
    as (r & Hr & Hname & Hphone & _ & Hmail & _).
  - intros sel' ->%list_elem_of_singleton. by vm_compute.
  - by vm_compute.
  - exists r. split; [exact Hr|]. split; [rewrite Hname; by vm_compute|]. split.
    + rewrite (Hphone (lit "04 78 56 34 12") (Element "p" [] [Text (lit "04 78 56 34 12")]));
        by vm_compute.
    + apply Hmail; by vm_compute.
Defined.

(** X8. A page that parses gives a record; the record carries the URL of
    the summary and the reading of the clock followed by [Z], and a heading
    that holds nothing but white space leaves the title of the summary in
    place. *)
Theorem detail_record_identity (U : unicode) (now : str) (html : page) (soup : node)
    (summary : ListingSummary) :
  tree html = Some soup →
  ∃ r w, _parse_listing_page U now html summary = (Return r, w)
    ∧ r !! "url"%string = Some (VStr (url summary))
    ∧ r !! "scraped_at"%string = Some (VStr (now ++ lit "Z"))
    ∧ (∀ el, find U soup ["h1"%string] [] = Some el →
         Forall (λ c, isspace c = true) (get_text el) →
         r !! "title"%string = Some (VStr (title summary))).
Proof.
  intros Htree.
  destruct (parse_listing_page_spec U now html soup summary Htree)
    as (pn & pe & pp & _ & ->).
  eexists _, _. split; [done|].
  pose proof (record_literal
      (VStr (listing_title U soup summary)) (VStr (listing_description U soup))
      (of_opt_int (listing_price U soup summary))
      (of_opt_str (listing_location U soup summary))
      (VList (listing_photos U soup summary))
      (of_opt_str (listing_energy_info U soup))
      (of_opt_str (head (all_years U (markup html))))
      (of_opt_str pn) (of_opt_str pe) (of_opt_str pp)
      (VList (listing_nearby_transport U soup))
      (VStr (url summary)) (VStr (now ++ lit "Z"))) as H.
  cbv zeta in H.
  destruct H as (_ & _ & -> & _ & _ & _ & _ & _ & _ & _ & _ & _ & _ & -> & ->).
  split_and!; [done..|].
  intros el Hfind Hblank%(clean_text_nil U). unfold listing_title.
  by rewrite Hfind, Hblank.
Qed.

Lemma detail_record_identity_witness :
  ∃ r w, _parse_listing_page ascii_tables noon agency_page (studio "1.htm") = (Return r, w)
    ∧ r !! "url"%string = Some (VStr (lit "https://www.seloger.com/annonces/1.htm"))
    ∧ r !! "scraped_at"%string = Some (VStr (lit "2024-05-01T12:00:00Z"))
    ∧ r !! "title"%string = Some (VStr (lit "Studio")).
Proof.
  destruct (detail_record_identity ascii_tables noon agency_page agency_tree (studio "1.htm")
              eq_refl) as (r & w & Hr & Hurl & Hat & Htitle).
  exists r, w. split; [exact Hr|]. split; [exact Hurl|]. split; [exact Hat|].
  apply (Htitle (Element "h1" [] [Text (lit "  ")])); [by vm_compute|].
  repeat constructor.
Defined.

(** X9. When the first digit of the price text of the page has no minus
    sign before it, and the digit run that it starts is broken by a white
    space other than U+0020 and U+00A0 that a digit follows, the record has
    no price, whatever price the summary holds. *)
Theorem detail_price_unparsed (U : unicode) (now : str) (html : page) (soup : node)
    (summary : ListingSummary) (pre : str) (x : char) (ds : str) (w e : char)
    (rest : str) (parent : node) :
  tree html = Some soup →
  find_string U soup PRICE_RE = Some (pre ++ x :: ds ++ w :: e :: rest, parent) →
  Forall (λ c, isdecimal U c = false ∧ c ≠ 45) pre →
  isdecimal U x = true → Forall (λ c, isdecimal U c = true) ds →
  isspace w = true → w ≠ 32 → w ≠ NBSP →
  isdecimal U e = true →
  ∃ r w, _parse_listing_page U now html summary = (Return r, w)
    ∧ r !! "price"%string = Some VNone.
Proof.
  intros Htree Hfind Hpre Hx Hds Hw H32 Hnb He.
  destruct (parse_listing_page_spec U now html soup summary Htree)
    as (pn & pe & pp & _ & ->).
  eexists _, _. split; [done|].
  etransitivity; [apply record_literal|]. unfold listing_price. rewrite Hfind.
  destruct (int_match_broken_run U pre x ds w e rest) as (m & Hm & Hint); [done..|].
  unfold extract_int. rewrite Hm, Hint.
  destruct (pre ++ x :: ds ++ w :: e :: rest) as [|c0 t0] eqn:Et; [by destruct pre|done].
Qed.

Lemma detail_price_unparsed_witness :
  price (studio "1.htm") = Some 1000%Z
  ∧ ∃ r w, _parse_listing_page ascii_tables noon agency_page (studio "1.htm") = (Return r, w)
      ∧ r !! "price"%string = Some VNone.
Proof.
  split; [reflexivity|].
  apply (detail_price_unparsed ascii_tables noon agency_page agency_tree (studio "1.htm")
           [] 49 [] 0x202F 50 (lit "34 " ++ [EURO])
           (Element "span" [] [Text (lit "1" ++ [0x202F] ++ lit "234 " ++ [EURO])]));
    first [ reflexivity | by vm_compute | by constructor ].
Defined.

(** ** Cards, tasks and runs *)

Lemma parse_cards_trace (U : unicode) (cards : list node) (listings : list ListingSummary) :
  parse_cards U cards listings
  = (Return (listings ++ omap (card_summary U) cards), cards ≫= card_trace U).
Proof.
  revert listings. induction cards as [|card cards IH]; intros listings.
  - simpl. by rewrite app_nil_r.
  - cbn [parse_cards].
    assert (try_except (parse_card U card) (λ exc, log DEBUG (CardFailed exc);; ret None)
            = (Return (card_summary U card), card_trace U card)) as ->.
    { unfold card_trace, card_summary. destruct (parse_card_spec U card) as (t & l & ph & ->).
      by destruct (resolve_href _). }
    cbn [bind]. rewrite IH. cbn [omap list_omap mbind list_bind].
    f_equal. destruct (card_summary U card) as [s|]; [|done].
    by rewrite <- (assoc_L (++)).
Qed.

Lemma card_traces_count (U : unicode) (cards : list node) :
  (length (omap (card_summary U) cards)
   + length (filter (λ e, is_skip e = true) (cards ≫= card_trace U)) = length cards)%nat
  ∧ Forall (λ e, is_card_failure e = false ∧ is_debug e) (cards ≫= card_trace U).
Proof.
  induction cards as [|card cards [IH1 IH2]]; [by split|].
  cbn [omap list_omap mbind list_bind length]. unfold card_trace at 1 3.
  destruct (card_summary U card) as [s|]; cbn [app length].
  - split; [|done]. by rewrite <- IH1.
  - rewrite filter_cons_True by done. split; [|by constructor].
    cbn [length]. rewrite <- IH1. lia.
Qed.

(** X10. Every card of the page of results is accounted for: the summaries
    are those of the cards of the page, each with a URL that is not empty,
    and every card without summary leaves one debug record of the parser
    that says it was skipped. The handler around a card is never
    entered. *)
Theorem cards_accounted (U : unicode) (html : page) summaries w :
  _parse_search_results U html = (Return summaries, w) →
  ∃ soup cards,
    tree html = Some soup
    ∧ page_cards soup cards
    ∧ summaries = omap (card_summary U) cards
    ∧ (length summaries + length (filter (λ e, is_skip e = true) w) = length cards)%nat
    ∧ Forall (λ e, is_card_failure e = false) w
    ∧ Forall (λ s, url s ≠ []) summaries.
Proof.
  destruct (tree html) as [soup|] eqn:Htree.
  2:{ unfold _parse_search_results, BeautifulSoup. by rewrite Htree. }
  assert (∀ cards, Forall (λ s, url s ≠ []) (omap (card_summary U) cards)) as Hurl.
  { intros cards. apply Forall_forall. intros s (card & _ & Hs)%list_elem_of_omap.
    by apply card_summary_spec in Hs as (_ & ? & _). }
  unfold _parse_search_results, BeautifulSoup. rewrite Htree, bind_ret_l.
  destruct (select_cards_spec soup card_selectors)
    as [[Hnone ->]|(front & sel & back & Hsels & Hfront & Hsel & ->)].
  - cbn [bind ret log emit app]. intros [= <- <-]. exists soup, [].
    split; [done|]. split; [by left|]. by repeat split; repeat constructor.
  - assert (page_cards soup (select soup sel)) as Hcards.
    { right. by exists front, sel, back. }
    cbn [bind]. destruct (select soup sel) as [|c cs] eqn:E; [done|].
    rewrite parse_cards_trace. cbn [app]. intros [= <- <-].
    exists soup, (c :: cs). destruct (card_traces_count U (c :: cs)) as [Hn Hall].
    split; [done|]. split; [done|].
    split; [done|]. split; [|split; [|exact (Hurl (c :: cs))]].
    + by rewrite filter_cons_False by done.
    + constructor; [done|]. eapply Forall_impl; [exact Hall|]. by intros e [? _].
Qed.

(** The example page has three cards: two give a summary, the card without
    link leaves one record. *)
Lemma cards_accounted_witness :
  ∃ summaries w cards,
    _parse_search_results ascii_tables results_page = (Return summaries, w)
    ∧ page_cards results_tree cards
    ∧ summaries = omap (card_summary ascii_tables) cards
    ∧ length cards = 3%nat
    ∧ length summaries = 2%nat
    ∧ length (filter (λ e, is_skip e = true) w) = 1%nat.
Proof.
  destruct (parse_search_results_returns ascii_tables results_page results_tree eq_refl)
    as (summaries & w & H).
  destruct (cards_accounted ascii_tables results_page _ _ H)
    as (soup & cards & [= <-] & Hcards & Hs & Hn & _).
  exists summaries, w, cards. split; [exact H|]. split; [exact Hcards|].
  split; [exact Hs|].
  assert (cards = select results_tree [tag_class "div" "ListingCell"]) as Hsel.
  { apply (page_cards_second _ _ Hcards); by vm_compute. }
  assert (length cards = 3%nat) as Hc by (by rewrite Hsel).
  assert (length summaries = 2%nat) as Hl by (rewrite Hs, Hsel; by vm_compute).
  split; [exact Hc|]. split; [exact Hl|]. rewrite Hc, Hl in Hn. lia.
Defined.

(** The futures taken in the order of completion hold the records of the
    tasks in that order. *)
Lemma completed_records (U : unicode) (W : world) (completion : list nat)
    (summaries : list ListingSummary) :
  let selected := omap (λ i, imap (worker U W) summaries !! i) completion in
  Forall (λ f, ∃ r, f.1 = Return r) selected
  ∧ omap future_record selected
    = omap (enrich_one U W) (completed_tasks completion summaries)
  ∧ requests (mjoin (snd <$> selected)) = (λ t, url t.2) <$> completed_tasks completion summaries.
Proof.
  cbv zeta. unfold completed_tasks.
  induction completion as [|i completion (IH1 & IH2 & IH3)]; [done|].
  cbn [omap list_omap]. rewrite list_lookup_imap.
  destruct (summaries !! i) as [s|]; cbn [fmap option_fmap option_map]; [|done].
  destruct (worker_spec U W i s) as (w & Hw & Hreq & _).
  split_and!.
  - constructor; [|done]. rewrite Hw. eauto.
  - cbn [omap list_omap]. by rewrite future_record_worker, IH2.
  - assert (∀ (x : list event) l, mjoin (x :: l) = x ++ mjoin l) as Hj by done.
    rewrite !fmap_cons, Hj, requests_app, IH3, Hw. cbn [snd]. by rewrite Hreq.
Qed.

Lemma deep_scrape_in_order (U : unicode) (W : world) (completion : list nat)
    (summaries : list ListingSummary) :
  ∃ w,
    _deep_scrape_summaries U W completion summaries
      = (Return (omap (enrich_one U W) (completed_tasks completion summaries)), w)
    ∧ requests w = (λ t, url t.2) <$> completed_tasks completion summaries.
Proof.
  unfold _deep_scrape_summaries.
  destruct (completed_records U W completion summaries) as (Hret & Hrec & Hreq).
  cbv zeta in *. rewrite (collect_spec _ [] Hret). cbn [app].
  eexists. split; [by rewrite Hrec|done].
Qed.




(** X12. A run whose page of results cannot be fetched raises the
    exception of the request, and a run whose page of results cannot be
    parsed raises the exception of the parser, each after one request. In
    shallow mode the run returns in every other case. *)
Theorem scrape_outcome (U : unicode) (W : world) (completion : list nat)
    (start_url : str) (deep_scrape : bool) (limit : option Z) :
  match session_get W 0 start_url with
  | None =>
      scrape U W completion start_url deep_scrape limit
        = (Raise RequestException, search_trace start_url)
  | Some html =>
      match tree html with
      | None =>
          scrape U W completion start_url deep_scrape limit
            = (Raise ParserError, search_trace start_url)
      | Some _ =>
          ∃ records w,
            scrape U W completion start_url false limit = (Return records, w)
      end
  end.
Proof.
  destruct (session_get W 0 start_url) as [html|] eqn:Hget.
  - destruct (tree html) as [soup|] eqn:Htree.
    + by eapply scrape_returns.
    + unfold scrape. rewrite fetch_url_spec, Hget. cbn [bind log emit].
      unfold _parse_search_results, BeautifulSoup. by rewrite Htree.
  - unfold scrape. by rewrite fetch_url_spec, Hget.
Qed.

(** The summary extractor sends no request. *)
Lemma parse_search_results_no_request (U : unicode) (html : page) summaries w :
  _parse_search_results U html = (Return summaries, w) → requests w = [].
Proof.
  intros Hparse. destruct (tree html) as [soup|] eqn:Htree.
  - destruct (select_cards_spec soup card_selectors)
      as [[Hnone _]|(front & sel & back & Hsels & Hfront & Hsel & _)].
    + rewrite (parse_search_results_none U html soup Htree Hnone) in Hparse.
      by injection Hparse as <- <-.
    + destruct (parse_search_results_first U html soup _ _ _ Htree Hsels Hfront Hsel)
        as (w' & Hw' & Hdebug).
      rewrite Hw' in Hparse. injection Hparse as <- <-.
      clear Hw'. induction Hdebug as [|e w' He _ IH]; [done|].
      destruct e as [[] m|u]; try done.
  - unfold _parse_search_results, BeautifulSoup in Hparse. by rewrite Htree in Hparse.
Qed.

Lemma length_slice_to {A} (n : Z) (l : list A) :
  (0 ≤ n)%Z → (length (slice_to n l) ≤ Z.to_nat n)%nat.
Proof.
  intros Hn. unfold slice_to. rewrite (proj2 (Z.leb_le 0 n) Hn), length_take. lia.
Qed.

Lemma length_omap_le {A B} (f : A → option B) (l : list A) :
  (length (omap f l) ≤ length l)%nat.
Proof.
  induction l as [|x l IH]; [done|]. cbn [omap list_omap].
  destruct (f x); cbn [length]; lia.
Qed.

Lemma length_completed_tasks (completion : list nat) (summaries : list ListingSummary) :
  NoDup completion →
  (length (completed_tasks completion summaries) ≤ length summaries)%nat.
Proof.
  intros Hnd. unfold completed_tasks.
  assert (omap (λ i, pair i <$> summaries !! i) completion
          = omap (λ i, pair i <$> summaries !! i)
              (filter (λ i, (i < length summaries)%nat) completion)) as ->.
  { clear Hnd. induction completion as [|i completion IH]; [done|].
    cbn [omap list_omap]. rewrite filter_cons. destruct (decide (i < length summaries)%nat) as [Hi|Hi].
    - cbn [omap list_omap]. by rewrite IH.
    - rewrite (proj2 (lookup_ge_None summaries i)) by lia. done. }
  etransitivity; [apply length_omap_le|].
  assert (filter (λ i, (i < length summaries)%nat) completion ⊆+ seq 0 (length summaries)) as Hsub.
  { apply NoDup_submseteq; [by apply NoDup_filter|].
    intros i [Hi _]%list_elem_of_filter. apply elem_of_seq. lia. }
  apply submseteq_length in Hsub. by rewrite length_seq in Hsub.
Qed.

(** X13. With a limit [n] that is not negative, a run returns at most [n]
    records and sends at most [1 + n] requests, when no task is collected
    twice. *)
Theorem scrape_limit_bounds (U : unicode) (W : world) (completion : list nat)
    (start_url : str) (deep_scrape : bool) (n : Z) records w :
  NoDup completion →
  (0 ≤ n)%Z →
  scrape U W completion start_url deep_scrape (Some n) = (Return records, w) →
  (length records ≤ Z.to_nat n)%nat ∧ (length (requests w) ≤ 1 + Z.to_nat n)%nat.
Proof.
  intros Hnd Hn. unfold scrape. rewrite fetch_url_spec.
  destruct (session_get W 0 start_url) as [html|]; [|done].
  cbn [bind log emit].
  destruct (_parse_search_results U html) as [[found|e] w1] eqn:Hparse; [|done].
  pose proof (parse_search_results_no_request U html _ _ Hparse) as Hw1.
  pose proof (length_slice_to n found Hn) as Hlen.
  destruct deep_scrape; cbn [negb bind ret log emit].
  - destruct (deep_scrape_in_order U W completion (slice_to n found))
      as (w2 & -> & Hreq).
    intros [= <- <-].
    pose proof (length_completed_tasks completion (slice_to n found) Hnd) as Hc.
    split.
    + etransitivity; [apply length_omap_le|]. lia.
    + change (length (start_url :: requests (w1 ++ [LOG INFO (ParsedSummaries (length (slice_to n found)));
                 LOG INFO (DeepScraping (length (slice_to n found)))] ++ w2))
              ≤ 1 + Z.to_nat n)%nat.
      rewrite !requests_app, Hw1, Hreq. cbn [requests omap list_omap app length].
      rewrite length_fmap. lia.
  - intros [= <- <-]. split.
    + by rewrite length_imap.
    + change (length (start_url :: requests (w1 ++ [LOG INFO (ParsedSummaries (length (slice_to n found)))]))
              ≤ 1 + Z.to_nat n)%nat.
      rewrite requests_app, Hw1. cbn. lia.
Qed.

Lemma scrape_limit_bounds_witness :
  NoDup [1; 0]%nat
  ∧ ∃ records w,
      scrape ascii_tables small_site [1; 0]%nat
        (lit "https://www.seloger.com/list.htm") true (Some 1%Z) = (Return records, w)
      ∧ (length records ≤ 1)%nat ∧ (length (requests w) ≤ 2)%nat.
Proof.
  assert (NoDup [1; 0]%nat) as Hnd by (by apply (bool_decide_unpack _)).
  split; [exact Hnd|].
  destruct (scrape_returns ascii_tables small_site [1; 0]%nat
              (lit "https://www.seloger.com/list.htm") true (Some 1%Z)
              results_page results_tree eq_refl eq_refl) as (records & w & H).
  exists records, w. split; [exact H|].
  apply (scrape_limit_bounds ascii_tables small_site [1; 0]%nat
           (lit "https://www.seloger.com/list.htm") true 1 records w Hnd);
    [lia|exact H].
Defined.

Lemma take_imap {A B} (f : nat → A → B) (k : nat) (l : list A) :
  take k (imap f l) = imap f (take k l).
Proof.
  revert f k. induction l as [|x l IH]; intros f k; [by destruct k|].
  destruct k as [|k]; [done|]. cbn [imap take]. by rewrite IH.
Qed.

(** X14. In shallow mode the limit is the slice [[:n]] of the records of
    the unlimited run, also for a negative [n], which drops records from
    the end; the run sends the one request for the page of results. *)
Theorem shallow_limit_is_slice (U : unicode) (W : world) (completion : list nat)
    (start_url : str) (n : Z) all w0 :
  scrape U W completion start_url false None = (Return all, w0) →
  ∃ w, scrape U W completion start_url false (Some n) = (Return (slice_to n all), w)
    ∧ requests w0 = [start_url] ∧ requests w = [start_url].
Proof.
  unfold scrape. rewrite fetch_url_spec.
  destruct (session_get W 0 start_url) as [html|]; [|done].
  cbn [bind log emit].
  destruct (_parse_search_results U html) as [[found|e] w1] eqn:Hparse; [|done].
  pose proof (parse_search_results_no_request U html _ _ Hparse) as Hw1.
  cbn [negb bind ret log emit]. intros [= <- <-].
  eexists. split; [|split].
  - f_equal. f_equal. unfold slice_to. rewrite length_imap.
    destruct (0 <=? n)%Z; by rewrite take_imap.
  - change (start_url :: requests (w1 ++ [LOG INFO (ParsedSummaries (length found))])
            = [start_url]).
    by rewrite requests_app, Hw1.
  - change (start_url :: requests (w1 ++ [LOG INFO (ParsedSummaries (length (slice_to n found)))])
            = [start_url]).
    by rewrite requests_app, Hw1.
Qed.

Lemma shallow_limit_is_slice_witness :
  ∃ all w0 w,
    scrape ascii_tables small_site [] (lit "https://www.seloger.com/list.htm") false None
      = (Return all, w0)
    ∧ scrape ascii_tables small_site [] (lit "https://www.seloger.com/list.htm") false
        (Some (-1)%Z) = (Return (slice_to (-1) all), w)
    ∧ requests w = [lit "https://www.seloger.com/list.htm"].
Proof.
  destruct (scrape_returns ascii_tables small_site []
              (lit "https://www.seloger.com/list.htm") false None
              results_page results_tree eq_refl eq_refl) as (all & w0 & H).
  destruct (shallow_limit_is_slice ascii_tables small_site []
              (lit "https://www.seloger.com/list.htm") (-1) all w0 H)
    as (w & Hw & _ & Hreq).
  by exists all, w0, w.
Defined.

(** ** More on the delta *)

(** What the delta holds after the two indexes are built. *)
Lemma compute_delta_members (previous items : list (gmap string val)) :
  keys_hashable previous → keys_hashable items →
  ∃ ns rs,
    compute_delta previous items
      = (Return {| new := ns; removed := rs; current := items |},
         [LOG INFO (DeltaCounts (length ns) (length rs))])
    ∧ (∀ r, r ∈ ns ↔ ∃ k, indexed items k r ∧ ¬ tracked previous k)
    ∧ (∀ r, r ∈ rs ↔ ∃ k, indexed previous k r ∧ ¬ tracked items k)
    ∧ NoDup ((λ r, dict_get r "url") <$> ns)
    ∧ NoDup ((λ r, dict_get r "url") <$> rs).
Proof.
  intros Hprev Hcur. unfold compute_delta.
  rewrite (index_by_url_spec previous ∅ Hprev), bind_ret_l.
  rewrite (index_by_url_spec items ∅ Hcur), bind_ret_l.
  destruct (lookup_all_spec (index_of items ∅) (index_of previous ∅)) as (ns & -> & Hn & Hn2).
  rewrite bind_ret_l.
  destruct (lookup_all_spec (index_of previous ∅) (index_of items ∅)) as (rs & -> & Hr & Hr2).
  rewrite bind_ret_l. cbn [bind log emit ret app].
  exists ns, rs. split; [done|].
  split_and!;
    [by apply lookup_all_members|by apply lookup_all_members
    |by eapply lookup_all_keys|by eapply lookup_all_keys].
Qed.

Lemma indexed_tracked (items : list (gmap string val)) (k : val) item :
  indexed items k item → tracked items k.
Proof. intros (front & back & -> & Hk & _). exists item. split; [set_solver|done]. Qed.

Lemma indexed_url (items : list (gmap string val)) (k : val) item :
  indexed items k item →
  item ∈ items ∧ dict_get item "url" = k ∧ truthy (dict_get item "url") = true.
Proof.
  intros (front & back & -> & Hk & _). split; [set_solver|].
  unfold url_key in Hk. destruct (truthy _); [|done]. by injection Hk.
Qed.

(** X15. The delta compares URLs only: when the two lists have the same
    URLs, for instance after a change of price, nothing is new and nothing
    is removed, and the log record counts zero and zero. *)
Theorem delta_same_urls (previous items : list (gmap string val)) :
  keys_hashable previous → keys_hashable items →
  (∀ k, tracked previous k ↔ tracked items k) →
  compute_delta previous items
    = (Return {| new := []; removed := []; current := items |},
       [LOG INFO (DeltaCounts 0 0)]).
Proof.
  intros Hprev Hcur Hsame.
  destruct (compute_delta_members previous items Hprev Hcur)
    as (ns & rs & -> & Hn & Hr & _).
  assert (ns = []) as ->.
  { destruct ns as [|r ns]; [done|].
    destruct (proj1 (Hn r)) as (k & Hk%indexed_tracked & Hno); [by left|].
    by apply Hsame in Hk. }
  assert (rs = []) as ->.
  { destruct rs as [|r rs]; [done|].
    destruct (proj1 (Hr r)) as (k & Hk%indexed_tracked & Hno); [by left|].
    by apply Hsame in Hk. }
  done.
Qed.

Lemma delta_same_urls_witness :
  compute_delta [listing "a" 1; listing "b" 2] [listing "b" 7; listing "a" 1]
    = (Return {| new := []; removed := [];
                 current := [listing "b" 7; listing "a" 1] |},
       [LOG INFO (DeltaCounts 0 0)]).
Proof.
  apply delta_same_urls.
  - repeat constructor; intros k; vm_compute; by intros [= <-].
  - repeat constructor; intros k; vm_compute; by intros [= <-].
  - intros k. split; intros (item & Hin & Hk).
    + repeat (apply elem_of_cons in Hin as [->|Hin]);
        [exists (listing "a" 1)|exists (listing "b" 7)|by apply elem_of_nil in Hin];
        (split; [set_solver|]); revert Hk; by vm_compute.
    + repeat (apply elem_of_cons in Hin as [->|Hin]);
        [exists (listing "b" 2)|exists (listing "a" 1)|by apply elem_of_nil in Hin];
        (split; [set_solver|]); revert Hk; by vm_compute.
Defined.

(** X16. A new record is a record of the current list and a removed record
    one of the previous list; each has a URL that counts as true, and no URL
    is both new and removed. *)
Theorem delta_disjoint (previous items : list (gmap string val)) d w :
  keys_hashable previous → keys_hashable items →
  compute_delta previous items = (Return d, w) →
  (∀ r, r ∈ new d → r ∈ items ∧ truthy (dict_get r "url") = true)
  ∧ (∀ r, r ∈ removed d → r ∈ previous ∧ truthy (dict_get r "url") = true)
  ∧ (∀ r r', r ∈ new d → r' ∈ removed d → dict_get r "url" ≠ dict_get r' "url").
Proof.
  intros Hprev Hcur.
  destruct (compute_delta_members previous items Hprev Hcur)
    as (ns & rs & -> & Hn & Hr & _).
  intros [= <- _]. cbn [new removed]. split_and!.
  - intros r (k & (? & _ & ?)%indexed_url & _)%Hn. done.
  - intros r (k & (? & _ & ?)%indexed_url & _)%Hr. done.
  - intros r r' (k & Hk & Hno)%Hn (k' & Hk' & _)%Hr E.
    apply indexed_tracked in Hk' as Ht.
    apply indexed_url in Hk as (_ & <- & _). apply indexed_url in Hk' as (_ & <- & _).
    rewrite <- E in Ht. done.
Qed.

Lemma delta_disjoint_witness :
  ∃ d w,
    compute_delta [listing "a" 1; listing "b" 2] [listing "b" 3; listing "c" 4]
      = (Return d, w)
    ∧ ∀ r r', r ∈ new d → r' ∈ removed d → dict_get r "url" ≠ dict_get r' "url".
Proof.
  assert (keys_hashable [listing "a" 1; listing "b" 2]) as Hprev.
  { repeat constructor; intros k; vm_compute; by intros [= <-]. }
  assert (keys_hashable [listing "b" 3; listing "c" 4]) as Hcur.
  { repeat constructor; intros k; vm_compute; by intros [= <-]. }
  destruct (compute_delta_members _ _ Hprev Hcur) as (ns & rs & H & _).
  eexists _, _. split; [exact H|].
  exact (proj2 (proj2 (delta_disjoint _ _ _ _ Hprev Hcur H))).
Defined.

(** The comprehension that builds an index logs nothing, and raises
    nothing but [TypeError]. *)
Lemma index_by_url_outcome (items : list (gmap string val)) acc :
  (∃ m, index_by_url items acc = ret m) ∨ index_by_url items acc = raise TypeError.
Proof.
  revert acc. induction items as [|item items IH]; intros acc; [left; by eexists|].
  cbn [index_by_url]. destruct (truthy _); [|apply IH].
  destruct (hashable _); [apply IH|by right].
Qed.

Lemma index_by_url_unhashable (items : list (gmap string val)) acc :
  Exists (λ item, ∃ l, dict_get item "url" = VList l ∧ l ≠ []) items →
  index_by_url items acc = raise TypeError.
Proof.
  intros H. revert acc. induction H as [item items (l & Hl & Hne)|item items _ IH]; intros acc.
  - cbn [index_by_url]. rewrite Hl. by destruct l.
  - cbn [index_by_url]. destruct (truthy _); [|apply IH].
    destruct (hashable _); [apply IH|done].
Qed.

(** X17. When a record of either list has a list that is not empty for
    URL, the delta raises [TypeError] before it logs anything. *)
Theorem delta_unhashable_url (previous items : list (gmap string val)) :
  Exists (λ item, ∃ l, dict_get item "url" = VList l ∧ l ≠ []) (previous ++ items) →
  compute_delta previous items = (Raise TypeError, []).
Proof.
  intros [H|H]%Exists_app; unfold compute_delta.
  - by rewrite (index_by_url_unhashable previous ∅ H).
  - destruct (index_by_url_outcome previous ∅) as [[m ->]| ->]; [|done].
    by rewrite bind_ret_l, (index_by_url_unhashable items ∅ H).
Qed.

Lemma delta_unhashable_url_witness :
  compute_delta [listing "a" 1]
    [<["url"%string := VList [lit "https://www.seloger.com/annonces/1.htm"]]> (listing "b" 2)]
  = (Raise TypeError, []).
Proof.
  apply delta_unhashable_url. apply Exists_app. right. constructor.
  exists [lit "https://www.seloger.com/annonces/1.htm"]. split; [by vm_compute|done].
Defined.

Lemma indexed_unique (items : list (gmap string val)) (k : val) item :
  NoDup ((λ r, dict_get r "url") <$> items) →
  item ∈ items → url_key item = Some k → indexed items k item.
Proof.
  intros Hnd (front & back & ->)%list_elem_of_split Hk.
  exists front, back. split; [done|]. split; [done|].
  apply Forall_forall. intros later Hlater Hk'.
  rewrite fmap_app, fmap_cons in Hnd.
  apply NoDup_app in Hnd as (_ & _ & Hnd). apply NoDup_cons in Hnd as [Hnd _].
  apply Hnd. apply list_elem_of_fmap. exists later. split; [|done].
  unfold url_key in Hk, Hk'.
  destruct (truthy (dict_get item "url")); [|done].
  destruct (truthy (dict_get later "url")); [|done]. congruence.
Qed.

(** An index that is built has hashed every key. *)
Lemma index_by_url_hashable (items : list (gmap string val)) acc m :
  index_by_url items acc = ret m → keys_hashable items.
Proof.
  revert acc. induction items as [|item items IH]; intros acc Hm; [constructor|].
  cbn [index_by_url] in Hm. unfold keys_hashable. 
  destruct (truthy (dict_get item "url")) eqn:Ht.
  - destruct (hashable (dict_get item "url")) eqn:Hh; [|done].
    constructor; [|by eapply IH].
    intros k. unfold url_key. rewrite Ht. by intros [= <-].
  - constructor; [|by eapply IH].
    intros k. unfold url_key. by rewrite Ht.
Qed.

Lemma compute_delta_hashable (items : list (gmap string val)) d w :
  compute_delta [] items = (Return d, w) → keys_hashable items.
Proof.
  unfold compute_delta. cbn [index_by_url]. rewrite bind_ret_l.
  destruct (index_by_url_outcome items ∅) as [[m Hm]|Hm].
  - intros _. by eapply index_by_url_hashable.
  - by rewrite Hm.
Qed.

(** X18. Against an empty previous list the delta returns when no record
    of the current list has a list for URL that counts as true, and a
    delta that returns has removed nothing; when moreover the records of
    the current list have URLs that count as true and differ from one
    another, the new records are the current records, in some order. *)
Theorem delta_first_run (items : list (gmap string val)) :
  (keys_hashable items → ∃ d w, compute_delta [] items = (Return d, w))
  ∧ ∀ d w, compute_delta [] items = (Return d, w) →
      removed d = []
      ∧ (Forall (λ item, truthy (dict_get item "url") = true) items →
         NoDup ((λ r, dict_get r "url") <$> items) →
         new d ≡ₚ items).
Proof.
  split.
  { intros Hcur.
    destruct (compute_delta_members [] items (Forall_nil_2 _) Hcur) as (ns & rs & -> & _).
    by eexists _, _. }
  intros d w Hrun. pose proof (compute_delta_hashable items d w Hrun) as Hcur.
  destruct (compute_delta_members [] items (Forall_nil_2 _) Hcur)
    as (ns & rs & Hd & Hn & Hr & Hnn & _).
  rewrite Hd in Hrun. injection Hrun as <- _. cbn [new removed]. split.
  - destruct rs as [|r rs]; [done|].
    destruct (proj1 (Hr r)) as (k & (front & back & E & _) & _); [by left|].
    by destruct front.
  - intros Hurls Hnd. apply NoDup_Permutation.
    + by apply NoDup_fmap_1 in Hnn.
    + by apply NoDup_fmap_1 in Hnd.
    + intros r. rewrite Hn. split.
      * by intros (k & (? & _)%indexed_url & _).
      * intros Hin. rewrite Forall_forall in Hurls.
        exists (dict_get r "url"). split.
        -- apply indexed_unique; [done..|]. unfold url_key. by rewrite (Hurls r Hin).
        -- intros (item & Hitem & _). by apply elem_of_nil in Hitem.
Qed.

(** Two records on a first run, the second without URL: nothing is
    removed; with two URLs, both records are new. *)
Lemma delta_first_run_witness :
  (∃ d w, compute_delta [] [listing "a" 1; delete "url"%string (listing "b" 2)]
            = (Return d, w)
      ∧ removed d = [])
  ∧ ∃ d w, compute_delta [] [listing "a" 1; listing "b" 2] = (Return d, w)
      ∧ removed d = []
      ∧ new d ≡ₚ [listing "a" 1; listing "b" 2].
Proof.
  split.
  - destruct (delta_first_run [listing "a" 1; delete "url"%string (listing "b" 2)])
      as [Hret Hrem].
    destruct Hret as (d & w & Hrun).
    { repeat constructor; intros k; vm_compute; by intros [= <-]. }
    exists d, w. split; [exact Hrun|]. by destruct (Hrem d w Hrun) as [? _].
  - destruct (delta_first_run [listing "a" 1; listing "b" 2]) as [Hret Hrem].
    destruct Hret as (d & w & Hrun).
    { repeat constructor; intros k; vm_compute; by intros [= <-]. }
    exists d, w. split; [exact Hrun|].
    destruct (Hrem d w Hrun) as [Hr Hnew]. split; [exact Hr|].
    apply Hnew; [by repeat constructor|by apply (bool_decide_unpack _)].
Defined.

(** ** Numbers *)

Lemma num_strip_id (s : str) :
  Forall (λ c, num_isspace c = false) s → num_strip s = s.
Proof.
  intros Hs. unfold num_strip.
  assert (∀ t, Forall (λ c, num_isspace c = false) t → num_lstrip t = t) as Hl.
  { intros t [|c t' Hc _]; [done|]. simpl. by rewrite Hc. }
  rewrite (Hl s Hs), Hl; [by rewrite reverse_involutive|].
  by apply Forall_reverse.
Qed.

Lemma int_digits_after (U : unicode) (acc : Z) (ds : str) :
  Forall (λ c, isdecimal U c = true) ds →
  int_digits U AfterDigit acc ds = Some (digits_value U acc ds).
Proof.
  intros H. revert acc. induction H as [|c ds Hc _ IH]; intros acc; [done|].
  cbn [int_digits]. unfold isdecimal in Hc. unfold digits_value. cbn [foldl].
  destruct (decimal U c) as [v|]; [|done]. apply IH.
Qed.

Lemma int_digits_value (U : unicode) (st : digits_state) (c : char) (ds : str) :
  Forall (λ c, isdecimal U c = true) (c :: ds) →
  int_digits U st 0 (c :: ds) = Some (digits_value U 0 (c :: ds)).
Proof.
  intros [Hc Hds]%Forall_cons. cbn [int_digits]. unfold isdecimal in Hc.
  unfold digits_value. cbn [foldl]. destruct (decimal U c) as [v|]; [|done].
  by apply int_digits_after.
Qed.

Lemma filter_all {A} (P : A → Prop) `{∀ x, Decision (P x)} (l : list A) :
  Forall P l → filter P l = l.
Proof.
  induction 1 as [|x l Hx _ IH]; [done|]. by rewrite filter_cons_True, IH.
Qed.

(** X19. A number written with blanks U+0020 or no-break spaces U+00A0
    between its digits, as in [1 234 567], is read as a whole: with at
    most 4300 digits the result is the number that the digits denote,
    which is not negative; with more digits, [int] refuses the literal and
    the result is nothing. *)
Theorem extract_int_grouped (U : unicode) (x : char) (t rest : str) :
  isdecimal U x = true →
  Forall (λ c, isdecimal U c = true ∨ c = 32 ∨ c = NBSP) t →
  (∀ c, head rest = Some c → isdecimal U c = false ∧ isspace c = false) →
  extract_int U (Some (x :: t ++ rest))
    = (if (INT_MAX_STR_DIGITS <? length (x :: filter (λ c, isdecimal U c = true) t))%nat
       then None
       else Some (digits_value U 0 (x :: filter (λ c, isdecimal U c = true) t)))
  ∧ (0 ≤ digits_value U 0 (x :: filter (λ c, isdecimal U c = true) t))%Z.
Proof.
  intros Hx Ht Hrest.
  assert (extract_int U (Some (x :: t ++ rest))
          = (if (INT_MAX_STR_DIGITS
                 <? length (x :: filter (λ c, isdecimal U c = true) t))%nat
             then None
             else Some (digits_value U 0 (x :: filter (λ c, isdecimal U c = true) t))))
    as Hval.
  { unfold extract_int. cbn [re_search]. rewrite (re_match_int_at_digit U x _ Hx). cbn [group0].
    set (ok := cls_matches U false (Or Digit Space)).
    assert (take_while ok (t ++ rest) = t) as ->.
    { induction Ht as [|c t Hc _ IH]; cbn [app take_while].
      - destruct rest as [|c rest]; [done|]. simpl.
        destruct (Hrest c eq_refl) as [Hd Hs]. unfold ok. cbn [cls_matches].
        by rewrite Hd, Hs.
      - replace (ok c) with true; [by rewrite IH|].
        unfold ok. cbn [cls_matches]. destruct Hc as [->|[->| ->]]; [done|..];
          by rewrite orb_true_r. }
    assert (remove_char NBSP (remove_char 32 (x :: t))
            = x :: filter (λ c, isdecimal U c = true) t) as ->.
    { unfold remove_char.
      pose proof (isdecimal_not_space U x Hx) as Hxs.
      rewrite (filter_cons_True (λ c, c ≠ 32)) by by intros ->.
      rewrite (filter_cons_True (λ c, c ≠ NBSP)) by by intros ->.
      f_equal. clear Hrest. induction Ht as [|c t Hc _ IH]; [done|].
      destruct Hc as [Hc|[->| ->]].
      - pose proof (isdecimal_not_space U c Hc) as Hcs.
        rewrite (filter_cons_True (λ c, c ≠ 32)) by by intros ->.
        rewrite (filter_cons_True (λ c, c ≠ NBSP)) by by intros ->.
        rewrite (filter_cons_True (λ c, isdecimal U c = true)) by done. by rewrite IH.
      - rewrite (filter_cons_False (λ c, c ≠ 32)) by (by intros H).
        rewrite (filter_cons_False (λ c, isdecimal U c = true)); [done|].
        unfold isdecimal. by rewrite decimal_ascii.
      - rewrite (filter_cons_True (λ c, c ≠ 32)) by done.
        rewrite (filter_cons_False (λ c, c ≠ NBSP)) by (by intros H).
        rewrite (filter_cons_False (λ c, isdecimal U c = true)); [done|].
        intros Hd%isdecimal_not_space. done. }
    assert (Forall (λ c, isdecimal U c = true) (x :: filter (λ c, isdecimal U c = true) t))
      as Hds.
    { constructor; [done|]. apply Forall_forall. by intros c [? _]%list_elem_of_filter. }
    unfold py_int. rewrite num_strip_id.
    2:{ eapply Forall_impl; [exact Hds|]. intros c. apply isdecimal_not_num_space. }
    rewrite (filter_all _ _ Hds).
    destruct (_ <? _)%nat; [done|].
    destruct (x =? 45) eqn:E45.
    { apply N.eqb_eq in E45 as ->. by rewrite isdecimal_minus in Hx. }
    destruct (x =? 43) eqn:E43.
    { apply N.eqb_eq in E43 as ->. unfold isdecimal in Hx. by rewrite decimal_ascii in Hx. }
    by apply int_digits_value. }
  split; [exact Hval|].
  assert (∀ ds acc, (0 ≤ acc)%Z → (0 ≤ digits_value U acc ds)%Z) as Hpos.
  { induction ds as [|c ds IH]; intros acc Hacc; [done|].
    unfold digits_value. cbn [foldl]. apply IH.
    destruct (decimal U c) as [v|] eqn:E; cbn; [|lia].
    apply decimal_range in E. lia. }
  by apply Hpos.
Qed.

Lemma extract_int_grouped_witness :
  extract_int ascii_tables (Some (lit "1 234" ++ [NBSP] ++ lit "567" ++ [EURO]))
    = Some 1234567%Z.
Proof.
  destruct (extract_int_grouped ascii_tables 49 (lit " 234" ++ [NBSP] ++ lit "567") [EURO])
    as [H _].
  - done.
  - repeat constructor; by vm_compute; auto.
  - intros c [= <-]. by vm_compute.
  - exact H.
Defined.

(** A match of [_FLOAT_RE]: an optional minus sign, digits, and an
    optional fractional part after a dot or a comma. *)
Lemma float_re_matches (U : unicode) (g : str) :
  matches U false (re _FLOAT_RE) g →
  ∃ sign x ds frac,
    g = sign ++ x :: ds ++ frac ∧ (sign = [] ∨ sign = [45])
    ∧ Forall (λ c, isdecimal U c = true) (x :: ds)
    ∧ (frac = [] ∨ ∃ sep y fs, frac = sep :: y :: fs ∧ (sep = 46 ∨ sep = 44)
                               ∧ Forall (λ c, isdecimal U c = true) (y :: fs)).
Proof.
  unfold _FLOAT_RE, compile, Plus. cbn [re matches cls_matches].
  intros (sign & s2 & -> & Hsign & (s3 & frac & -> & (s4 & ds & -> & (x & -> & Hx) & Hds) & Hfrac)).
  exists sign, x, ds, frac. split; [by rewrite <- (assoc_L (++))|]. split.
  { destruct Hsign as [->|(c & -> & Hc%N.eqb_eq)]; [by left|]. right. by subst. }
  split; [by constructor|].
  destruct Hfrac as [->|(s5 & s6 & -> & (sep & -> & Hsep) & (s7 & fs & -> & (y & -> & Hy) & Hfs))];
    [by left|].
  right. exists sep, y, fs. split; [done|]. split; [|by constructor].
  apply orb_true_iff in Hsep as [->%N.eqb_eq| ->%N.eqb_eq]; auto.
Qed.

Lemma re_search_found (U : unicode) (p : pattern) (pre s : str) :
  is_Some (re_match U p s) → is_Some (re_search U p (pre ++ s)).
Proof.
  intros [m Hm]. induction pre as [|c pre [m' IH]]; cbn [app].
  - destruct s; cbn [re_search]; rewrite Hm; eauto.
  - cbn [re_search]. destruct (re_match U p (c :: pre ++ s)); [eauto|].
    rewrite IH. eauto.
Qed.

Lemma star_total {A} (U : unicode) (icase : bool) (c : cls) (k : str → option A) (s : str) :
  (∀ t, is_Some (k t)) → is_Some (star U icase c k s).
Proof.
  intros Hk. induction s as [|x s [a IH]]; cbn [star]; [done|].
  destruct (cls_matches U icase c x); [rewrite IH; eauto|done].
Qed.

(** At a digit [_FLOAT_RE] has a match. *)
Lemma re_match_float_at_digit (U : unicode) (x : char) (s : str) :
  isdecimal U x = true → is_Some (re_match U _FLOAT_RE (x :: s)).
Proof.
  intros Hx. unfold re_match.
  set (F := Seq (One (Or (Ch 46) (Ch 44))) (Plus Digit)).
  assert (run U (ignorecase _FLOAT_RE) (re _FLOAT_RE) Some (x :: s)
          = star U false Digit (run U false (Opt F) Some) s) as ->.
  { unfold _FLOAT_RE, compile, Plus. cbn [re ignorecase run].
    change (cls_matches U false (Ch 45) x) with (45 =? x).
    change (cls_matches U false Digit x) with (isdecimal U x).
    destruct (45 =? x) eqn:E; [|by rewrite Hx].
    apply N.eqb_eq in E as <-. by rewrite isdecimal_minus in Hx. }
  destruct (star_total U false Digit (run U false (Opt F) Some) s) as [rest ->]; [|done].
  intros t. cbn [run].
  match goal with |- is_Some (match ?m with _ => _ end) => destruct m end; eauto.
Qed.

Lemma float_digits_whole (U : unicode) (acc : Z) (ds : str) :
  Forall (λ c, isdecimal U c = true) ds →
  is_Some (float_digits U AfterDigit acc ds).
Proof.
  intros H. revert acc. induction H as [|c ds Hc _ IH]; intros acc; [by eexists|].
  cbn [float_digits]. unfold isdecimal in Hc.
  destruct (decimal U c) as [v|]; [apply IH|done].
Qed.

Lemma frac_digits_some (U : unicode) (acc : Z) (n : nat) (fs : str) :
  Forall (λ c, isdecimal U c = true) fs → fs ≠ [] ∨ n ≠ 0%nat →
  is_Some (frac_digits U acc n fs).
Proof.
  intros H. revert acc n. induction H as [|c ds Hc _ IH]; intros acc n Hn.
  - destruct Hn as [?|?]; [done|]. destruct n; [done|]. by eexists.
  - cbn [frac_digits]. unfold isdecimal in Hc.
    destruct (decimal U c) as [v|]; [|done]. apply IH. by right.
Qed.

Lemma float_digits_fraction (U : unicode) (acc : Z) (ds : str) (y : char) (fs : str) :
  Forall (λ c, isdecimal U c = true) ds →
  Forall (λ c, isdecimal U c = true) (y :: fs) →
  is_Some (float_digits U AfterDigit acc (ds ++ 46 :: y :: fs)).
Proof.
  intros H Hfs. revert acc. induction H as [|c ds Hc _ IH]; intros acc.
  - cbn [app float_digits]. rewrite decimal_ascii by done.
    change (is_Some (frac_digits U acc 0 (y :: fs))).
    apply frac_digits_some; [done|by left].
  - cbn [app float_digits]. unfold isdecimal in Hc.
    destruct (decimal U c) as [v|]; [apply IH|done].
Qed.

(** [float] accepts what is left of a match of [_FLOAT_RE]. *)
Lemma py_float_of_match (U : unicode) (g : str) :
  matches U false (re _FLOAT_RE) g →
  is_Some (py_float U (replace_char 44 46 (remove_char NBSP (remove_char 32 g)))).
Proof.
  intros (sign & x & ds & frac & -> & Hsign & Hds & Hfrac)%float_re_matches.
  assert (∀ c, isdecimal U c = true → c ≠ 32 ∧ c ≠ NBSP ∧ c ≠ 44 ∧ c ≠ 45) as Hkeep.
  { intros c Hc. pose proof (isdecimal_not_space U c Hc). unfold isdecimal in Hc.
    split_and!; intros ->; try done; by rewrite decimal_ascii in Hc. }
  assert (∀ l, Forall (λ c, isdecimal U c = true) l →
            replace_char 44 46 (remove_char NBSP (remove_char 32 l)) = l) as Hdigits.
  { intros l Hl. unfold replace_char, remove_char.
    induction Hl as [|c l Hc _ IH]; [done|].
    destruct (Hkeep c Hc) as (? & ? & H44 & _).
    rewrite !filter_cons_True by done. rewrite fmap_cons, IH.
    by apply N.eqb_neq in H44 as ->. }
  assert (∀ a b, replace_char 44 46 (remove_char NBSP (remove_char 32 (a ++ b)))
                 = replace_char 44 46 (remove_char NBSP (remove_char 32 a))
                   ++ replace_char 44 46 (remove_char NBSP (remove_char 32 b))) as Happ.
  { intros a b. unfold replace_char, remove_char. by rewrite !filter_app, fmap_app. }
  change (x :: ds ++ frac) with ((x :: ds) ++ frac).
  rewrite !Happ, (Hdigits _ Hds).
  assert (∃ frac', replace_char 44 46 (remove_char NBSP (remove_char 32 frac)) = frac'
            ∧ (frac' = [] ∨ ∃ y fs, frac' = 46 :: y :: fs
                                    ∧ Forall (λ c, isdecimal U c = true) (y :: fs)))
    as (frac' & -> & Hfrac').
  { destruct Hfrac as [->|(sep & y & fs & -> & Hsep & Hfs)]; [exists []; by split; [|left]|].
    exists (46 :: y :: fs). split; [|right; eauto].
    change (sep :: y :: fs) with ([sep] ++ y :: fs). rewrite Happ, (Hdigits _ Hfs).
    by destruct Hsep as [-> | ->]. }
  assert (Forall (λ c, num_isspace c = false) ((x :: ds) ++ frac')) as Hns.
  { apply Forall_app. split.
    - eapply Forall_impl; [exact Hds|]. intros c. apply isdecimal_not_num_space.
    - destruct Hfrac' as [->|(y & fs & -> & Hfs)]; [done|]. constructor; [done|].
      eapply Forall_impl; [exact Hfs|]. intros c. apply isdecimal_not_num_space. }
  assert (is_Some (float_digits U NeedDigit 0 ((x :: ds) ++ frac'))) as Hnum.
  { apply Forall_cons in Hds as [Hx Hds]. cbn [app float_digits].
    unfold isdecimal in Hx. destruct (decimal U x) as [v|]; [|done].
    destruct Hfrac' as [->|(y & fs & -> & Hfs)].
    - rewrite app_nil_r. by apply float_digits_whole.
    - by apply float_digits_fraction. }
  unfold py_float. destruct Hsign as [-> | ->].
  - change (replace_char 44 46 (remove_char NBSP (remove_char 32 []))) with (@nil N).
    cbn [app]. change (x :: ds ++ frac') with ((x :: ds) ++ frac') in *.
    rewrite num_strip_id by done.
    cbn [app]. destruct (x =? 45) eqn:E; [|done].
    apply N.eqb_eq in E as ->. apply Forall_cons in Hds as [Hx _].
    by rewrite isdecimal_minus in Hx.
  - change (replace_char 44 46 (remove_char NBSP (remove_char 32 [45]))) with [45].
    rewrite num_strip_id by (by constructor).
    change ([45] ++ (x :: ds) ++ frac') with (45 :: (x :: ds) ++ frac').
    change (45 =? 45) with true. cbv iota.
    destruct Hnum as [d ->]. by eexists.
Qed.

(** A match of [_FLOAT_RE] holds a digit. *)
Lemma re_match_float_no_digit (U : unicode) (s : str) :
  Forall (λ c, isdecimal U c = false) s → re_match U _FLOAT_RE s = None.
Proof.
  intros Hs. destruct (re_match U _FLOAT_RE s) as [m|] eqn:E; [|done].
  apply re_match_sound in E as (_ & Heq & Hm).
  apply float_re_matches in Hm as (sign & x & ds & frac & Hg & _ & [Hx _]%Forall_cons & _).
  rewrite Forall_forall in Hs. rewrite (Hs x) in Hx; [done|].
  rewrite Heq, Hg. set_solver.
Qed.

(** X20. [extract_float] gives nothing exactly on a text without decimal
    digit: whenever the text has a digit, [float] accepts what the match
    leaves, and the handler of [ValueError] is never entered. *)
Theorem extract_float_none_iff (U : unicode) (s : str) :
  extract_float U (Some s) = None ↔ Forall (λ c, isdecimal U c = false) s.
Proof.
  split.
  - intros Hnone. apply Forall_forall. intros c Hc.
    destruct (isdecimal U c) eqn:Hd; [|done]. exfalso.
    apply list_elem_of_split in Hc as (pre & rest & ->).
    destruct (re_search_found U _FLOAT_RE pre (c :: rest)
                (re_match_float_at_digit U c rest Hd)) as [m Hm].
    unfold extract_float, float_num in Hnone. rewrite Hm in Hnone.
    apply re_search_sound in Hm as (_ & Hg & _).
    destruct (py_float_of_match U (group0 m) Hg) as [d Hfloat].
    destruct (pre ++ c :: rest) as [|c0 t0] eqn:E; [by destruct pre|]. congruence.
  - intros Hs. unfold extract_float, float_num. destruct s as [|c s]; [done|].
    rewrite re_search_None; [done|].
    intros i. apply re_match_float_no_digit.
    apply Forall_forall. intros y Hy. rewrite Forall_forall in Hs. apply Hs.
    by apply (subseteq_drop i (c :: s)).
Qed.

(** ** The exporter *)

Global Instance key_le_total : Total key_le.
Proof. intros a b. apply Stdlib.Strings.String.leb_total. Qed.

Lemma elem_of_fieldnames (listings : list record) (k : string) :
  k ∈ fieldnames listings ↔ ∃ item, item ∈ listings ∧ is_Some (item !! k).
Proof.
  unfold fieldnames. rewrite merge_sort_Permutation, elem_of_elements, elem_of_union_list.
  split.
  - intros (X & (item & -> & Hitem)%list_elem_of_fmap & Hk). exists item.
    split; [done|]. by apply elem_of_dom.
  - intros (item & Hitem & Hk). exists (dom item). split; [|by apply elem_of_dom].
    apply list_elem_of_fmap. eauto.
Qed.

Lemma csv_row_lookup (names : list string) (item : record) (k : string) :
  csv_row names item !! k
  = if bool_decide (k ∈ names) then Some (flatten_value (dict_get item k)) else None.
Proof.
  unfold csv_row. induction names as [|n names IH]; [done|].
  rewrite fmap_cons. cbn [list_to_map foldr]. cbv beta.
  destruct (decide (n = k)) as [->|Hne].
  - rewrite lookup_insert_eq. rewrite bool_decide_eq_true_2; [done|by left].
  - rewrite lookup_insert_ne by done. rewrite IH.
    destruct (decide (k ∈ names)) as [Hin|Hin].
    + rewrite !bool_decide_eq_true_2; [done|by right|done].
    + rewrite !bool_decide_eq_false_2; [done| |done].
      intros [->|?]%elem_of_cons; done.
Qed.

(** X21. The columns of the CSV and HTML exports are the keys that occur
    in some listing, each once, in ascending order; every row of the CSV
    export has a field for each column, empty for a key that the listing
    lacks or holds [None] under, and the strings of a list joined by a
    semicolon and a blank. *)
Theorem export_columns (listings : list record) :
  Sorted key_le (fieldnames listings)
  ∧ NoDup (fieldnames listings)
  ∧ (∀ k, k ∈ fieldnames listings ↔ ∃ item, item ∈ listings ∧ is_Some (item !! k))
  ∧ ∀ item k, k ∈ fieldnames listings →
      csv_row (fieldnames listings) item !! k
      = Some (match item !! k with
              | None | Some VNone => []
              | Some (VStr s) => s
              | Some (VInt n) => str_of_int n
              | Some (VList l) => join (lit "; ") l
              end).
Proof.
  split_and!.
  - apply (Sorted_merge_sort key_le).
  - unfold fieldnames. rewrite merge_sort_Permutation. apply NoDup_elements.
  - apply elem_of_fieldnames.
  - intros item k Hk. rewrite csv_row_lookup, bool_decide_eq_true_2 by done.
    unfold dict_get. by destruct (item !! k) as [[]|].
Qed.

Lemma escape_char_cases (c : char) :
  (c = 38 ∧ escape_char c = lit "&amp;")
  ∨ (c = 60 ∧ escape_char c = lit "&lt;")
  ∨ (c = 62 ∧ escape_char c = lit "&gt;")
  ∨ (c = 34 ∧ escape_char c = lit "&quot;")
  ∨ (c = 39 ∧ escape_char c = lit "&#x27;")
  ∨ (c ≠ 38 ∧ c ≠ 60 ∧ c ≠ 62 ∧ c ≠ 34 ∧ c ≠ 39 ∧ escape_char c = [c]).
Proof.
  unfold escape_char.
  destruct (c =? 38) eqn:E1; [apply N.eqb_eq in E1; by left|apply N.eqb_neq in E1].
  destruct (c =? 60) eqn:E2; [apply N.eqb_eq in E2; by right; left|apply N.eqb_neq in E2].
  destruct (c =? 62) eqn:E3;
    [apply N.eqb_eq in E3; by right; right; left|apply N.eqb_neq in E3].
  destruct (c =? 34) eqn:E4;
    [apply N.eqb_eq in E4; by right; right; right; left|apply N.eqb_neq in E4].
  destruct (c =? 39) eqn:E5;
    [apply N.eqb_eq in E5; by right; right; right; right; left|apply N.eqb_neq in E5].
  by right; right; right; right; right.
Qed.

Lemma escape_cons (c : char) (s : str) : escape (c :: s) = escape_char c ++ escape s.
Proof. done. Qed.

Lemma escape_inj (s t : str) : escape s = escape t → s = t.
Proof.
  revert t. induction s as [|c s IH]; intros t.
  - destruct t as [|d t]; [done|]. rewrite escape_cons.
    destruct (escape_char_cases d) as [[_ ->]|[[_ ->]|[[_ ->]|[[_ ->]|[[_ ->]|(_&_&_&_&_& ->)]]]]];
      by vm_compute.
  - destruct t as [|d t]; rewrite !escape_cons.
    + destruct (escape_char_cases c) as [[_ ->]|[[_ ->]|[[_ ->]|[[_ ->]|[[_ ->]|(_&_&_&_&_& ->)]]]]];
        by vm_compute.
    + destruct (escape_char_cases c)
        as [[-> ->]|[[-> ->]|[[-> ->]|[[-> ->]|[[-> ->]|(?&?&?&?&?& ->)]]]]];
      destruct (escape_char_cases d)
        as [[-> ->]|[[-> ->]|[[-> ->]|[[-> ->]|[[-> ->]|(?&?&?&?&?& ->)]]]]];
      change (lit "&amp;") with [38; 97; 109; 112; 59];
      change (lit "&lt;") with [38; 108; 116; 59];
      change (lit "&gt;") with [38; 103; 116; 59];
      change (lit "&quot;") with [38; 113; 117; 111; 116; 59];
      change (lit "&#x27;") with [38; 35; 120; 50; 55; 59];
      cbn [app]; intros Heq; simplify_eq; by rewrite (IH t).
Qed.

(** X22. Escaped text holds none of the characters [<], [>], the double
    and the single quote, whatever the text was, and escaping loses
    nothing: two texts with the same escaped form are equal. The cell of
    a value that is not a list is such an escaped text. *)
Theorem escape_safe (s : str) :
  Forall (λ c, c ≠ 60 ∧ c ≠ 62 ∧ c ≠ 34 ∧ c ≠ 39) (escape s)
  ∧ (∀ t, escape s = escape t → s = t)
  ∧ ∀ v, (∀ l, v ≠ VList l) →
      Forall (λ c, c ≠ 60 ∧ c ≠ 62 ∧ c ≠ 34 ∧ c ≠ 39) (display v).
Proof.
  assert (∀ s, Forall (λ c, c ≠ 60 ∧ c ≠ 62 ∧ c ≠ 34 ∧ c ≠ 39) (escape s)) as Hsafe.
  { clear s. induction s as [|c s IH]; [constructor|].
    rewrite escape_cons. apply Forall_app. split; [|done].
    destruct (escape_char_cases c)
      as [[_ ->]|[[_ ->]|[[_ ->]|[[_ ->]|[[_ ->]|(?&?&?&?&?& ->)]]]]];
      repeat constructor; done. }
  split; [apply Hsafe|]. split; [apply escape_inj|].
  intros [| | |l] Hv; cbn [display]; try apply Hsafe. by destruct (Hv l).
Qed.

(** ** The inputs file *)

Lemma lstrip_head (s : str) (c : char) : head (lstrip s) = Some c → isspace c = false.
Proof.
  induction s as [|x s IH]; [done|]. simpl.
  destruct (isspace x) eqn:Hx; [done|]. by intros [= <-].
Qed.

Lemma lstrip_id (s : str) : (∀ c, head s = Some c → isspace c = false) → lstrip s = s.
Proof. destruct s as [|x s]; [done|]. intros Hs. simpl. by rewrite (Hs x). Qed.

Lemma rtrim_id (s : str) : (∀ c, last s = Some c → isspace c = false) → rtrim s = s.
Proof.
  intros Hs. destruct (rtrim_prefix s) as (ws & Heq & Hws).
  destruct ws as [|w ws _] using rev_ind; [by rewrite app_nil_r in Heq|].
  apply Forall_app in Hws as [_ [Hw _]%Forall_cons].
  rewrite Heq, (assoc_L (++)), last_snoc in Hs. by rewrite (Hs w) in Hw.
Qed.

Lemma strip_strip (s : str) : strip (strip s) = strip s.
Proof.
  unfold strip. rewrite !rstrip_rtrim.
  destruct (rtrim_prefix (lstrip s)) as (ws & Heq & _).
  rewrite (lstrip_id (rtrim (lstrip s))).
  - apply rtrim_id, rtrim_last.
  - intros c Hc. apply (lstrip_head s). rewrite Heq.
    by destruct (rtrim (lstrip s)).
Qed.

Lemma read_lines_spec (urls lines : list str) :
  read_lines urls lines = urls ++ omap url_of_line lines.
Proof.
  revert urls. induction lines as [|line lines IH]; intros urls; [by rewrite app_nil_r|].
  change (omap url_of_line (line :: lines))
    with (match url_of_line line with
          | Some y => y :: omap url_of_line lines
          | None => omap url_of_line lines
          end).
  cbn [read_lines]. unfold url_of_line at 1.
  destruct (strip line) as [|c url]; [apply IH|]. cbn [andb].
  destruct (starts_with (lit "#") (c :: url)); cbn [negb]; [apply IH|].
  by rewrite IH, <- (assoc_L (++)).
Qed.

Lemma url_of_line_Some (line url : str) :
  url_of_line line = Some url →
  url = strip line ∧ url ≠ [] ∧ strip url = url ∧ head url ≠ Some 35.
Proof.
  unfold url_of_line. destruct (strip line) as [|c u] eqn:E; [done|].
  destruct (starts_with (lit "#") (c :: u)) eqn:Hs; [done|]. intros [= <-].
  split; [done|]. split; [done|]. split; [by rewrite <- E, strip_strip|].
  intros [= ->]. by vm_compute in Hs.
Qed.

(** X23. [read_inputs_file] returns the lines of the file that hold a
    URL, in their order and stripped: none is empty, none starts or ends
    with white space, none starts with [#], so a comment that is indented is
    left out too. A file that does not exist gives the empty list and a
    warning. What stands at the path but cannot be opened or decoded makes
    the function raise, without log record. *)
Theorem read_inputs_file_urls (H : host) (path : str) :
  match lines_at H path with
  | NoSuchFile =>
      read_inputs_file H path = (Done [], [Notice (Lvl WARNING) (InputsMissing path)])
  | CannotRead =>
      read_inputs_file H path = (Failed FileError, [])
  | TextLines lines =>
      ∃ urls,
        read_inputs_file H path
          = (Done urls, [Notice (Lvl INFO) (LoadedStartUrls (length urls) path)])
        ∧ urls = omap url_of_line lines
        ∧ Forall (λ u, u ≠ [] ∧ strip u = u ∧ head u ≠ Some 35
                       ∧ ∃ line, line ∈ lines ∧ u = strip line) urls
  end.
Proof.
  unfold read_inputs_file. destruct (lines_at H path) as [| |lines]; [done..|].
  exists (omap url_of_line lines). rewrite read_lines_spec. cbn [app].
  split; [done|]. split; [done|].
  apply Forall_forall. intros u (line & Hline & Hu)%list_elem_of_omap.
  apply url_of_line_Some in Hu as (-> & ? & ? & ?). eauto 10.
Qed.

(** ** The export *)

Lemma up_to_last_slash_none (p : str) :
  Forall (λ c, c ≠ 47) p → up_to_last_slash p = [].
Proof.
  induction 1 as [|c p Hc _ IH]; [done|]. cbn [up_to_last_slash]. rewrite IH.
  by apply N.eqb_neq in Hc as ->.
Qed.

Lemma dirname_bare (p : str) : Forall (λ c, c ≠ 47) p → dirname p = [].
Proof. intros Hp. unfold dirname. by rewrite (up_to_last_slash_none p Hp). Qed.

(** X24. [export_listings] creates the directory of the path before it
    looks at the format. A path without a slash has the empty directory
    name, which cannot be created: the export then fails whatever the
    format, and nothing is written. With the directory at hand, a format
    other than json, csv and html (in any case) raises [ValueError] and
    leaves no file, and the format html writes one file, the document of
    the listings, and logs the export. *)
Theorem export_listings_outcome (U : unicode) (H : host) (listings : list record)
    (path fmt : str) :
  (Forall (λ c, c ≠ 47) path →
     export_listings U H listings path fmt = (Failed FileError, []))
  ∧ (makedirs H (dirname path) = true →
       (lower U fmt ≠ lit "json" → lower U fmt ≠ lit "csv" → lower U fmt ≠ lit "html" →
          export_listings U H listings path fmt
            = (Failed ValueError, [MakeDirs (dirname path)]))
       ∧ (lower U fmt = lit "html" → open_w H path = true →
            export_listings U H listings path fmt
              = (Done (), [MakeDirs (dirname path);
                           WriteFile path (html_doc listings);
                           Notice (Lvl INFO) (Exported (length listings) (lit "html") path)]))
       ∧ (lower U fmt = lit "html" → open_w H path = false →
            export_listings U H listings path fmt
              = (Failed FileError, [MakeDirs (dirname path)]))).
Proof.
  unfold export_listings. split.
  - intros Hp. by rewrite (dirname_bare path Hp), makedirs_empty.
  - intros ->. split_and!.
    + intros Hj Hc Hh. by rewrite !bool_decide_eq_false_2.
    + intros -> Ho. unfold _export_html, write_text. by rewrite Ho.
    + intros -> Ho. unfold _export_html, write_text. by rewrite Ho.
Qed.

Lemma export_listings_outcome_witness :
  export_listings ascii_tables example_host [] (lit "output.json") (lit "json")
    = (Failed FileError, [])
  ∧ export_listings ascii_tables example_host [] (lit "data/output.html") (lit "HTML")
    = (Done (), [MakeDirs (lit "data");
                 WriteFile (lit "data/output.html")
                   (lit "<html><body><p>No listings found.</p></body></html>");
                 Notice (Lvl INFO) (Exported 0 (lit "html") (lit "data/output.html"))]).
Proof.
  destruct (export_listings_outcome ascii_tables example_host [] (lit "output.json")
              (lit "json")) as [Hbare _].
  destruct (export_listings_outcome ascii_tables example_host [] (lit "data/output.html")
              (lit "HTML")) as [_ Hdir].
  split.
  - apply Hbare. by apply (bool_decide_unpack _).
  - destruct Hdir as (_ & Hhtml & _); [done|]. by apply Hhtml.
Defined.

Lemma read_inputs_file_urls_witness :
  read_inputs_file example_host (lit "data/inputs.txt")
  = (Done [lit "https://www.seloger.com/list.htm"; lit "https://www.seloger.com/other.htm"],
     [Notice (Lvl INFO) (LoadedStartUrls 2 (lit "data/inputs.txt"))])
  ∧ read_inputs_file example_host (lit "data") = (Failed FileError, [])
  ∧ read_inputs_file example_host (lit "data/none.txt")
    = (Done [], [Notice (Lvl WARNING) (InputsMissing (lit "data/none.txt"))]).
Proof.
  split; [|split].
  - pose proof (read_inputs_file_urls example_host (lit "data/inputs.txt")) as Hr.
    change (lines_at example_host (lit "data/inputs.txt"))
      with (TextLines [lit "# start pages" ++ [10]; [10];
                       lit "  https://www.seloger.com/list.htm " ++ [10];
                       lit "https://www.seloger.com/other.htm" ++ [10]]) in Hr.
    destruct Hr as (urls & -> & -> & _). by vm_compute.
  - exact (read_inputs_file_urls example_host (lit "data")).
  - exact (read_inputs_file_urls example_host (lit "data/none.txt")).
Defined.

(** ** The command line *)

Lemma written_app (w1 w2 : list action) : written (w1 ++ w2) = written w1 ++ written w2.
Proof. apply omap_app. Qed.

Lemma fetched_app (w1 w2 : list action) : fetched (w1 ++ w2) = fetched w1 ++ fetched w2.
Proof. apply omap_app. Qed.

Lemma written_Inner (w : list event) : written (Inner <$> w) = [].
Proof. induction w as [|e w IH]; [done|]. by rewrite fmap_cons. Qed.

Lemma fetched_Inner (w : list event) : fetched (Inner <$> w) = requests w.
Proof.
  induction w as [|e w IH]; [done|]. rewrite fmap_cons.
  destruct e as [lvl msg|u].
  - change (fetched (Inner (LOG lvl msg) :: (Inner <$> w))) with (fetched (Inner <$> w)).
    by rewrite IH.
  - change (fetched (Inner (GET u) :: (Inner <$> w))) with (u :: fetched (Inner <$> w)).
    by rewrite IH.
Qed.





Lemma read_inputs_file_spec_aux (H : host) (path : str) :
  match lines_at H path with
  | NoSuchFile =>
      read_inputs_file H path = (Done [], [Notice (Lvl WARNING) (InputsMissing path)])
  | CannotRead =>
      read_inputs_file H path = (Failed FileError, [])
  | TextLines lines =>
      read_inputs_file H path
        = (Done (omap url_of_line lines),
           [Notice (Lvl INFO) (LoadedStartUrls (length (omap url_of_line lines)) path)])
      ∧ ∀ u, head (omap url_of_line lines) = Some u → u ≠ []
  end.
Proof.
  unfold read_inputs_file. destruct (lines_at H path) as [| |lines]; [done..|].
  rewrite read_lines_spec. split; [done|].
  intros u Hu%head_Some_elem_of. apply list_elem_of_omap in Hu as (line & _ & Hu).
  by apply url_of_line_Some in Hu as (_ & ? & _).
Qed.

(** The start URL of a run: the block raises when the inputs file is to be
    read and cannot be. *)
Lemma main_start_url_spec (H : host) (config : settings) :
  if inputs_unreadable H config
  then main_start_url H config = (Failed FileError, [])
  else ∃ r w, main_start_url H config = (Done r, w)
         ∧ written w = [] ∧ fetched w = []
         ∧ or_str r None = resolved_start_url H config.
Proof.
  unfold main_start_url, resolved_start_url, inputs_unreadable.
  destruct (cfg_start_url config) as [[|c u]|];
    destruct (cfg_inputs_file config) as [[|d path]|]; cbn [falsy andb].
  all: try (eexists _, _; by split_and!).
  all: pose proof (read_inputs_file_spec_aux H (d :: path)) as Hr;
    destruct (lines_at H (d :: path)) as [| |lines];
    [rewrite Hr; cbn [and_then pure app]; eexists _, _; by split_and!
    |by rewrite Hr
    |destruct Hr as (-> & Hne); cbn [and_then pure app];
     eexists _, _; split_and!; [done..|];
     destruct (head (omap url_of_line lines)) as [[|c' u']|] eqn:E; [|done..];
     by destruct (Hne [] eq_refl)].
Qed.

Lemma resolved_readable (H : host) (config : settings) (u : str) :
  resolved_start_url H config = Some u → inputs_unreadable H config = false.
Proof.
  unfold resolved_start_url, inputs_unreadable.
  destruct (cfg_start_url config) as [[|c x]|];
    destruct (cfg_inputs_file config) as [[|d path]|]; cbn [falsy andb]; try done.
  all: by destruct (lines_at H (d :: path)).
Qed.


(** A run starts with the request for the page of results. *)
Lemma scrape_starts (U : unicode) (W : world) (completion : list nat)
    (start_url : str) (deep_scrape : bool) (limit : option Z) :
  ∃ r w, scrape U W completion start_url deep_scrape limit = (r, search_trace start_url ++ w)
    ∧ (session_get W 0 start_url ≫= tree = None → w = [] ∧ ∃ e, r = Raise e).
Proof.
  unfold scrape. rewrite fetch_url_spec.
  destruct (session_get W 0 start_url) as [html|]; [|eexists _, []; split; [done|]; eauto].
  assert (tree html = None → _parse_search_results U html = (Raise ParserError, [])) as Hnone.
  { intros Htree. unfold _parse_search_results, BeautifulSoup. by rewrite Htree. }
  cbn [mbind option_bind bind log emit].
  destruct (_parse_search_results U html) as [[found|e] w1]; cbn [bind log emit ret].
  - destruct deep_scrape; cbn [negb bind ret log emit].
    + match goal with |- context [_deep_scrape_summaries U W completion ?l] =>
        destruct (_deep_scrape_summaries U W completion l) as [r2 w2] end.
      eexists _, _. split; [done|]. by intros ?%Hnone.
    + eexists _, _. split; [done|]. by intros ?%Hnone.
  - eexists _, _. split; [done|]. intros [= _ <-]%Hnone. eauto.
Qed.

(** What is sequenced after a computation extends its trace, and does
    nothing when the computation fails. *)
Lemma and_then_trace {A B} (m : R A) (f : A → R B) :
  ∃ r w, and_then m f = (r, m.2 ++ w)
    ∧ (∀ e, m.1 = Failed e → r = Failed e ∧ w = []).
Proof.
  destruct m as [[a|e] w0]; cbn [and_then fst snd].
  - destruct (f a) as [r w]. by eexists _, _.
  - eexists _, []. rewrite app_nil_r. split; [done|]. by intros ? [= <-].
Qed.

Lemma requests_search_trace (u : str) : requests (search_trace u) = [u].
Proof. done. Qed.

(** The call of the scraper in [main]: an exception ends the run with
    [SystemExit(1)]. *)
Lemma caught_scrape (m : M (list record)) (handler_notice : failure → notice) :
  ∃ r w,
    catch (lift m) (λ exc, (notify ERROR (handler_notice exc);; fail (SystemExit 1))%R)
      = (r, (Inner <$> m.2) ++ w)
    ∧ written w = [] ∧ fetched w = []
    ∧ match m.1 with
      | Return a => r = Done a ∧ w = []
      | Raise e => r = Failed (SystemExit 1)
      end.
Proof.
  destruct m as [[a|e] w0]; cbn [lift catch fst snd notify act and_then fail app].
  - eexists _, []. by rewrite app_nil_r.
  - by eexists _, _.
Qed.

Lemma main_scrape_first_request (U : unicode) (W : world) (completion : list nat)
    (H : host) (config : settings) (args : arguments) (start_url : str) :
  ∃ r w, main_scrape U W completion H config args start_url = (r, w)
    ∧ head (fetched w) = Some start_url
    ∧ (session_get W 0 start_url ≫= tree = None →
         r = Failed (SystemExit 1) ∧ fetched w = [start_url] ∧ written w = []).
Proof.
  unfold main_scrape.
  destruct (scrape_starts U W completion start_url (cfg_deep_scrape config)
              (cfg_max_results config)) as (r & w & Hs & Hfail).
  rewrite Hs.
  destruct (caught_scrape (r, search_trace start_url ++ w) ScrapingFailed)
    as (r1 & w1 & -> & Hw1 & Hf1 & Hr1).
  cbn [fst snd] in *.
  match goal with |- context [and_then (r1, ?t) ?K] =>
    destruct (and_then_trace (r1, t) K) as (r2 & w2 & -> & Hr2) end.
  cbn [fst snd notify act and_then] in *.
  eexists _, _. split; [done|].
  rewrite fmap_app, !fetched_app, fetched_Inner, requests_search_trace.
  split; [done|]. intros Hnone. destruct (Hfail Hnone) as (-> & e & ->).
  destruct (Hr2 (SystemExit 1)) as [-> ->]; [by rewrite Hr1|].
  split; [done|]. rewrite Hf1. split; [done|].
  by rewrite !written_app, written_Inner, Hw1.
Qed.

Lemma and_then_Done {A B} (a : A) (w : list action) (f : A → R B) :
  and_then (Done a, w) f = ((f a).1, w ++ (f a).2).
Proof. unfold and_then. by destruct (f a). Qed.

(** [main] up to the start URL. *)
Lemma main_spec (U : unicode) (W : world) (completion : list nat) (H : host)
    (args : arguments) (config : settings) :
  config_at H (arg_config args) = Some config →
  inputs_unreadable H config = false →
  ∃ w0, written w0 = [] ∧ fetched w0 = []
    ∧ main U W completion H args
      = and_then (Done (), w0)
          (λ _, match resolved_start_url H config with
                | Some u => main_scrape U W completion H config args u
                | None => (notify ERROR NoStartUrl;; fail (SystemExit 1))%R
                end).
Proof.
  intros Hcfg Hread. unfold main, setup_logging, load_config, notify, act. rewrite Hcfg.
  pose proof (main_start_url_spec H config) as Hspec. rewrite Hread in Hspec.
  destruct Hspec as (r & w & Hr & Hw & Hf & Hres).
  rewrite !and_then_Done. cbn [pure fst snd catch app].
  rewrite and_then_Done, Hr, and_then_Done. cbn [fst snd].
  exists ([Notice (Lvl DEBUG)
             (LoggingInitialized
                (if (arg_verbosity args =? 1)%Z then INFO
                 else if (2 <=? arg_verbosity args)%Z then DEBUG else WARNING));
           Notice (Lvl DEBUG) (LoadedConfiguration (arg_config args))] ++ w).
  split; [by rewrite written_app, Hw|]. split; [by rewrite fetched_app, Hf|].
  rewrite and_then_Done, <- Hres.
  by destruct r as [[|c u]|].
Qed.

(** [main] when the inputs file is to be read and cannot be: the
    exception leaves the run. *)
Lemma main_unreadable (U : unicode) (W : world) (completion : list nat) (H : host)
    (args : arguments) (config : settings) :
  config_at H (arg_config args) = Some config →
  inputs_unreadable H config = true →
  (main U W completion H args).1 = Failed FileError
  ∧ fetched (main U W completion H args).2 = []
  ∧ written (main U W completion H args).2 = [].
Proof.
  intros Hcfg Hread. unfold main, setup_logging, load_config, notify, act. rewrite Hcfg.
  pose proof (main_start_url_spec H config) as Hspec. rewrite Hread in Hspec.
  rewrite !and_then_Done. cbn [pure fst snd catch app].
  by rewrite and_then_Done, Hspec.
Qed.




(** X25. With a configuration file that is missing or is not JSON, the
    run ends with [SystemExit(1)] before it requests or writes anything.
    With a configuration that is a JSON object, the start URL of the run is
    the [start_url] of the configuration when it is not empty, and
    otherwise the first line of the inputs file that holds a URL. When
    the inputs file is to be read and cannot be opened or decoded, the
    error leaves the run, which has requested and written nothing;
    otherwise, without any start URL the run ends with [SystemExit(1)]
    before it requests or writes anything, and with a start URL the first
    request of the run is for it. *)
Theorem start_url_resolution (U : unicode) (W : world) (completion : list nat)
    (H : host) (args : arguments) :
  match config_at H (arg_config args) with
  | None =>
      (main U W completion H args).1 = Failed (SystemExit 1)
      ∧ fetched (main U W completion H args).2 = []
      ∧ written (main U W completion H args).2 = []
  | Some config =>
      if inputs_unreadable H config then
        (main U W completion H args).1 = Failed FileError
        ∧ fetched (main U W completion H args).2 = []
        ∧ written (main U W completion H args).2 = []
      else
        match resolved_start_url H config with
        | None =>
            (main U W completion H args).1 = Failed (SystemExit 1)
            ∧ fetched (main U W completion H args).2 = []
            ∧ written (main U W completion H args).2 = []
        | Some u =>
            u ≠ [] ∧ head (fetched (main U W completion H args).2) = Some u
        end
  end.
Proof.
  destruct (config_at H (arg_config args)) as [config|] eqn:Hcfg.
  - destruct (inputs_unreadable H config) eqn:Hread;
      [by apply (main_unreadable U W completion H args config)|].
    destruct (main_spec U W completion H args config Hcfg Hread) as (w0 & Hw0 & Hf0 & ->).
    rewrite and_then_Done. cbn [fst snd].
    pose proof (main_start_url_spec H config) as Hspec. rewrite Hread in Hspec.
    destruct Hspec as (r & w & _ & _ & _ & Hres).
    destruct (resolved_start_url H config) as [u|].
    + split; [destruct r as [[|c x]|]; cbn [or_str] in Hres; by simplify_eq|].
      destruct (main_scrape_first_request U W completion H config args u)
        as (r1 & w1 & -> & Hhead & _).
      cbn [snd]. rewrite fetched_app, Hf0. done.
    + cbn [notify act fail and_then fst snd]. by rewrite fetched_app, written_app, Hw0, Hf0.
  - unfold main, setup_logging, load_config. by rewrite Hcfg.
Qed.

(** The example host: the first URL of the inputs file is requested
    first; a configuration whose inputs file is a directory ends the run
    with the error of [open]; without configuration file the run exits. *)
Lemma start_url_resolution_witness :
  head (fetched (main ascii_tables small_site [] example_host
                   (example_args "data/output.json")).2)
    = Some (lit "https://www.seloger.com/list.htm")
  ∧ (main ascii_tables small_site [] example_host
       {| arg_config := lit "broken.json"; arg_output := lit "data/output.json";
          arg_verbosity := 1 |}).1 = Failed FileError
  ∧ (main ascii_tables small_site [] example_host
       {| arg_config := lit "none.json"; arg_output := lit "data/output.json";
          arg_verbosity := 1 |}).1 = Failed (SystemExit 1).
Proof.
  split; [|split].
  - pose proof (start_url_resolution ascii_tables small_site [] example_host
                  (example_args "data/output.json")) as Hs.
    change (config_at example_host (arg_config (example_args "data/output.json")))
      with (Some shallow_settings) in Hs.
    cbv beta iota in Hs.
    assert (inputs_unreadable example_host shallow_settings = false) as Hr by by vm_compute.
    assert (resolved_start_url example_host shallow_settings
            = Some (lit "https://www.seloger.com/list.htm")) as Hu by by vm_compute.
    rewrite Hr, Hu in Hs. exact (proj2 Hs).
  - pose proof (start_url_resolution ascii_tables small_site [] example_host
                  {| arg_config := lit "broken.json"; arg_output := lit "data/output.json";
                     arg_verbosity := 1 |}) as Hs.
    change (config_at example_host _) with (Some broken_settings) in Hs.
    cbv beta iota in Hs.
    assert (inputs_unreadable example_host broken_settings = true) as Hr by by vm_compute.
    rewrite Hr in Hs. exact (proj1 Hs).
  - pose proof (start_url_resolution ascii_tables small_site [] example_host
                  {| arg_config := lit "none.json"; arg_output := lit "data/output.json";
                     arg_verbosity := 1 |}) as Hs.
    change (config_at example_host _) with (@None settings) in Hs.
    exact (proj1 Hs).
Defined.

(** X26. When the page of results cannot be fetched or parsed, the run
    ends with [SystemExit(1)] after that one request, and no file is
    written. *)
Theorem main_scrape_failure (U : unicode) (W : world) (completion : list nat)
    (H : host) (args : arguments) (config : settings) (u : str) :
  config_at H (arg_config args) = Some config →
  resolved_start_url H config = Some u →
  session_get W 0 u ≫= tree = None →
  (main U W completion H args).1 = Failed (SystemExit 1)
  ∧ fetched (main U W completion H args).2 = [u]
  ∧ written (main U W completion H args).2 = [].
Proof.
  intros Hcfg Hu Hnone.
  destruct (main_spec U W completion H args config Hcfg (resolved_readable H config u Hu))
    as (w0 & Hw0 & Hf0 & ->).
  rewrite and_then_Done, Hu. cbn [fst snd].
  destruct (main_scrape_first_request U W completion H config args u)
    as (r1 & w1 & -> & _ & Hfail).
  destruct (Hfail Hnone) as (-> & Hf1 & Hw1). cbn [fst snd].
  by rewrite fetched_app, written_app, Hw0, Hf0, Hw1, Hf1.
Qed.

Lemma main_scrape_failure_witness :
  (main ascii_tables offline [] example_host (example_args "data/output.json")).1
    = Failed (SystemExit 1)
  ∧ written (main ascii_tables offline [] example_host
               (example_args "data/output.json")).2 = [].
Proof.
  destruct (main_scrape_failure ascii_tables offline [] example_host
              (example_args "data/output.json") shallow_settings
              (lit "https://www.seloger.com/list.htm")) as (Hr & _ & Hw);
    [done|by vm_compute|done|]. by split.
Defined.







